(** * BalanceChain (POSnos): the chain engine, embedded and verified

    A shallow embedding of the chain engine of the repository:
    - crypto.js      canonicalize, sha256Hex, computeBlockHash, arrayToHex,
                     hexToArray, generateHumanId
    - constants.js   the protocol constants
    - segment.js     createSegment, getSignableContent, signSegment,
                     validateSegmentStructure, the type utilities
    - idb.js         the IndexedDB helpers (meta, chain, nonce log and its
                     cleanup); the module follows p2p.js in the source tree
    - caps.js        CapsTracker
    - validation.js  the validation rules, validateSegment, validateBatch
    - state.js       StateManager (commitAction, appendSTA, the projections
                     and their getters)
    - integrity.js   verifyChainIntegrity, scanForCorruption, backup
                     eligibility and the read-only latch
    - identity.js    isValidHid, formatHid
    - index.js       initializeApp and the context's commitAction
    - tvm.js         CapsuleManager.hashCapsuleContent and createCapsule

    JavaScript numbers that the engine handles (sequence numbers,
    millisecond timestamps, counters, scores) are integers and are modelled
    as [Z]; strings are modelled by their UTF-8 bytes ([string]);
    asynchronous calls are sequenced in program order. The requests of an
    IndexedDB transaction are committed together or not at all, and the
    transaction commits by itself when its requests are done: whether it
    is still open after the callback of [appendSTA] has awaited a digest is
    an input of the call, like the clock, the random nonce, the ECDSA
    primitives and the identity of the caller's chat id object ([Env]). *)

From Stdlib Require Import ZArith String Ascii List Lia Bool.
From Stdlib Require Import DecimalString DecimalPos DecimalZ Permutation.
From stdpp Require Import gmap strings sorting.
Import ListNotations.
Open Scope Z_scope.
Set Warnings "-register-all".

(* ====================================================================== *)
(** * SHA-256 (FIPS 180-4), as computed by [crypto.subtle.digest]          *)
(* ====================================================================== *)

Module Sha256.

Definition w32 (x : Z) : Z := x mod 4294967296.
Definition add32 (a b : Z) : Z := w32 (a + b).
Definition rotr (n x : Z) : Z :=
  Z.lor (Z.shiftr x n) (w32 (Z.shiftl x (32 - n))).
Definition Ch (x y z : Z) : Z :=
  Z.lxor (Z.land x y) (Z.land (w32 (Z.lnot x)) z).
Definition Maj (x y z : Z) : Z :=
  Z.lxor (Z.lxor (Z.land x y) (Z.land x z)) (Z.land y z).
Definition Sigma0 (x : Z) : Z :=
  Z.lxor (Z.lxor (rotr 2 x) (rotr 13 x)) (rotr 22 x).
Definition Sigma1 (x : Z) : Z :=
  Z.lxor (Z.lxor (rotr 6 x) (rotr 11 x)) (rotr 25 x).
Definition sigma0 (x : Z) : Z :=
  Z.lxor (Z.lxor (rotr 7 x) (rotr 18 x)) (Z.shiftr x 3).
Definition sigma1 (x : Z) : Z :=
  Z.lxor (Z.lxor (rotr 17 x) (rotr 19 x)) (Z.shiftr x 10).

(** The integer part of the [k]-th root of [n], by bisection on
    [lo <= root < hi] *)
Fixpoint iroot (fuel : nat) (k : nat) (n lo hi : Z) : Z :=
  match fuel with
  | O => lo
  | S f =>
      if hi - lo <=? 1 then lo
      else
        let mid := (lo + hi) / 2 in
        if mid ^ Z.of_nat k <=? n then iroot f k n mid hi
        else iroot f k n lo mid
  end.

Definition is_prime (n : Z) : bool :=
  forallb (fun d => negb (n mod Z.of_nat d =? 0)) (seq 2 (Z.to_nat n - 2)).

Definition primes_below (n : nat) : list Z :=
  filter is_prime (map Z.of_nat (seq 2 (n - 2))).

(** The first 32 bits of the fractional part of the [k]-th root of [p] *)
Definition frac_root_bits (k : nat) (p : Z) : Z :=
  w32 (iroot 200 k (p * 2 ^ (32 * Z.of_nat k)) 0 (2 ^ 40)).

(** The round constants: from the cube roots of the first 64 primes *)
Definition K : list Z :=
  Eval vm_compute in map (frac_root_bits 3) (primes_below 312).

(** The initial hash value: from the square roots of the first 8 primes *)
Definition H0 : list Z :=
  Eval vm_compute in map (frac_root_bits 2) (primes_below 20).

(** [TextEncoder().encode]: the bytes of the string. *)
Definition bytes_of_string (s : string) : list Z :=
  map (fun c => Z.of_N (N_of_ascii c)) (list_ascii_of_string s).

Definition be_bytes (n : nat) (x : Z) : list Z :=
  map (fun i => Z.shiftr x (8 * Z.of_nat i) mod 256) (rev (seq 0 n)).

(** message, a 1 bit, zeros up to 56 mod 64, the bit length on 64 bits *)
Definition pad (msg : list Z) : list Z :=
  let len := Z.of_nat (length msg) in
  let k := (55 - len) mod 64 in
  msg ++ [128] ++ repeat 0 (Z.to_nat k) ++ be_bytes 8 (8 * len).

Fixpoint words (bs : list Z) : list Z :=
  match bs with
  | a :: b :: c :: d :: r =>
      (Z.shiftl a 24 + Z.shiftl b 16 + Z.shiftl c 8 + d) :: words r
  | _ => []
  end.

Fixpoint blocks (fuel : nat) (ws : list Z) : list (list Z) :=
  match fuel, ws with
  | S f, _ :: _ => firstn 16 ws :: blocks f (skipn 16 ws)
  | _, _ => []
  end.

(** The schedule is kept newest first: position 1 is W[t-2], position 15
    is W[t-16]. *)
Fixpoint schedule (n : nat) (rw : list Z) : list Z :=
  match n with
  | O => rw
  | S n' =>
      let w := add32 (add32 (sigma1 (nth 1 rw 0)) (nth 6 rw 0))
                     (add32 (sigma0 (nth 14 rw 0)) (nth 15 rw 0)) in
      schedule n' (w :: rw)
  end.

Record Regs := mkRegs
  { ra : Z; rb : Z; rc : Z; rd : Z; re : Z; rf : Z; rg : Z; rh : Z }.

Definition round (r : Regs) (kw : Z * Z) : Regs :=
  let '(k, w) := kw in
  let t1 := add32 (add32 (add32 (rh r) (Sigma1 (re r)))
                         (add32 (Ch (re r) (rf r) (rg r)) k)) w in
  let t2 := add32 (Sigma0 (ra r)) (Maj (ra r) (rb r) (rc r)) in
  mkRegs (add32 t1 t2) (ra r) (rb r) (rc r)
         (add32 (rd r) t1) (re r) (rf r) (rg r).

Definition regs_of (h : list Z) : Regs :=
  mkRegs (nth 0 h 0) (nth 1 h 0) (nth 2 h 0) (nth 3 h 0)
         (nth 4 h 0) (nth 5 h 0) (nth 6 h 0) (nth 7 h 0).

Definition compress (h : list Z) (blk : list Z) : list Z :=
  let w := rev (schedule 48 (rev blk)) in
  let r0 := regs_of h in
  let r := fold_left round (combine K w) r0 in
  [add32 (ra r0) (ra r); add32 (rb r0) (rb r);
   add32 (rc r0) (rc r); add32 (rd r0) (rd r);
   add32 (re r0) (re r); add32 (rf r0) (rf r);
   add32 (rg r0) (rg r); add32 (rh r0) (rh r)].

Definition digest (msg : list Z) : list Z :=
  let ws := words (pad msg) in
  fold_left compress (blocks (length ws) ws) H0.

Definition hex_digit (x : Z) : ascii :=
  if x <? 10 then ascii_of_N (Z.to_N (48 + x))
  else ascii_of_N (Z.to_N (87 + x)).

(** [arrayToHex]: two lowercase hex digits per byte *)
Definition hex_of_byte (b : Z) : string :=
  String (hex_digit (b / 16)) (String (hex_digit (b mod 16)) EmptyString).

Definition hex_of_word (w : Z) : string :=
  String.concat EmptyString (map hex_of_byte (be_bytes 4 w)).

End Sha256.

(** [sha256Hex] of crypto.js: SHA-256 of the UTF-8 bytes, lowercase hex. *)
Definition sha256Hex (str : string) : string :=
  String.concat EmptyString
    (map Sha256.hex_of_word (Sha256.digest (Sha256.bytes_of_string str))).

(** [computeBlockHash] of crypto.js *)
Definition computeBlockHash (signable signature : string) : string :=
  sha256Hex (signable +:+ "|" +:+ signature).

(* ====================================================================== *)
(** * JavaScript values                                                    *)
(* ====================================================================== *)

(** The values that payloads, keys and analysis objects are made of. An
    object is its list of own enumerable properties in enumeration order. *)
Inductive JVal : Type :=
| JUndefined
| JNull
| JBool (b : bool)
| JNum (n : Z)
| JStr (s : string)
| JArr (items : list JVal)
| JObj (props : list (string * JVal)).

(** ToBoolean *)
Definition truthy (v : JVal) : bool :=
  match v with
  | JUndefined | JNull => false
  | JBool b => b
  | JNum n => negb (n =? 0)
  | JStr s => negb (String.eqb s EmptyString)
  | JArr _ | JObj _ => true
  end.

(** [a || b] *)
Definition jor (a b : JVal) : JVal := if truthy a then a else b.

(** [typeof v === 'object'] (true of null, arrays and objects) *)
Definition typeof_object (v : JVal) : bool :=
  match v with
  | JNull | JArr _ | JObj _ => true
  | _ => false
  end.

Fixpoint assoc (k : string) (props : list (string * JVal)) : JVal :=
  match props with
  | [] => JUndefined
  | (k', v) :: r => if String.eqb k k' then v else assoc k r
  end.

(** [v.k] for a value [v] that is not null or undefined (the engine guards
    every such read with [?.] or [|| {}]); the engine reads none of the
    built-in properties of arrays and strings, so they answer undefined. *)
Definition jget (v : JVal) (k : string) : JVal :=
  match v with
  | JObj props => assoc k props
  | _ => JUndefined
  end.

(** [v === w] on values compared by content (exact on primitives). *)
Fixpoint jval_eqb (a b : JVal) : bool :=
  match a, b with
  | JUndefined, JUndefined => true
  | JNull, JNull => true
  | JBool x, JBool y => Bool.eqb x y
  | JNum x, JNum y => x =? y
  | JStr x, JStr y => String.eqb x y
  | JArr xs, JArr ys =>
      (fix go (xs ys : list JVal) : bool :=
         match xs, ys with
         | [], [] => true
         | x :: xs', y :: ys' => jval_eqb x y && go xs' ys'
         | _, _ => false
         end) xs ys
  | JObj xs, JObj ys =>
      (fix go (xs ys : list (string * JVal)) : bool :=
         match xs, ys with
         | [], [] => true
         | (k, x) :: xs', (k', y) :: ys' =>
             String.eqb k k' && jval_eqb x y && go xs' ys'
         | _, _ => false
         end) xs ys
  | _, _ => false
  end.

(** Number to string, for integers: decimal digits with a leading minus. *)
Definition string_of_Z (z : Z) : string :=
  NilZero.string_of_int (Z.to_int z).

Definition dquote : string := String (ascii_of_nat 34) EmptyString.
Definition backslash : string := String (ascii_of_nat 92) EmptyString.

(** QuoteJSONString, character by character *)
Definition escape_char (c : ascii) : string :=
  let n := nat_of_ascii c in
  if Nat.eqb n 34 then backslash +:+ dquote
  else if Nat.eqb n 92 then backslash +:+ backslash
  else if Nat.eqb n 8 then backslash +:+ "b"
  else if Nat.eqb n 12 then backslash +:+ "f"
  else if Nat.eqb n 10 then backslash +:+ "n"
  else if Nat.eqb n 13 then backslash +:+ "r"
  else if Nat.eqb n 9 then backslash +:+ "t"
  else if Nat.ltb n 32 then
    backslash +:+ "u00" +:+ Sha256.hex_of_byte (Z.of_nat n)
  else String c EmptyString.

Fixpoint escape_string (s : string) : string :=
  match s with
  | EmptyString => EmptyString
  | String c r => escape_char c +:+ escape_string r
  end.

(** [JSON.stringify(s)] for a string [s] *)
Definition quote (s : string) : string :=
  dquote +:+ escape_string s +:+ dquote.

(** [arr.join(sep)] on strings *)
Definition join (sep : string) (l : list string) : string :=
  String.concat sep l.

(** The rank of a byte of UTF-8 text in the order of UTF-16 code units.
    [Array.prototype.sort] without a comparator orders strings by code
    unit; on UTF-8 text that is the byte order, except that a character
    from U+E000 to U+FFFF (lead byte EE or EF) comes after the characters
    beyond U+FFFF (lead bytes F0 to F4), whose code units are surrogates. *)
Definition code_unit_rank (c : ascii) : N :=
  let n := N_of_ascii c in
  if ((n =? 238) || (n =? 239))%N then (n + 16)%N
  else if (240 <=? n)%N then (n - 2)%N
  else n.

(** [s <= t] in the order of code units *)
Fixpoint code_unit_leb (s t : string) : bool :=
  match s, t with
  | EmptyString, _ => true
  | String _ _, EmptyString => false
  | String a s', String b t' =>
      match (code_unit_rank a ?= code_unit_rank b)%N with
      | Lt => true
      | Gt => false
      | Eq => code_unit_leb s' t'
      end
  end.

(** Insertion of a property into a list sorted by key *)
Fixpoint insert_sorted {A} (kv : string * A) (l : list (string * A))
  : list (string * A) :=
  match l with
  | [] => [kv]
  | kv' :: r =>
      if code_unit_leb (fst kv) (fst kv') then kv :: l
      else kv' :: insert_sorted kv r
  end.

Definition sort_props {A} (l : list (string * A)) : list (string * A) :=
  fold_right insert_sorted [] l.

(** The Number value of the integer [n]: the nearest integer of 53
    significant bits, ties to the even one; what rounds to 2^1024 or beyond
    is an infinity, for which 2^1024 and its opposite stand. *)
Definition to_double (n : Z) : Z :=
  let a := Z.abs n in
  if a <? 2 ^ 53 then n
  else
    let e := Z.log2 a - 52 in
    let q := Z.shiftr a e in
    let r := a - Z.shiftl q e in
    let half := Z.shiftl 1 (e - 1) in
    let q' := if (half <? r) || ((r =? half) && Z.odd q) then q + 1 else q in
    Z.sgn n * Z.min (Z.shiftl q' e) (2 ^ 1024).

(** The digit strings [s] of [k] digits for which [s * 10^(n-k)] has the
    Number value [d], each with its distance from [d] *)
Definition digit_candidates (d n k : Z) : list (Z * Z * Z) :=
  let p := 10 ^ (n - k) in
  flat_map (fun s =>
              if (10 ^ (k - 1) <=? s) && (s <? 10 ^ k)
                 && (to_double (s * p) =? d)
              then [(Z.abs (s * p - d), s, n)] else [])
           [d / p; d / p + 1].

Definition closer (x y : Z * Z * Z) : Z * Z * Z :=
  let '(dx, sx, _) := x in
  let '(dy, sy, _) := y in
  if dx <? dy then x
  else if dy <? dx then y
  else if Z.even sx then x else y.

(** Number::toString for a Number value [d] of at least 2^53: the least
    number of digits [k] that gives [d] back, and among the digit strings
    of that length the one nearest to [d]; the result is [(s, k, n)] with
    [d] written as [s * 10^(n-k)]. *)
Fixpoint shortest_digits (fuel : nat) (d n k : Z) : Z * Z * Z :=
  match fuel with
  | O => (d, n, n)
  | S f =>
      match digit_candidates d n k ++ digit_candidates d (n + 1) k with
      | [] => shortest_digits f d n (k + 1)
      | c :: cs => let '(_, s, n') := fold_left closer cs c in (s, k, n')
      end
  end.

(** [JSON.stringify(x)] for the Number value of the integer [x]: the
    decimal digits when there are at most 21 of them, the exponent form
    beyond, and null for an infinity. Below 2^53 every integer is its own
    Number value and is printed digit by digit. *)
Definition number_text (x : Z) : string :=
  let d := Z.abs (to_double x) in
  if d <? 2 ^ 53 then string_of_Z x
  else if 2 ^ 1024 <=? d then "null"%string
  else
    let n0 := Z.of_nat (String.length (string_of_Z d)) in
    let '(s, k, n) := shortest_digits 17 d n0 1 in
    let sign := if x <? 0 then "-"%string else EmptyString in
    let digits := string_of_Z s in
    if n <=? 21
    then sign +:+ digits
         +:+ string_of_list_ascii (repeat "0"%char (Z.to_nat (n - k)))
    else
      match digits with
      | String c EmptyString => sign +:+ String c "e+" +:+ string_of_Z (n - 1)
      | String c rest =>
          sign +:+ String c "." +:+ rest +:+ "e+" +:+ string_of_Z (n - 1)
      | EmptyString => sign
      end.

(** Number::toString of the Number value of the integer [x], as a template
    literal prints it *)
Definition number_to_string (x : Z) : string :=
  let d := to_double x in
  if 2 ^ 1024 <=? d then "Infinity"%string
  else if d <=? - 2 ^ 1024 then "-Infinity"%string
  else number_text x.

(** [canonicalize] of crypto.js. The recursive calls are made on the
    property values first and the rendered pairs are then ordered by key,
    which is the same string as mapping over the sorted keys. A number is
    printed by [JSON.stringify]; [JVal] has no numbers with a fraction, so
    a value holding one is outside the embedding. *)
Fixpoint canonicalize (obj : JVal) : string :=
  match obj with
  | JNull => "null"
  | JUndefined => "undefined"
  | JBool true => "true"
  | JBool false => "false"
  | JNum n => number_text n
  | JStr s => quote s
  | JArr items => "[" +:+ join "," (map canonicalize items) +:+ "]"
  | JObj props =>
      let rendered :=
        map (fun kv => match kv with (k, v) => (k, canonicalize v) end) props in
      let pairs :=
        map (fun kv => quote (fst kv) +:+ ":" +:+ snd kv)
            (sort_props rendered) in
      "{" +:+ join "," pairs +:+ "}"
  end.


(** ToString *)
Fixpoint to_string (v : JVal) : string :=
  match v with
  | JUndefined => "undefined"
  | JNull => "null"
  | JBool true => "true"
  | JBool false => "false"
  | JNum n => string_of_Z n
  | JStr s => s
  | JArr items =>
      join "," (map (fun x => match x with
                              | JUndefined | JNull => EmptyString
                              | _ => to_string x
                              end) items)
  | JObj _ => "[object Object]"
  end.

Definition is_space (c : ascii) : bool :=
  let n := nat_of_ascii c in
  (Nat.leb 9 n && Nat.leb n 13) || Nat.eqb n 32.

Fixpoint skip_spaces (s : string) : string :=
  match s with
  | String c r => if is_space c then skip_spaces r else s
  | EmptyString => s
  end.

(** The string without its trailing white space *)
Fixpoint drop_trailing_spaces (s : string) : string :=
  match s with
  | EmptyString => EmptyString
  | String c r =>
      match drop_trailing_spaces r with
      | EmptyString => if is_space c then EmptyString else String c EmptyString
      | r' => String c r'
      end
  end.

Definition is_digit (c : ascii) : bool :=
  let n := nat_of_ascii c in Nat.leb 48 n && Nat.leb n 57.

(** The value of a string of decimal digits; [None] when another
    character occurs or the string is empty *)
Fixpoint all_digits_value (s : string) (acc : option Z) : option Z :=
  match s with
  | EmptyString => acc
  | String c r =>
      if is_digit c
      then all_digits_value r
             (Some (10 * match acc with Some a => a | None => 0 end
                    + Z.of_nat (nat_of_ascii c - 48)))
      else None
  end.

(** StringToNumber on the integers: white space around an optionally
    signed decimal numeral; the empty string is 0; [None] is NaN (also for
    the numerals that are not integers in decimal digits). *)
Definition string_to_number (s : string) : option Z :=
  match drop_trailing_spaces (skip_spaces s) with
  | EmptyString => Some 0
  | String c r =>
      if Nat.eqb (nat_of_ascii c) 45
      then option_map Z.opp (all_digits_value r None)
      else if Nat.eqb (nat_of_ascii c) 43 then all_digits_value r None
      else all_digits_value (String c r) None
  end.

(** ToNumber; [None] is NaN *)
Definition to_number (v : JVal) : option Z :=
  match v with
  | JUndefined => None
  | JNull => Some 0
  | JBool true => Some 1
  | JBool false => Some 0
  | JNum n => Some n
  | JStr s => string_to_number s
  | JArr _ | JObj _ => string_to_number (to_string v)
  end.

(* ====================================================================== *)
(** * Protocol constants (constants.js)                                    *)
(* ====================================================================== *)

Definition PROTOCOL_VERSION : Z := 2.
Definition GENESIS_HASH : string := "GENESIS".
Definition INITIAL_UNLOCKED_SEGMENTS : Z := 1200.
Definition DAILY_CAP : Z := 3600.
Definition MONTHLY_CAP : Z := 36000.
Definition YEARLY_CAP : Z := 120000.
Definition MIN_BLOCK_INTERVAL_MS : Z := 1000.
Definition UTC_TOLERANCE_MS : Z := 720000.

Definition CHAT_USER : string := "chat.user".
Definition AI_ADVICE : string := "ai.advice".
Definition BIZ_DECISION : string := "biz.decision".
Definition BIZ_OUTCOME : string := "biz.outcome".
Definition CHAT_APPEND : string := "chat.append".
Definition CAPSULE_MINT : string := "capsule.mint".
Definition TVM_TRANSFER : string := "tvm.transfer".

(** [Object.values(STA_TYPES)] *)
Definition STA_TYPES : list string :=
  [CHAT_USER; AI_ADVICE; BIZ_DECISION; BIZ_OUTCOME;
   CHAT_APPEND; CAPSULE_MINT; TVM_TRANSFER].

(** [arr.includes(x)] on strings *)
Definition includes (l : list string) (x : string) : bool :=
  existsb (String.eqb x) l.

(* ====================================================================== *)
(** * Segments (segment.js)                                                *)
(* ====================================================================== *)

(** The author record of a segment; [author_livenessProof] is
    [JUndefined] when the author carries no proof. *)
Record Author := mkAuthor
  { author_hid : string;
    author_pubJwk : JVal;
    author_livenessProof : JVal }.

(** A segment (STA). The optional references are [null] when [None]; an
    unsigned segment has no [signature] property. *)
Record Segment := mkSegment
  { s_v : Z;
    s_seq : Z;
    s_timestamp : Z;
    s_nonce : string;
    s_type : string;
    s_payload : JVal;
    s_prev_hash : string;
    s_unlocker_ref : option string;
    s_unlocked_ref : option string;
    s_previous_owner : option string;
    s_current_owner : string;
    s_author : Author;
    s_signature : option string }.

Definition jopt (o : option string) : JVal :=
  match o with Some s => JStr s | None => JNull end.

Definition author_obj (a : Author) : JVal :=
  JObj ([("hid"%string, JStr (author_hid a));
         ("pubJwk"%string, author_pubJwk a)]
        ++ match author_livenessProof a with
           | JUndefined => []
           | p => [("livenessProof"%string, p)]
           end).

(** The object [{ ...segment }] after [delete clean.signature] *)
Definition signable_obj (s : Segment) : JVal :=
  JObj [("v"%string, JNum (s_v s));
        ("seq"%string, JNum (s_seq s));
        ("timestamp"%string, JNum (s_timestamp s));
        ("nonce"%string, JStr (s_nonce s));
        ("type"%string, JStr (s_type s));
        ("payload"%string, s_payload s);
        ("prev_hash"%string, JStr (s_prev_hash s));
        ("unlocker_ref"%string, jopt (s_unlocker_ref s));
        ("unlocked_ref"%string, jopt (s_unlocked_ref s));
        ("previous_owner"%string, jopt (s_previous_owner s));
        ("current_owner"%string, JStr (s_current_owner s));
        ("author"%string, author_obj (s_author s))].

(** What one call reads from its surroundings: the clock (read by
    [createSegment], by the caps tracker and by the liveness rule), the
    random nonce, and the WebCrypto ECDSA primitives. [env_verify] answers
    [None] when importing the key or verifying throws.

    [env_tx_open] says whether the IndexedDB transaction of [appendSTA]
    still takes requests when the digest that the callback awaits has
    resolved: a transaction commits by itself once its requests are done,
    and the digest is computed outside of it.

    [env_chat_ref] is the identity of the object that the payload of the
    call names as chat id, when it names an object or an array: the same
    number in two calls says that the caller passes the same object. *)
Record Env := mkEnv
  { env_now : Z;
    env_now_caps : Z;
    env_now_liveness : Z;
    env_randomHex : string;
    env_sign : string -> string -> string;
    env_verify : JVal -> string -> string -> option bool;
    env_tx_open : bool;
    env_chat_ref : nat }.

Record Identity := mkIdentity
  { id_hid : string;
    id_pubJwk : JVal;
    id_privateKey : string }.

Definition createSegment (e : Env) (hid : string) (pubJwk : JVal)
    (prevHash : string) (seq : Z) (type : string) (payload : JVal)
    (previousOwner unlockerRef unlockedRef : option string) : Segment :=
  {| s_v := PROTOCOL_VERSION;
     s_seq := seq;
     s_timestamp := env_now e;
     s_nonce := env_randomHex e;
     s_type := type;
     s_payload := payload;
     s_prev_hash := prevHash;
     s_unlocker_ref := unlockerRef;
     s_unlocked_ref := unlockedRef;
     s_previous_owner := previousOwner;
     s_current_owner := hid;
     s_author := mkAuthor hid pubJwk JUndefined;
     s_signature := None |}.

Definition getSignableContent (segment : Segment) : string :=
  canonicalize (signable_obj segment).

Definition with_signature (segment : Segment) (sig : string) : Segment :=
  {| s_v := s_v segment;
     s_seq := s_seq segment;
     s_timestamp := s_timestamp segment;
     s_nonce := s_nonce segment;
     s_type := s_type segment;
     s_payload := s_payload segment;
     s_prev_hash := s_prev_hash segment;
     s_unlocker_ref := s_unlocker_ref segment;
     s_unlocked_ref := s_unlocked_ref segment;
     s_previous_owner := s_previous_owner segment;
     s_current_owner := s_current_owner segment;
     s_author := s_author segment;
     s_signature := Some sig |}.

Definition signSegment (e : Env) (segment : Segment) (privateKey : string)
  : Segment :=
  let signable := getSignableContent segment in
  with_signature segment (env_sign e privateKey signable).

Inductive Structure :=
| Valid
| Invalid (reason : string).

Definition startsWith (s prefix : string) : bool :=
  String.eqb (String.substring 0 (String.length prefix) s) prefix.

(** [validateSegmentStructure]. The record type already gives every field
    its JavaScript type, so what is left of each check is its condition on
    the value. *)
Definition validateSegmentStructure (obj : Segment) : Structure :=
  match s_signature obj with
  | None => Invalid "Missing required field: signature"
  | Some _ =>
    if s_v obj <? 1 then Invalid "Invalid version"
    else if s_seq obj <? 1 then Invalid "Invalid sequence number"
    else if s_timestamp obj <? 0 then Invalid "Invalid timestamp"
    else if negb (Nat.eqb (String.length (s_nonce obj)) 32)
      then Invalid "Invalid nonce"
    else if negb (includes STA_TYPES (s_type obj))
      then Invalid ("Invalid type: " +:+ s_type obj)
    else if negb (typeof_object (s_payload obj)) then Invalid "Invalid payload"
    else if negb (startsWith (s_current_owner obj) "HID-")
      then Invalid "Invalid current_owner"
    else if negb (truthy (author_pubJwk (s_author obj)))
      then Invalid "Invalid author"
    else Valid
  end.

Definition affectsCaps (type : string) : bool :=
  includes [CHAT_USER; AI_ADVICE; BIZ_DECISION; CAPSULE_MINT] type.

Definition isMessageType (type : string) : bool :=
  includes [CHAT_USER; AI_ADVICE; BIZ_DECISION; BIZ_OUTCOME; CHAT_APPEND] type.

Definition getMessageDirection (type : string) : option string :=
  if String.eqb type CHAT_USER || String.eqb type BIZ_DECISION
  then Some "out"%string
  else if String.eqb type AI_ADVICE || String.eqb type BIZ_OUTCOME
  then Some "in"%string
  else None.

Definition getMessageTag (type : string) : option string :=
  if String.eqb type BIZ_DECISION then Some "DECISION"%string
  else if String.eqb type BIZ_OUTCOME then Some "OUTCOME"%string
  else None.

(* ====================================================================== *)
(** * The database (idb.js)                                                *)
(* ====================================================================== *)

(** The value kept under the meta key [read_only] *)
Record ReadOnly := mkReadOnly
  { ro_enabled : bool;
    ro_reason : option string;
    ro_timestamp : option Z;
    ro_clearedAt : option Z }.

(** A row of the [caps] store, keyed by its [period] *)
Record CapsRow := mkCapsRow
  { row_type : string;
    row_hid : string;
    row_count : Z;
    row_resetAt : Z }.

(** A row of the [messages] store, and an item of the in-memory view *)
Record Message := mkMessage
  { m_id : string;
    m_seq : Z;
    m_ts : Z;
    m_type : string;
    m_peer : JVal;
    m_dir : option string;
    m_tag : option string;
    m_text : JVal;
    m_hid : string;
    m_decision : JVal;
    m_outcome : JVal;
    m_scores : JVal;
    m_bubbles : JVal }.

(** The object stores. [state_chain] has key path [seq], [sync_log] has key
    path [nonce], [messages] has key path [id], [caps] has key path
    [period]; the meta store is given by the three keys the engine uses,
    each absent ([None]) or holding a value of its fixed type. *)
Record DB := mkDB
  { meta_chain_head : option string;
    meta_chain_len : option Z;
    meta_read_only : option ReadOnly;
    state_chain : gmap Z Segment;
    sync_log : gmap string Z;
    messages : gmap string Message;
    caps : gmap string CapsRow }.

Definition emptyDB : DB :=
  {| meta_chain_head := None; meta_chain_len := None; meta_read_only := None;
     state_chain := ∅; sync_log := ∅; messages := ∅; caps := ∅ |}.

(** [getChainHead]: [getMeta(db, 'chain_head') || 'GENESIS'] *)
Definition getChainHead (db : DB) : string :=
  match meta_chain_head db with
  | Some h => if String.eqb h EmptyString then "GENESIS"%string else h
  | None => "GENESIS"%string
  end.

(** [getChainLen]: [getMeta(db, 'chain_len') || 0] *)
Definition getChainLen (db : DB) : Z :=
  match meta_chain_len db with
  | Some n => n
  | None => 0
  end.

Definition getSTABySeq (db : DB) (seq : Z) : option Segment :=
  state_chain db !! seq.

Definition nonceExists (db : DB) (nonce : string) : bool :=
  match sync_log db !! nonce with
  | Some _ => true
  | None => false
  end.

(** [store.getAll()] on [state_chain]: the records in ascending key order *)
Definition getAll (m : gmap Z Segment) : list Segment :=
  omap (fun k => m !! k) (merge_sort Z.le (elements (dom m))).

Fixpoint insert_by_seq (s : Segment) (l : list Segment) : list Segment :=
  match l with
  | [] => [s]
  | s' :: r =>
      if s_seq s' <=? s_seq s then s' :: insert_by_seq s r else s :: l
  end.

(** [arr.sort((a, b) => a.seq - b.seq)], a stable sort *)
Definition sort_by_seq (l : list Segment) : list Segment :=
  fold_left (fun acc s => insert_by_seq s acc) l [].

Definition getAllSTAs (db : DB) : list Segment :=
  sort_by_seq (getAll (state_chain db)).

Definition set_meta_read_only (db : DB) (r : ReadOnly) : DB :=
  {| meta_chain_head := meta_chain_head db;
     meta_chain_len := meta_chain_len db;
     meta_read_only := Some r;
     state_chain := state_chain db;
     sync_log := sync_log db;
     messages := messages db;
     caps := caps db |}.

Definition set_caps (db : DB) (c : gmap string CapsRow) : DB :=
  {| meta_chain_head := meta_chain_head db;
     meta_chain_len := meta_chain_len db;
     meta_read_only := meta_read_only db;
     state_chain := state_chain db;
     sync_log := sync_log db;
     messages := messages db;
     caps := c |}.

(* ====================================================================== *)
(** * Dates: the time-value arithmetic of ECMAScript's [Date]              *)
(* ====================================================================== *)

(** The abstract operations of the language specification (ECMA-262,
    "Time Values and Time Range") that the [Date] setters used by caps.js
    are defined with. Times are in range, so [TimeClip] is the identity. *)
Module EcmaDate.

Definition msPerDay : Z := 86400000.
Definition Day (t : Z) : Z := t / msPerDay.
Definition TimeWithinDay (t : Z) : Z := t mod msPerDay.

Definition DayFromYear (y : Z) : Z :=
  365 * (y - 1970) + (y - 1969) / 4 - (y - 1901) / 100 + (y - 1601) / 400.

Definition TimeFromYear (y : Z) : Z := msPerDay * DayFromYear y.

Definition DaysInYear (y : Z) : Z :=
  if negb (y mod 4 =? 0) then 365
  else if negb (y mod 100 =? 0) then 366
  else if negb (y mod 400 =? 0) then 365
  else 366.

(** The largest [y] with [TimeFromYear y <= t]: the estimate from the mean
    year length is off by at most one. *)
Definition YearFromTime (t : Z) : Z :=
  let d := Day t in
  let y := 1970 + (400 * d) / 146097 in
  if DayFromYear (y + 1) <=? d then y + 1
  else if d <? DayFromYear y then y - 1
  else y.

Definition InLeapYear (t : Z) : Z :=
  if DaysInYear (YearFromTime t) =? 366 then 1 else 0.

Definition DayWithinYear (t : Z) : Z := Day t - DayFromYear (YearFromTime t).

Definition MonthFromTime (t : Z) : Z :=
  let d := DayWithinYear t in
  let l := InLeapYear t in
  if d <? 31 then 0
  else if d <? 59 + l then 1
  else if d <? 90 + l then 2
  else if d <? 120 + l then 3
  else if d <? 151 + l then 4
  else if d <? 181 + l then 5
  else if d <? 212 + l then 6
  else if d <? 243 + l then 7
  else if d <? 273 + l then 8
  else if d <? 304 + l then 9
  else if d <? 334 + l then 10
  else 11.

(** The day within a year of [leap] days more than 365 on which month [m]
    (0 to 11) starts. *)
Definition monthStart (m leap : Z) : Z :=
  if m =? 0 then 0
  else if m =? 1 then 31
  else if m =? 2 then 59 + leap
  else if m =? 3 then 90 + leap
  else if m =? 4 then 120 + leap
  else if m =? 5 then 151 + leap
  else if m =? 6 then 181 + leap
  else if m =? 7 then 212 + leap
  else if m =? 8 then 243 + leap
  else if m =? 9 then 273 + leap
  else if m =? 10 then 304 + leap
  else 334 + leap.

(** [MakeDay]: the day number of the [date]-th day of month [month] of
    [year], months beyond 11 carrying into the year. *)
Definition MakeDay (year month date : Z) : Z :=
  let ym := year + month / 12 in
  let mn := month mod 12 in
  DayFromYear ym + monthStart mn (DaysInYear ym - 365) + date - 1.

Definition MakeTime (hour min sec ms : Z) : Z :=
  hour * 3600000 + min * 60000 + sec * 1000 + ms.

Definition MakeDate (day time : Z) : Z := day * msPerDay + time.

Definition getUTCMonth (t : Z) : Z := MonthFromTime t.
Definition getUTCFullYear (t : Z) : Z := YearFromTime t.

Definition setUTCHours (t hour min sec ms : Z) : Z :=
  MakeDate (Day t) (MakeTime hour min sec ms).

Definition setUTCMonth (t month date : Z) : Z :=
  MakeDate (MakeDay (YearFromTime t) month date) (TimeWithinDay t).

Definition setUTCFullYear (t year month date : Z) : Z :=
  MakeDate (MakeDay year month date) (TimeWithinDay t).

End EcmaDate.

(* ====================================================================== *)
(** * The caps tracker (caps.js)                                           *)
(* ====================================================================== *)

(** The internal record of one identity *)
Record CapsRecord := mkCaps
  { daily : Z;
    monthly : Z;
    yearly : Z;
    total : Z;
    dailyReset : Z;
    monthlyReset : Z;
    yearlyReset : Z }.

(** What [formatCaps] hands out *)
Record CapsView := mkCapsView
  { cv_daily : Z;
    cv_monthly : Z;
    cv_yearly : Z;
    cv_total : Z;
    cv_available_daily : Z;
    cv_available_monthly : Z;
    cv_available_yearly : Z;
    cv_limits_daily : Z;
    cv_limits_monthly : Z;
    cv_limits_yearly : Z }.

Definition formatCaps (c : CapsRecord) : CapsView :=
  {| cv_daily := daily c;
     cv_monthly := monthly c;
     cv_yearly := yearly c;
     cv_total := total c;
     cv_available_daily := DAILY_CAP - daily c;
     cv_available_monthly := MONTHLY_CAP - monthly c;
     cv_available_yearly := YEARLY_CAP - yearly c;
     cv_limits_daily := DAILY_CAP;
     cv_limits_monthly := MONTHLY_CAP;
     cv_limits_yearly := YEARLY_CAP |}.

Definition getNextDailyReset (now : Z) : Z :=
  EcmaDate.setUTCHours now 24 0 0 0.

Definition getNextMonthlyReset (now : Z) : Z :=
  let date := EcmaDate.setUTCMonth now (EcmaDate.getUTCMonth now + 1) 1 in
  EcmaDate.setUTCHours date 0 0 0 0.

Definition getNextYearlyReset (now : Z) : Z :=
  let date :=
    EcmaDate.setUTCFullYear now (EcmaDate.getUTCFullYear now + 1) 0 1 in
  EcmaDate.setUTCHours date 0 0 0 0.

Definition period_key (period hid : string) : string :=
  period +:+ ":" +:+ hid.

Definition row_count_of (r : option CapsRow) : Z :=
  match r with Some x => row_count x | None => 0 end.

Definition row_resetAt_of (r : option CapsRow) : Z :=
  match r with Some x => row_resetAt x | None => 0 end.

(** [loadCaps]: [rec?.count || 0] and [rec?.resetAt || 0] per period *)
Definition loadCaps (db : DB) (hid : string) : CapsRecord :=
  let dailyRec := caps db !! period_key "daily" hid in
  let monthlyRec := caps db !! period_key "monthly" hid in
  let yearlyRec := caps db !! period_key "yearly" hid in
  let totalRec := caps db !! period_key "total" hid in
  {| daily := row_count_of dailyRec;
     monthly := row_count_of monthlyRec;
     yearly := row_count_of yearlyRec;
     total := row_count_of totalRec;
     dailyReset := row_resetAt_of dailyRec;
     monthlyReset := row_resetAt_of monthlyRec;
     yearlyReset := row_resetAt_of yearlyRec |}.

(** [saveCaps]: four [put]s in one transaction *)
Definition saveCaps (db : DB) (hid : string) (c : CapsRecord) : DB :=
  set_caps db
    (<[period_key "total" hid := mkCapsRow "total" hid (total c) 0]>
     (<[period_key "yearly" hid :=
          mkCapsRow "yearly" hid (yearly c) (yearlyReset c)]>
      (<[period_key "monthly" hid :=
           mkCapsRow "monthly" hid (monthly c) (monthlyReset c)]>
       (<[period_key "daily" hid :=
            mkCapsRow "daily" hid (daily c) (dailyReset c)]> (caps db))))).

Definition needsReset (c : CapsRecord) (now : Z) : bool :=
  (dailyReset c <=? now) || (monthlyReset c <=? now) || (yearlyReset c <=? now).

(** [applyResets]: the record after the three tests, and whether any fired *)
Definition applyResets (c : CapsRecord) (now : Z) : CapsRecord * bool :=
  let d := dailyReset c <=? now in
  let m := monthlyReset c <=? now in
  let y := yearlyReset c <=? now in
  ({| daily := if d then 0 else daily c;
      monthly := if m then 0 else monthly c;
      yearly := if y then 0 else yearly c;
      total := total c;
      dailyReset := if d then getNextDailyReset now else dailyReset c;
      monthlyReset := if m then getNextMonthlyReset now else monthlyReset c;
      yearlyReset := if y then getNextYearlyReset now else yearlyReset c |},
   d || m || y).

(** The tracker is its cache (hid to record) next to the database. *)
Definition getCurrentCaps (now : Z) (db : DB) (cache : gmap string CapsRecord)
    (hid : string) : CapsView * DB * gmap string CapsRecord :=
  let reload :=
    let loaded := loadCaps db hid in
    let '(c, reset) := applyResets loaded now in
    let db' := if reset then saveCaps db hid c else db in
    (formatCaps c, db', <[hid := c]> cache) in
  match cache !! hid with
  | Some cached =>
      if negb (needsReset cached now) then (formatCaps cached, db, cache)
      else reload
  | None => reload
  end.

Record IncrementResult := mkIncrement
  { inc_ok : bool;
    inc_reason : option string;
    inc_caps : CapsView }.

(** The four [+= amount] of [incrementCaps] *)
Definition incremented (record : CapsRecord) (amount : Z) : CapsRecord :=
  {| daily := daily record + amount;
     monthly := monthly record + amount;
     yearly := yearly record + amount;
     total := total record + amount;
     dailyReset := dailyReset record;
     monthlyReset := monthlyReset record;
     yearlyReset := yearlyReset record |}.

Definition incrementCaps (now : Z) (db : DB) (cache : gmap string CapsRecord)
    (hid : string) (amount : Z)
  : IncrementResult * DB * gmap string CapsRecord :=
  let '(view, db1, cache1) := getCurrentCaps now db cache hid in
  if DAILY_CAP <? cv_daily view + amount
  then (mkIncrement false (Some "daily_cap_exceeded"%string) view, db1, cache1)
  else if MONTHLY_CAP <? cv_monthly view + amount
  then (mkIncrement false (Some "monthly_cap_exceeded"%string) view,
        db1, cache1)
  else if YEARLY_CAP <? cv_yearly view + amount
  then (mkIncrement false (Some "yearly_cap_exceeded"%string) view, db1, cache1)
  else
    let record :=
      match cache1 !! hid with
      | Some r => r
      | None => loadCaps db1 hid
      end in
    let record' := incremented record amount in
    (mkIncrement true None (formatCaps record'),
     saveCaps db1 hid record', <[hid := record']> cache1).

Definition getUnlockedBalance (now : Z) (db : DB)
    (cache : gmap string CapsRecord) (hid : string)
  : Z * DB * gmap string CapsRecord :=
  let '(view, db1, cache1) := getCurrentCaps now db cache hid in
  (INITIAL_UNLOCKED_SEGMENTS + cv_total view, db1, cache1).

(* ====================================================================== *)
(** * Validation (validation.js)                                           *)
(* ====================================================================== *)

Inductive ValidationResult :=
| Pass
| Fail (rule : Z) (reason message : string).

Definition v_ok (r : ValidationResult) : bool :=
  match r with Pass => true | Fail _ _ _ => false end.

(** [s.split(':')[0]] *)
Fixpoint before_colon (s : string) : string :=
  match s with
  | EmptyString => EmptyString
  | String c r =>
      if Nat.eqb (nat_of_ascii c) 58 then EmptyString
      else String c (before_colon r)
  end.

(** The value of the longest prefix of decimal digits; [None] without one *)
Fixpoint digits_value (s : string) (acc : option Z) : option Z :=
  match s with
  | String c r =>
      let n := nat_of_ascii c in
      if Nat.leb 48 n && Nat.leb n 57
      then digits_value r
             (Some (10 * match acc with Some a => a | None => 0 end
                    + Z.of_nat (n - 48)))
      else acc
  | EmptyString => acc
  end.

(** [parseInt(s, 10)]: the Number value of the digits read; [None] is
    NaN *)
Definition parseInt10 (s : string) : option Z :=
  option_map to_double
    match skip_spaces s with
    | String c r =>
        if Nat.eqb (nat_of_ascii c) 45
        then option_map Z.opp (digits_value r None)
        else if Nat.eqb (nat_of_ascii c) 43 then digits_value r None
        else digits_value (String c r) None
    | EmptyString => None
    end.

(** A reference is used when it is a non-empty string. *)
Definition ref_truthy (o : option string) : option string :=
  match o with
  | Some s => if String.eqb s EmptyString then None else Some s
  | None => None
  end.

(** Rule 1 *)
Definition validateCounterRelationship (db : DB) (segment : Segment)
  : ValidationResult :=
  match ref_truthy (s_unlocker_ref segment),
        ref_truthy (s_unlocked_ref segment) with
  | Some unlocker, Some unlocked =>
      match parseInt10 (before_colon unlocker),
            parseInt10 (before_colon unlocked) with
      | Some unlockerSeq, Some unlockedSeq =>
          if unlockerSeq <=? unlockedSeq
          then Fail 1 "counter_order"
                 ("Unlocker counter (" +:+ number_to_string unlockerSeq
                  +:+ ") must be > unlocked counter ("
                  +:+ number_to_string unlockedSeq +:+ ")")
          else
            match getSTABySeq db unlockerSeq, getSTABySeq db unlockedSeq with
            | Some _, Some _ => Pass
            | _, _ =>
                Fail 1 "missing_refs" "Referenced segments do not exist"
            end
      | _, _ => Fail 1 "invalid_refs" "Invalid unlocker/unlocked references"
      end
  | _, _ => Pass
  end.

(** Rule 2; [tracker] is [None] when no caps tracker was provided *)
Definition validateCaps (now : Z) (db : DB)
    (tracker : option (gmap string CapsRecord)) (segment : Segment)
  : ValidationResult * DB * option (gmap string CapsRecord) :=
  match tracker with
  | None => (Pass, db, None)
  | Some cache =>
      let hid := s_current_owner segment in
      let '(view, db', cache') := getCurrentCaps now db cache hid in
      let r :=
        if DAILY_CAP <=? cv_daily view
        then Fail 2 "daily_cap_exceeded"
               ("Daily cap exceeded: " +:+ string_of_Z (cv_daily view)
                +:+ "/" +:+ string_of_Z DAILY_CAP)
        else if MONTHLY_CAP <=? cv_monthly view
        then Fail 2 "monthly_cap_exceeded"
               ("Monthly cap exceeded: " +:+ string_of_Z (cv_monthly view)
                +:+ "/" +:+ string_of_Z MONTHLY_CAP)
        else if YEARLY_CAP <=? cv_yearly view
        then Fail 2 "yearly_cap_exceeded"
               ("Yearly cap exceeded: " +:+ string_of_Z (cv_yearly view)
                +:+ "/" +:+ string_of_Z YEARLY_CAP)
        else Pass in
      (r, db', Some cache')
  end.

(** Rule 3 *)
Definition validateRateLimit (db : DB) (segment : Segment)
  : ValidationResult :=
  let currentSeq := getChainLen db in
  if 0 <? currentSeq then
    match getSTABySeq db currentSeq with
    | Some prevSeg =>
        if String.eqb (author_hid (s_author prevSeg))
                      (author_hid (s_author segment))
        then
          let timeDiff := s_timestamp segment - s_timestamp prevSeg in
          if timeDiff <? MIN_BLOCK_INTERVAL_MS
          then Fail 3 "rate_limit"
                 ("Rate limit: " +:+ string_of_Z timeDiff
                  +:+ "ms since last block (min: "
                  +:+ string_of_Z MIN_BLOCK_INTERVAL_MS +:+ "ms)")
          else Pass
        else Pass
    | None => Pass
    end
  else Pass.

(** [livenessProof.timestamp || 0] as the number that the subtraction
    from the clock converts it to; [None] is NaN *)
Definition proof_timestamp (proof : JVal) : option Z :=
  to_number (jor (jget proof "timestamp") (JNum 0)).

(** Rule 4; [now] is [Date.now()] *)
Definition validateLiveness (now : Z) (segment : Segment) : ValidationResult :=
  let livenessProof :=
    jor (jget (s_payload segment) "livenessProof")
        (author_livenessProof (s_author segment)) in
  if negb (truthy livenessProof) then Pass
  else if negb (typeof_object livenessProof)
  then Fail 4 "invalid_liveness" "Invalid liveness proof format"
  else
    match proof_timestamp livenessProof with
    | Some ts =>
        let proofAge := now - ts in
        if UTC_TOLERANCE_MS <? proofAge
        then Fail 4 "stale_liveness"
               ("Liveness proof too old: " +:+ string_of_Z proofAge
                +:+ "ms (max: " +:+ string_of_Z UTC_TOLERANCE_MS +:+ "ms)")
        else Pass
    | None => Pass
    end.

(** Rule 5 *)
Definition validateOwnerTransition (segment : Segment) : ValidationResult :=
  if String.eqb (s_type segment) TVM_TRANSFER then
    match ref_truthy (s_previous_owner segment) with
    | None =>
        Fail 5 "missing_previous_owner" "Transfer requires previous_owner"
    | Some prev =>
        if String.eqb prev (s_current_owner segment)
        then Fail 5 "same_owner" "Cannot transfer to self"
        else Pass
    end
  else Pass.

(** Rule 6 *)
Definition validateHistoryHash (db : DB) (segment : Segment)
  : ValidationResult :=
  let expectedHead := getChainHead db in
  if negb (String.eqb (s_prev_hash segment) expectedHead)
  then Fail 6 "bad_prev_hash"
         ("prev_hash mismatch: expected " +:+ expectedHead
          +:+ ", got " +:+ s_prev_hash segment)
  else Pass.

(** Rule 7 *)
Definition validateSequence (db : DB) (segment : Segment) : ValidationResult :=
  let currentLen := getChainLen db in
  let expectedSeq := currentLen + 1 in
  if negb (s_seq segment =? expectedSeq)
  then Fail 7 "bad_seq"
         ("Sequence mismatch: expected " +:+ string_of_Z expectedSeq
          +:+ ", got " +:+ string_of_Z (s_seq segment))
  else Pass.

(** Rule 8; a thrown error gives [signature_error] (its message is the
    runtime's) *)
Definition validateSignature (e : Env) (segment : Segment) : ValidationResult :=
  let signable := getSignableContent segment in
  match s_signature segment with
  | None => Fail 8 "signature_error" "Signature verification error"
  | Some sig =>
      match env_verify e (author_pubJwk (s_author segment)) signable sig with
      | Some true => Pass
      | Some false => Fail 8 "bad_signature" "Signature verification failed"
      | None => Fail 8 "signature_error" "Signature verification error"
      end
  end.

(** Rule 9 *)
Definition validateNonce (db : DB) (segment : Segment) : ValidationResult :=
  if nonceExists db (s_nonce segment)
  then Fail 9 "replay_nonce" "Nonce already used (replay attack)"
  else Pass.

(** [validateTimestamp] *)
Definition validateTimestamp (now timestamp : Z) : ValidationResult :=
  let diff := Z.abs (now - timestamp) in
  if UTC_TOLERANCE_MS <? diff
  then Fail 0 "timestamp_drift"
         ("Timestamp drift too large: " +:+ string_of_Z diff
          +:+ "ms (max: " +:+ string_of_Z UTC_TOLERANCE_MS +:+ "ms)")
  else Pass.

Record ValidationOptions := mkOptions
  { capsTracker : option (gmap string CapsRecord);
    skipLivenessCheck : bool }.

(** [validateSegment]: the structure check and the rules in order, the
    first failure returning. Rule 2 may reset and cache caps records, so
    the database and the tracker's cache are threaded through. *)
Definition validateSegment (e : Env) (db : DB) (segment : Segment)
    (options : ValidationOptions)
  : ValidationResult * DB * option (gmap string CapsRecord) :=
  match validateSegmentStructure segment with
  | Invalid reason =>
      (Fail 0 "invalid_structure" reason, db, capsTracker options)
  | Valid =>
    match validateCounterRelationship db segment with
    | Fail r c m => (Fail r c m, db, capsTracker options)
    | Pass =>
      let '(rule2, db2, tracker2) :=
        validateCaps (env_now_caps e) db (capsTracker options) segment in
      let rest :=
        match validateRateLimit db2 segment with
        | Fail r c m => Fail r c m
        | Pass =>
          match (if skipLivenessCheck options then Pass
                 else validateLiveness (env_now_liveness e) segment) with
          | Fail r c m => Fail r c m
          | Pass =>
            match validateOwnerTransition segment with
            | Fail r c m => Fail r c m
            | Pass =>
              match validateHistoryHash db2 segment with
              | Fail r c m => Fail r c m
              | Pass =>
                match validateSequence db2 segment with
                | Fail r c m => Fail r c m
                | Pass =>
                  match validateSignature e segment with
                  | Fail r c m => Fail r c m
                  | Pass => validateNonce db2 segment
                  end
                end
              end
            end
          end
        end in
      match rule2 with
      | Fail r c m => (Fail r c m, db2, tracker2)
      | Pass => (rest, db2, tracker2)
      end
    end
  end.

(* ====================================================================== *)
(** * The state manager (state.js)                                         *)
(* ====================================================================== *)

(** The identity of an object that is a key of the [Map] of messages: the
    object of the caller of a commit, or the copy of the segment at a
    position of [getAll], which the database makes anew at every read. *)
Inductive ObjectRef :=
| CallerObject (n : nat)
| StoredObject (i : nat).

Definition ref_eqb (a b : ObjectRef) : bool :=
  match a, b with
  | CallerObject n, CallerObject m => Nat.eqb n m
  | StoredObject i, StoredObject j => Nat.eqb i j
  | _, _ => false
  end.

(** A key of the [Map] of messages: a [Map] finds a primitive by its
    value, and an object or an array by its identity, whatever it holds. *)
Inductive ChatKey :=
| KeyValue (v : JVal)
| KeyObject (ref : ObjectRef) (v : JVal).

(** The key that the value [chatId] is, [ref] being its identity when it
    is an object or an array *)
Definition chat_key (ref : ObjectRef) (chatId : JVal) : ChatKey :=
  match chatId with
  | JArr _ | JObj _ => KeyObject ref chatId
  | _ => KeyValue chatId
  end.

Definition key_eqb (a b : ChatKey) : bool :=
  match a, b with
  | KeyValue x, KeyValue y => jval_eqb x y
  | KeyObject r _, KeyObject r' _ => ref_eqb r r'
  | _, _ => false
  end.

(** The in-memory side of [StateManager]: whether [db] is set, the identity,
    and the projections. [sm_messages] is the [Map] from chat id to message
    list, in insertion order. Event listeners are the caller's and are not
    modelled. *)
Record StateManager := mkState
  { sm_db : bool;
    sm_identity : option Identity;
    sm_messages : list (ChatKey * list Message);
    sm_richScore : Z;
    sm_businessScore : Z }.

(** The state manager, the database it is connected to, and the caps
    tracker it was given (its cache), if any. *)
Record World := mkWorld
  { w_state : StateManager;
    w_db : DB;
    w_tracker : option (gmap string CapsRecord) }.

Record CommitResult := mkResult
  { ok : bool;
    r_seq : option Z;
    r_head : option string;
    r_reason : option string;
    r_message : option string }.

Definition failure (reason : string) (message : option string) : CommitResult :=
  mkResult false None None (Some reason) message.

Definition createMessageProjection (sta : Segment) : Message :=
  let payload := jor (s_payload sta) (JObj []) in
  let direction := getMessageDirection (s_type sta) in
  let tag := getMessageTag (s_type sta) in
  {| m_id := string_of_Z (s_seq sta) +:+ ":" +:+ s_nonce sta;
     m_seq := s_seq sta;
     m_ts := s_timestamp sta;
     m_type := s_type sta;
     m_peer := jor (jor (jget payload "chatId")
                        (jget payload "selected_character")) JNull;
     m_dir := direction;
     m_tag := tag;
     m_text := jor (jget payload "text") (JStr EmptyString);
     m_hid := if String.eqb (author_hid (s_author sta)) EmptyString
              then s_current_owner sta
              else author_hid (s_author sta);
     m_decision := jor (jget payload "decision") JNull;
     m_outcome := jor (jget payload "outcome") JNull;
     m_scores := jor (jget payload "scores") JNull;
     m_bubbles := jor (jget payload "bubbles") JNull |}.

(** [this.messages.get(chatId).push(message)], creating the list first
    when the chat is new *)
Fixpoint push_message (chatId : ChatKey) (message : Message)
    (m : list (ChatKey * list Message)) : list (ChatKey * list Message) :=
  match m with
  | [] => [(chatId, [message])]
  | (k, l) :: r =>
      if key_eqb k chatId then (k, l ++ [message]) :: r
      else (k, l) :: push_message chatId message r
  end.

Definition set_projections (sm : StateManager)
    (msgs : list (ChatKey * list Message)) (rich business : Z) : StateManager :=
  {| sm_db := sm_db sm;
     sm_identity := sm_identity sm;
     sm_messages := msgs;
     sm_richScore := rich;
     sm_businessScore := business |}.

(** [addToMessagesProjection(message)]; [ref] is the identity of
    [message.peer] when that is an object or an array. *)
Definition addToMessagesProjection (ref : ObjectRef) (sm : StateManager)
    (message : Message) : StateManager :=
  let chatId := jor (m_peer message) (JStr "default") in
  set_projections sm
    (push_message (chat_key ref chatId) message (sm_messages sm))
    (sm_richScore sm) (sm_businessScore sm).

Definition updateScores (sm : StateManager) (sta : Segment) : StateManager :=
  let scores := jget (s_payload sta) "scores" in
  let rich1 :=
    if truthy scores then
      match jget scores "rich" with
      | JNum n => n
      | _ => sm_richScore sm
      end
    else sm_richScore sm in
  let business1 :=
    if truthy scores then
      match jget scores "business" with
      | JNum n => n
      | _ => sm_businessScore sm
      end
    else sm_businessScore sm in
  let accept :=
    String.eqb (s_type sta) BIZ_DECISION
    && jval_eqb (jget (s_payload sta) "decision") (JStr "ACCEPT") in
  let rich2 := if accept then Z.min 100 (rich1 + 2) else rich1 in
  let success :=
    String.eqb (s_type sta) BIZ_OUTCOME
    && jval_eqb (jget (s_payload sta) "outcome") (JStr "SUCCESS") in
  let rich3 := if success then Z.min 100 (rich2 + 5) else rich2 in
  let business3 := if success then Z.min 100 (business1 + 3) else business1 in
  set_projections sm (sm_messages sm) rich3 business3.

(** The projection step shared by the commit path and the rebuild; [ref]
    is the identity of the chat id object of [sta], if it has one. *)
Definition project (ref : ObjectRef) (sm : StateManager) (sta : Segment)
  : StateManager :=
  let sm1 :=
    if isMessageType (s_type sta)
    then addToMessagesProjection ref sm (createMessageProjection sta)
    else sm in
  updateScores sm1 sta.

(** [store.add(sta)] on [state_chain]: refused when the key [seq] is taken
    or when the unique index [by_nonce] already holds the nonce *)
Definition add_state_chain (db : DB) (sta : Segment) : option DB :=
  match state_chain db !! s_seq sta with
  | Some _ => None
  | None =>
      if existsb (fun kv => String.eqb (s_nonce (snd kv)) (s_nonce sta))
                 (map_to_list (state_chain db))
      then None
      else Some {| meta_chain_head := meta_chain_head db;
                   meta_chain_len := meta_chain_len db;
                   meta_read_only := meta_read_only db;
                   state_chain := <[s_seq sta := sta]> (state_chain db);
                   sync_log := sync_log db;
                   messages := messages db;
                   caps := caps db |}
  end.

(** [store.add({ nonce, ts })] on [sync_log] *)
Definition add_sync_log (db : DB) (nonce : string) (ts : Z) : option DB :=
  match sync_log db !! nonce with
  | Some _ => None
  | None =>
      Some {| meta_chain_head := meta_chain_head db;
              meta_chain_len := meta_chain_len db;
              meta_read_only := meta_read_only db;
              state_chain := state_chain db;
              sync_log := <[nonce := ts]> (sync_log db);
              messages := messages db;
              caps := caps db |}
  end.

(** [store.add(message)] on [messages] *)
Definition add_message (db : DB) (message : Message) : option DB :=
  match messages db !! m_id message with
  | Some _ => None
  | None =>
      Some {| meta_chain_head := meta_chain_head db;
              meta_chain_len := meta_chain_len db;
              meta_read_only := meta_read_only db;
              state_chain := state_chain db;
              sync_log := sync_log db;
              messages := <[m_id message := message]> (messages db);
              caps := caps db |}
  end.

(** The two [put]s on the meta store *)
Definition put_head (db : DB) (head : string) (len : Z) : DB :=
  {| meta_chain_head := Some head;
     meta_chain_len := Some len;
     meta_read_only := meta_read_only db;
     state_chain := state_chain db;
     sync_log := sync_log db;
     messages := messages db;
     caps := caps db |}.

Definition signature_text (sta : Segment) : string :=
  match s_signature sta with
  | Some sig => sig
  | None => "undefined"
  end.

(** The [add] requests of the transaction of [appendSTA], in request
    order; [None] when one of them fails, which aborts the transaction. *)
Definition append_adds (db : DB) (sta : Segment) : option DB :=
  match add_state_chain db sta with
  | None => None
  | Some db1 =>
      match add_sync_log db1 (s_nonce sta) (s_timestamp sta) with
      | None => None
      | Some db2 =>
          if isMessageType (s_type sta)
          then add_message db2 (createMessageProjection sta)
          else Some db2
      end
  end.

(** [appendSTA]. The callback queues the [add] requests and updates the
    in-memory projections, then awaits the digest of the new head, and only
    then queues the two [put]s on the meta store.
    - When an [add] fails, the transaction is aborted and the database
      keeps its state.
    - When the transaction has committed by the time the digest resolves
      ([env_tx_open] is false), [put] throws: the rows of the [add]
      requests are stored, the head and the length are not.
    - Otherwise all the writes are committed together.
    A thrown error is caught and returned as [append_error] (with the
    runtime's text of the error as message, which is left out); the
    in-memory projections keep the update in every case. *)
Definition appendSTA (e : Env) (sm : StateManager) (db : DB) (sta : Segment)
  : CommitResult * StateManager * DB :=
  let sm' := project (CallerObject (env_chat_ref e)) sm sta in
  let signable := getSignableContent sta in
  let newHead := sha256Hex (signable +:+ "|" +:+ signature_text sta) in
  match append_adds db sta with
  | None => (failure "append_error" None, sm', db)
  | Some db3 =>
      if env_tx_open e
      then (mkResult true (Some (s_seq sta)) (Some newHead) None None, sm',
            put_head db3 newHead (s_seq sta))
      else (failure "append_error" None, sm', db3)
  end.

(** [commitAction(type, payload, options)] with
    [options.previousOwner = previousOwner] *)
Definition commitAction (e : Env) (w : World) (type : string) (payload : JVal)
    (previousOwner : option string) : CommitResult * World :=
  if negb (sm_db (w_state w)) then (failure "not_initialized" None, w)
  else
    match sm_identity (w_state w) with
    | None => (failure "no_identity" None, w)
    | Some identity =>
        let prevHash := getChainHead (w_db w) in
        let seq := getChainLen (w_db w) + 1 in
        let segment :=
          createSegment e (id_hid identity) (id_pubJwk identity) prevHash seq
            type payload (ref_truthy previousOwner) None None in
        let signedSegment := signSegment e segment (id_privateKey identity) in
        let '(validation, db1, tracker1) :=
          validateSegment e (w_db w) signedSegment
            {| capsTracker := w_tracker w; skipLivenessCheck := true |} in
        match validation with
        | Fail _ reason message =>
            (failure reason (Some message), mkWorld (w_state w) db1 tracker1)
        | Pass =>
            let '(result, sm', db2) :=
              appendSTA e (w_state w) db1 signedSegment in
            (result, mkWorld sm' db2 tracker1)
        end
    end.

(** The items of a list, each with its position *)
Definition indexed {A} (l : list A) : list (nat * A) :=
  combine (seq 0 (length l)) l.

(** [rebuildProjections]: the segments that [getAll] hands out are copies
    made by this read, so the chat id object of each is its own. *)
Definition rebuildProjections (sm : StateManager) (db : DB) : StateManager :=
  let cleared := set_projections sm [] 0 0 in
  if getChainLen db =? 0 then cleared
  else
    let allSTAs := sort_by_seq (getAll (state_chain db)) in
    fold_left (fun acc ista => project (StoredObject (fst ista)) acc (snd ista))
      (indexed allSTAs) cleared.

(** [this.messages.get(chatId)] *)
Fixpoint messages_get (chatId : ChatKey) (m : list (ChatKey * list Message))
  : option (list Message) :=
  match m with
  | [] => None
  | (k, l) :: r => if key_eqb k chatId then Some l else messages_get chatId r
  end.

(** [getMessages(chatId)] *)
Definition getMessages (sm : StateManager) (chatId : ChatKey) : list Message :=
  match messages_get chatId (sm_messages sm) with
  | Some l => l
  | None => []
  end.


(** [getTheme()] *)
Definition getTheme (sm : StateManager) : string :=
  if sm_richScore sm <? 25 then "coal"
  else if sm_richScore sm <? 50 then "ember"
  else if sm_richScore sm <? 80 then "bronze"
  else "gold".

(** [new StateManager()] *)
Definition newStateManager : StateManager :=
  {| sm_db := false; sm_identity := None;
     sm_messages := []; sm_richScore := 0; sm_businessScore := 0 |}.

(** [init(options)]: open the database, take the identity and the caps
    tracker of the options, rebuild the projections *)
Definition init (sm : StateManager) (db : DB) (identity : option Identity)
  : StateManager :=
  let sm1 :=
    {| sm_db := true;
       sm_identity := match identity with
                      | Some i => Some i
                      | None => sm_identity sm
                      end;
       sm_messages := sm_messages sm;
       sm_richScore := sm_richScore sm;
       sm_businessScore := sm_businessScore sm |} in
  rebuildProjections sm1 db.

(* ====================================================================== *)
(** * Integrity (integrity.js)                                             *)
(* ====================================================================== *)

Record ChainState := mkChainState
  { chainLen : Z;
    chainHead : string }.

Record Eligibility := mkEligibility
  { canRestore : bool;
    requiresSync : bool;
    reason : string }.

(** [verifyBackupRestoreEligibility(backupData, currentState)];
    [currentState] is [None] when it is null *)
Definition verifyBackupRestoreEligibility (backupData : ChainState)
    (currentState : option ChainState) : Eligibility :=
  match currentState with
  | None => mkEligibility true false "Fresh install - no sync required"
  | Some current =>
      if chainLen current =? 0
      then mkEligibility true false "Fresh install - no sync required"
      else if chainLen backupData <? chainLen current
      then mkEligibility false true
             "Backup is older than current state. Sync required to merge."
      else if negb (String.eqb (chainHead backupData) (chainHead current))
      then
        if chainLen current <? chainLen backupData
        then mkEligibility false true
               "Backup has diverged. Online sync required to resolve fork."
        else mkEligibility false true "Chain heads do not match. Sync required."
      else mkEligibility true false "Backup matches current state"
  end.

Definition enterReadOnlyMode (now : Z) (db : DB) : DB :=
  set_meta_read_only db
    (mkReadOnly true (Some "corruption_detected"%string) (Some now) None).

Definition isReadOnlyMode (db : DB) : bool :=
  match meta_read_only db with
  | Some r => ro_enabled r
  | None => false
  end.

Definition exitReadOnlyMode (now : Z) (db : DB) : DB :=
  set_meta_read_only db (mkReadOnly false None None (Some now)).

(* ====================================================================== *)
(** * The application context (index.js)                                   *)
(* ====================================================================== *)

(** The context that [initializeApp] returns, as far as committing goes:
    the flag [readOnly] read from the latch once, when the context is
    built, and the world the context's methods act on. *)
Record Context := mkContext
  { readOnly : bool;
    ctx_world : World }.

(** The end of [initializeApp]: [const readOnly = await isReadOnlyMode(db)]
    and the building of the context *)
Definition makeContext (w : World) : Context :=
  {| readOnly := isReadOnlyMode (w_db w); ctx_world := w |}.

(** [context.commitAction(type, payload)] *)
Definition context_commitAction (e : Env) (ctx : Context) (type : string)
    (payload : JVal) : CommitResult * Context :=
  if readOnly ctx then (failure "read_only_mode" None, ctx)
  else
    let '(result, w') := commitAction e (ctx_world ctx) type payload None in
    (result, mkContext (readOnly ctx) w').

(* ====================================================================== *)
(** * Capsules (tvm.js)                                                    *)
(* ====================================================================== *)






(* ====================================================================== *)
(** * Concrete surroundings for running the engine                         *)
(* ====================================================================== *)

Module Fixture.

(** A deterministic stand-in for the ECDSA primitives: the signature names
    the key and the signed text, and verification compares. *)
Definition sign (key msg : string) : string :=
  "sig(" +:+ key +:+ "," +:+ msg +:+ ")".

Definition verify (pubJwk : JVal) (msg sig : string) : option bool :=
  match jget pubJwk "x" with
  | JStr key => Some (String.eqb sig (sign key msg))
  | _ => None
  end.

Definition alice : Identity :=
  {| id_hid := "HID-A1B2C3D4";
     id_pubJwk := JObj [("kty"%string, JStr "EC");
                        ("crv"%string, JStr "P-256");
                        ("x"%string, JStr "k-alice")];
     id_privateKey := "k-alice" |}.

(** The surroundings of a call at time [now] drawing the nonce [nonce],
    whose transaction is still open when the digest has resolved *)
Definition env (now : Z) (nonce : string) : Env :=
  {| env_now := now;
     env_now_caps := now;
     env_now_liveness := now;
     env_randomHex := nonce;
     env_sign := sign;
     env_verify := verify;
     env_tx_open := true;
     env_chat_ref := 0 |}.

Definition nonce1 : string := "000102030405060708090a0b0c0d0e0f".
Definition nonce2 : string := "101112131415161718191a1b1c1d1e1f".

(** 2023-11-14T22:13:20Z *)
Definition t0 : Z := 1700000000000.

(** A state manager after [init] on an empty database with alice's
    identity, and a fresh caps tracker *)
Definition fresh : World :=
  {| w_state := init newStateManager emptyDB (Some alice);
     w_db := emptyDB;
     w_tracker := Some ∅ |}.

Definition hello : JVal :=
  JObj [("chatId"%string, JStr "hakim");
        ("text"%string, JStr "hello");
        ("role"%string, JStr "user")].

End Fixture.

(* ====================================================================== *)
(** * Statements of the specification, written from its words              *)
(* ====================================================================== *)

(** The five-case table of backup restore eligibility, in the order of
    the specification: the pair is (canRestore, requiresSync). *)
Definition eligibility_table (Lc : Z) (Hc : string) (Lb : Z) (Hb : string)
  : bool * bool :=
  if bool_decide (Lc = 0) then (true, false)
  else if bool_decide (Lb < Lc) then (false, true)
  else if bool_decide (Hb ≠ Hc ∧ Lb > Lc) then (false, true)
  else if bool_decide (Hb ≠ Hc) then (false, true)
  else (true, false).

(** The surroundings [e] with another reading of the clock for rule 4 *)
Definition with_liveness_clock (e : Env) (now : Z) : Env :=
  {| env_now := env_now e;
     env_now_caps := env_now_caps e;
     env_now_liveness := now;
     env_randomHex := env_randomHex e;
     env_sign := env_sign e;
     env_verify := env_verify e;
     env_tx_open := env_tx_open e;
     env_chat_ref := env_chat_ref e |}.

(** The surroundings [e] of a call, with the transaction of [appendSTA]
    still open after the digest ([open] is true) or committed by then *)
Definition with_tx (e : Env) (open : bool) : Env :=
  {| env_now := env_now e;
     env_now_caps := env_now_caps e;
     env_now_liveness := env_now_liveness e;
     env_randomHex := env_randomHex e;
     env_sign := env_sign e;
     env_verify := env_verify e;
     env_tx_open := open;
     env_chat_ref := env_chat_ref e |}.

(** The surroundings [e] of a call whose chat id object is [ref] *)
Definition with_chat_ref (e : Env) (ref : nat) : Env :=
  {| env_now := env_now e;
     env_now_caps := env_now_caps e;
     env_now_liveness := env_now_liveness e;
     env_randomHex := env_randomHex e;
     env_sign := env_sign e;
     env_verify := env_verify e;
     env_tx_open := env_tx_open e;
     env_chat_ref := ref |}.

Definition v_rule (r : ValidationResult) : option Z :=
  match r with Pass => None | Fail rule _ _ => Some rule end.

Definition v_reason (r : ValidationResult) : option string :=
  match r with Pass => None | Fail _ reason _ => Some reason end.

(** The liveness proof that rule 4 looks at *)
Definition attached_proof (segment : Segment) : JVal :=
  jor (jget (s_payload segment) "livenessProof")
      (author_livenessProof (s_author segment)).

(** ** Concrete runs used by the examples *)

Module Run.
Import Fixture.

(** The segment that the first commit of [hello] at [t0] builds and signs *)
Definition seg1 : Segment :=
  signSegment (env t0 nonce1)
    (createSegment (env t0 nonce1) (id_hid alice) (id_pubJwk alice)
       "GENESIS" 1 CHAT_USER hello None None None)
    (id_privateKey alice).

(** The world after that commit *)
Definition after_hello : World :=
  snd (commitAction (env t0 nonce1) fresh CHAT_USER hello None).

(** A second segment by alice, [dt] ms later *)
Definition seg2 (dt : Z) : Segment :=
  signSegment (env (t0 + dt) nonce2)
    (createSegment (env (t0 + dt) nonce2) (id_hid alice) (id_pubJwk alice)
       (getChainHead (w_db after_hello)) 2 CHAT_USER hello None None None)
    (id_privateKey alice).

(** A payload carrying a liveness proof stamped [ts] *)
Definition with_proof (ts : Z) : JVal :=
  JObj [("chatId"%string, JStr "hakim");
        ("text"%string, JStr "hello");
        ("livenessProof"%string,
         JObj [("type"%string, JStr "timestamp");
               ("timestamp"%string, JNum ts);
               ("nonce"%string, JStr nonce2)])].

(** A segment by alice at [t0] whose payload carries a proof stamped [ts] *)
Definition seg_proof (ts : Z) : Segment :=
  signSegment (env t0 nonce1)
    (createSegment (env t0 nonce1) (id_hid alice) (id_pubJwk alice)
       "GENESIS" 1 CHAT_USER (with_proof ts) None None None)
    (id_privateKey alice).

(** A payload whose liveness proof is not an object *)
Definition malformed_proof : JVal :=
  JObj [("chatId"%string, JStr "hakim");
        ("text"%string, JStr "hello");
        ("livenessProof"%string, JStr "trust me")].

(** The fresh world with the read-only latch set in the database *)
Definition latched : World :=
  {| w_state := w_state fresh;
     w_db := enterReadOnlyMode t0 emptyDB;
     w_tracker := w_tracker fresh |}.



End Run.

(** A result that is not a failure of rule 4 *)
Definition not_rule4 (r : ValidationResult) : Prop :=
  v_rule r <> Some 4
  /\ v_reason r <> Some "invalid_liveness"%string
  /\ v_reason r <> Some "stale_liveness"%string.


(** The signed segment that [commitAction] builds for [identity] on the
    chain state of [db] *)
Definition candidate (e : Env) (db : DB) (identity : Identity) (type : string)
    (payload : JVal) (previousOwner : option string) : Segment :=
  signSegment e
    (createSegment e (id_hid identity) (id_pubJwk identity)
       (getChainHead db) (getChainLen db + 1) type payload
       (ref_truthy previousOwner) None None)
    (id_privateKey identity).

(** The block hash of a signed segment, as the specification words it:
    SHA256(canonical(segment-without-signature) + "|" + signature) *)
Definition block_hash (sta : Segment) : string :=
  sha256Hex (canonicalize (signable_obj sta) +:+ "|" +:+ signature_text sta).

(** The rows that the [add] requests of a commit of [sta] put into [db]:
    the segment under its sequence number, the nonce with the timestamp,
    and the message projection when the type is message-bearing; the keys
    were free. *)
Definition rows_added (db db' : DB) (sta : Segment) : Prop :=
  state_chain db !! s_seq sta = None
  /\ state_chain db' = <[s_seq sta := sta]> (state_chain db)
  /\ sync_log db !! s_nonce sta = None
  /\ sync_log db' = <[s_nonce sta := s_timestamp sta]> (sync_log db)
  /\ messages db' =
       (if isMessageType (s_type sta)
        then <[m_id (createMessageProjection sta) :=
                 createMessageProjection sta]> (messages db)
        else messages db).

(** The meta records of [db'] are those of [db]. *)
Definition meta_kept (db db' : DB) : Prop :=
  meta_chain_head db' = meta_chain_head db
  /\ meta_chain_len db' = meta_chain_len db
  /\ meta_read_only db' = meta_read_only db.

(** Two databases that agree on the chain: segments, nonces, message
    projections and the meta records (they may differ on caps rows) *)
Definition same_chain (db db' : DB) : Prop :=
  meta_chain_head db' = meta_chain_head db
  /\ meta_chain_len db' = meta_chain_len db
  /\ meta_read_only db' = meta_read_only db
  /\ state_chain db' = state_chain db
  /\ sync_log db' = sync_log db
  /\ messages db' = messages db.


(** The world [w] with the value [ro] under the meta key [read_only] *)
Definition with_latch (w : World) (ro : ReadOnly) : World :=
  mkWorld (w_state w) (set_meta_read_only (w_db w) ro) (w_tracker w).

(** A series of calls to [context.commitAction] *)
Fixpoint context_commits (ctx : Context) (calls : list (Env * string * JVal))
  : list CommitResult * Context :=
  match calls with
  | [] => ([], ctx)
  | (e, type, payload) :: rest =>
      let '(r, ctx1) := context_commitAction e ctx type payload in
      let '(rs, ctx2) := context_commits ctx1 rest in
      (r :: rs, ctx2)
  end.

(** The counters of a caps record are within the configured caps. *)
Definition bounded (c : CapsRecord) : Prop :=
  daily c <= DAILY_CAP /\ monthly c <= MONTHLY_CAP /\ yearly c <= YEARLY_CAP.

(** The state of a caps tracker: every stored record is within the caps,
    and every cached record is the stored one. *)
Definition caps_inv (db : DB) (cache : gmap string CapsRecord) : Prop :=
  (forall hid, bounded (loadCaps db hid))
  /\ (forall hid rec, cache !! hid = Some rec -> loadCaps db hid = rec).


(** ** Calendar boundaries, as the specification names them *)

(** UTC midnight *)
Definition is_day_start (t : Z) : Prop := t mod EcmaDate.msPerDay = 0.

(** Midnight of the first day of a month *)
Definition is_month_start (t : Z) : Prop :=
  exists y m, 0 <= m < 12 /\ t = EcmaDate.msPerDay * EcmaDate.MakeDay y m 1.

(** Midnight of the first of January *)
Definition is_year_start (t : Z) : Prop :=
  exists y, t = EcmaDate.msPerDay * EcmaDate.MakeDay y 0 1.

(** [t] is the first boundary after [now]. *)
Definition next_boundary (B : Z -> Prop) (now t : Z) : Prop :=
  B t /\ now < t /\ forall t', B t' -> now < t' -> t <= t'.

(** The operations of a caps tracker *)
Inductive CapsOp :=
| OpRead (hid : string) (now : Z)
| OpIncrement (hid : string) (amount : Z) (now : Z)
| OpClearCache.

Definition caps_step (st : DB * gmap string CapsRecord) (op : CapsOp)
  : DB * gmap string CapsRecord :=
  match op with
  | OpRead hid now =>
      let '(_, db', cache') := getCurrentCaps now (fst st) (snd st) hid in
      (db', cache')
  | OpIncrement hid amount now =>
      let '(_, db', cache') := incrementCaps now (fst st) (snd st) hid amount in
      (db', cache')
  | OpClearCache => (fst st, ∅)
  end.

Definition caps_run (ops : list CapsOp) (st : DB * gmap string CapsRecord)
  : DB * gmap string CapsRecord :=
  fold_left caps_step ops st.


(** An increment of [amount] would take a counter of [c] over its cap. *)
Definition exceeds (c : CapsRecord) (amount : Z) : Prop :=
  DAILY_CAP < daily c + amount
  \/ MONTHLY_CAP < monthly c + amount
  \/ YEARLY_CAP < yearly c + amount.


(** A call to [commitAction] with the surroundings it runs in *)
Record Call := mkCall
  { call_env : Env;
    call_type : string;
    call_payload : JVal;
    call_previousOwner : option string }.

Definition commit_call (w : World) (c : Call) : World :=
  snd (commitAction (call_env c) w (call_type c) (call_payload c)
         (call_previousOwner c)).

(** A series of calls to [commitAction], in order *)
Definition commit_calls (calls : list Call) (w : World) : World :=
  fold_left commit_call calls w.

(** What the transaction of [appendSTA] makes of the database [db], the
    flag saying whether it is still open when the digest has resolved:
    nothing when a request is refused, the rows without the head when it
    has committed by then, and all the writes otherwise. *)
Inductive append_end (db : DB) (sta : Segment) : bool -> DB -> Prop :=
| append_aborted (open : bool) :
    append_adds db sta = None -> append_end db sta open db
| append_rows (db3 : DB) :
    append_adds db sta = Some db3 -> append_end db sta false db3
| append_all (db3 : DB) :
    append_adds db sta = Some db3 ->
    append_end db sta true (put_head db3 (block_hash sta) (s_seq sta)).

(** What a call to [commitAction] makes of the world: nothing of the chain
    and of the views when the call is refused before the append, and
    otherwise the views with the segment projected and the database as the
    transaction leaves it. *)
Inductive commit_end (w : World) (c : Call) (w' : World) : Prop :=
| commit_refused :
    same_chain (w_db w) (w_db w') ->
    w_state w' = w_state w ->
    commit_end w c w'
| commit_tried (identity : Identity) (db1 : DB) :
    let sta := candidate (call_env c) (w_db w) identity (call_type c)
                 (call_payload c) (call_previousOwner c) in
    sm_identity (w_state w) = Some identity ->
    validateSegment (call_env c) (w_db w) sta
      {| capsTracker := w_tracker w; skipLivenessCheck := true |}
    = (Pass, db1, w_tracker w') ->
    w_state w'
    = project (CallerObject (env_chat_ref (call_env c))) (w_state w) sta ->
    append_end db1 sta (env_tx_open (call_env c)) (w_db w') ->
    commit_end w c w'.



(** The segments sit at keys from 1 to one beyond the chain length: the
    key beyond is the one of a segment whose rows were stored without the
    head. *)
Definition chain_bounded (db : DB) : Prop :=
  0 <= getChainLen db
  /\ (forall k s, state_chain db !! k = Some s ->
        1 <= k <= getChainLen db + 1).


Definition is_primitive (v : JVal) : bool :=
  match v with
  | JArr _ | JObj _ => false
  | _ => true
  end.

(** The chat id under which the message of a segment with this payload is
    filed: [payload.chatId || payload.selected_character || null], and
    ['default'] in its place when that is falsy. *)
Definition chat_id_of (payload : JVal) : JVal :=
  let p := jor payload (JObj []) in
  jor (jor (jor (jget p "chatId") (jget p "selected_character")) JNull)
      (JStr "default").

(** The chat id of the payload is a value, not an object or an array. *)
Definition plain_chat (payload : JVal) : bool :=
  is_primitive (chat_id_of payload).



(** ** A short session used by the examples on projections *)

Module Session.
Import Fixture.

Definition decision : JVal :=
  JObj [("chatId"%string, JStr "hakim");
        ("title"%string, JStr "Open the shop");
        ("decision"%string, JStr "ACCEPT");
        ("status"%string, JStr "active")].

Definition outcome : JVal :=
  JObj [("decisionSeq"%string, JNum 2);
        ("outcome"%string, JStr "SUCCESS")].

Definition nonce3 : string := "202122232425262728292a2b2c2d2e2f".
Definition nonce4 : string := "303132333435363738393a3b3c3d3e3f".

(** A message, a decision one second later, a commit 200 ms after that
    (refused by the rate limit), and an outcome *)
Definition calls : list Call :=
  [mkCall (env t0 nonce1) CHAT_USER hello None;
   mkCall (env (t0 + 1000) nonce2) BIZ_DECISION decision None;
   mkCall (env (t0 + 1200) nonce3) CHAT_USER hello None;
   mkCall (env (t0 + 2000) nonce4) BIZ_OUTCOME outcome None].

Definition start : World :=
  mkWorld (init newStateManager emptyDB (Some alice)) emptyDB (Some ∅).

End Session.


(* ====================================================================== *)
(** * Chain verification and the corruption scan (integrity.js)            *)
(* ====================================================================== *)

(** An entry of [errors]; [expected] and [actual] are present on the
    entries about hashes only. The message of SIGNATURE_ERROR ends with the
    runtime's text of the exception, which is left out. *)
Record IntegrityError := mkError
  { err_seq : Z;
    err_code : string;
    err_message : string;
    err_expected : option string;
    err_actual : option string }.

(** An entry of [warnings] *)
Record IntegrityWarning := mkWarning
  { warn_seq : Z;
    warn_code : string;
    warn_message : string;
    warn_previous : Z;
    warn_current : Z }.

(** The result of [verifyChainIntegrity]; the two heads are absent from the
    result for an empty chain. *)
Record IntegrityResult := mkIntegrity
  { int_ok : bool;
    int_verified : Z;
    int_errors : list IntegrityError;
    int_warnings : list IntegrityWarning;
    int_duration : Z;
    int_computedHead : option string;
    int_storedHead : option string }.

(** The variables of the verification loop *)
Record Scan := mkScan
  { sc_expectedPrevHash : string;
    sc_lastTimestamp : Z;
    sc_errors : list IntegrityError;
    sc_warnings : list IntegrityWarning }.

(** The signature check of the loop body: [verify] answers [None] when
    importing the key throws; a segment without signature is verified
    against the text of [undefined]. *)
Definition signature_errors (verify : JVal -> string -> string -> option bool)
    (segment : Segment) (seq : Z) : list IntegrityError :=
  match verify (author_pubJwk (s_author segment)) (getSignableContent segment)
               (signature_text segment) with
  | Some true => []
  | Some false =>
      [mkError seq "INVALID_SIGNATURE"
         ("Signature verification failed at seq " +:+ string_of_Z seq)
         None None]
  | None =>
      [mkError seq "SIGNATURE_ERROR"
         ("Signature verification error at seq " +:+ string_of_Z seq +:+ ": ")
         None None]
  end.

(** One turn of the loop of [verifyChainIntegrity], for [seq]. Computing
    the hash of a stored segment does not throw, so HASH_COMPUTE_ERROR has
    no case. *)
Definition scan_step (verify : JVal -> string -> string -> option bool)
    (verifySignatures : bool) (db : DB) (st : Scan) (seq : Z) : Scan :=
  match getSTABySeq db seq with
  | None =>
      mkScan (sc_expectedPrevHash st) (sc_lastTimestamp st)
        (sc_errors st
         ++ [mkError seq "MISSING_SEGMENT"
               ("Segment at sequence " +:+ string_of_Z seq +:+ " is missing")
               None None])
        (sc_warnings st)
  | Some segment =>
      let seqErrors :=
        if negb (s_seq segment =? seq)
        then [mkError seq "SEQ_MISMATCH"
                ("Expected seq " +:+ string_of_Z seq +:+ ", found "
                 +:+ string_of_Z (s_seq segment)) None None]
        else [] in
      let hashErrors :=
        if negb (String.eqb (s_prev_hash segment) (sc_expectedPrevHash st))
        then [mkError seq "HASH_CHAIN_BROKEN"
                ("Hash chain broken at seq " +:+ string_of_Z seq)
                (Some (sc_expectedPrevHash st)) (Some (s_prev_hash segment))]
        else [] in
      let timeWarnings :=
        if s_timestamp segment <? sc_lastTimestamp st
        then [mkWarning seq "TIMESTAMP_REGRESSION"
                ("Timestamp went backwards at seq " +:+ string_of_Z seq)
                (sc_lastTimestamp st) (s_timestamp segment)]
        else [] in
      let sigErrors :=
        if verifySignatures then signature_errors verify segment seq
        else [] in
      let signable := getSignableContent segment in
      mkScan (sha256Hex (signable +:+ "|" +:+ signature_text segment))
        (s_timestamp segment)
        (sc_errors st ++ seqErrors ++ hashErrors ++ sigErrors)
        (sc_warnings st ++ timeWarnings)
  end.

(** The values of [seq] in [for (let seq = 1; seq <= chainLen; seq++)] *)
Definition seq_range (chainLen : Z) : list Z :=
  map Z.of_nat (seq 1 (Z.to_nat chainLen)).

(** [verifyChainIntegrity(db, options)] of integrity.js, the one that
    index.js exports and [initializeApp] calls. [verifySignatures] is
    [options.verifySignatures !== false]; [startTime] and [endTime] are the
    two readings of the clock; the progress callback is the caller's. *)
Definition verifyChainIntegrity
    (verify : JVal -> string -> string -> option bool)
    (startTime endTime : Z) (db : DB) (verifySignatures : bool)
  : IntegrityResult :=
  let chainLen := getChainLen db in
  if chainLen =? 0
  then mkIntegrity true 0 [] [] (endTime - startTime) None None
  else
    let st := fold_left (scan_step verify verifySignatures db)
                (seq_range chainLen) (mkScan GENESIS_HASH 0 [] []) in
    let storedHead := getChainHead db in
    let errors :=
      sc_errors st
      ++ (if negb (String.eqb storedHead (sc_expectedPrevHash st))
          then [mkError chainLen "HEAD_MISMATCH"
                  "Stored chain head does not match computed head"
                  (Some (sc_expectedPrevHash st)) (Some storedHead)]
          else []) in
    mkIntegrity (Nat.eqb (length errors) 0) chainLen errors (sc_warnings st)
      (endTime - startTime) (Some (sc_expectedPrevHash st)) (Some storedHead).

(** An entry of [issues]: an error or a warning under its [type] *)
Inductive Issue :=
| IssueError (e : IntegrityError)
| IssueWarning (w : IntegrityWarning).

Record ScanStats := mkScanStats
  { stat_verified : Z;
    stat_errors : Z;
    stat_warnings : Z;
    stat_duration : Z }.

Record CorruptionReport := mkReport
  { corrupted : bool;
    severity : string;
    issues : list Issue;
    recommendation : string;
    stats : ScanStats }.

Definition critical_codes : list string :=
  ["HASH_CHAIN_BROKEN"; "HEAD_MISMATCH"; "MISSING_SEGMENT"]%string.

(** [scanForCorruption(db)] *)
Definition scanForCorruption
    (verify : JVal -> string -> string -> option bool)
    (startTime endTime : Z) (db : DB) : CorruptionReport :=
  let integrity := verifyChainIntegrity verify startTime endTime db true in
  let entries :=
    map IssueError (int_errors integrity)
    ++ map IssueWarning (int_warnings integrity) in
  let errorCount := length (int_errors integrity) in
  let criticalErrors :=
    length (List.filter (fun e => includes critical_codes (err_code e))
                   (int_errors integrity)) in
  let '(sev, advice) :=
    if Nat.ltb 0 criticalErrors
    then ("critical"%string,
          "Chain integrity compromised. Enter read-only mode and sync from trusted source."%string)
    else if Nat.ltb 0 errorCount
    then ("major"%string,
          "Signature errors detected. Verify device security and resync."%string)
    else if Nat.ltb 0 (length (int_warnings integrity))
    then ("minor"%string,
          "Minor issues detected. Continue with caution."%string)
    else ("none"%string, "Chain is healthy"%string) in
  {| corrupted := negb (String.eqb sev "none");
     severity := sev;
     issues := entries;
     recommendation := advice;
     stats := {| stat_verified := int_verified integrity;
                 stat_errors := Z.of_nat errorCount;
                 stat_warnings := Z.of_nat (length (int_warnings integrity));
                 stat_duration := int_duration integrity |} |}.

(** The readings of the clock during [initializeApp]: around the chain
    verification, for the latch, and by the caps tracker *)
Record BootClock := mkBootClock
  { boot_verify_start : Z;
    boot_verify_end : Z;
    boot_latch : Z;
    boot_caps : Z }.

(** [initializeApp(options)] as far as the chain engine goes: the state
    manager is initialised on the database with the identity that the
    identity manager hands over, the chain is verified unless
    [options.verifyIntegrity] is false and the latch is set when the
    verification fails, the flag [readOnly] is read, and the caps of the
    identity are read through a new tracker. *)
Definition initializeApp (verify : JVal -> string -> string -> option bool)
    (clock : BootClock) (db : DB) (identity : Identity)
    (verifyIntegrity : bool) : Context :=
  let stateManager := init newStateManager db (Some identity) in
  let db1 :=
    if verifyIntegrity then
      if int_ok (verifyChainIntegrity verify (boot_verify_start clock)
                   (boot_verify_end clock) db true)
      then db
      else enterReadOnlyMode (boot_latch clock) db
    else db in
  let latched := isReadOnlyMode db1 in
  let '(_, db2, cache) :=
    getCurrentCaps (boot_caps clock) db1 ∅ (id_hid identity) in
  {| readOnly := latched;
     ctx_world := mkWorld stateManager db2 (Some cache) |}.

(** The block hash that the segment at [k] has to name as its predecessor *)
Definition expected_prev_hash (db : DB) (k : Z) : string :=
  if k =? 1 then GENESIS_HASH
  else match getSTABySeq db (k - 1) with
       | Some p => block_hash p
       | None => GENESIS_HASH
       end.

(** The chain of [db] is whole under [verify]: every position from 1 to
    the chain length holds a segment with that sequence number, linked to
    the block hash of its predecessor and carrying a valid signature, and
    the stored head is the block hash of the last segment. *)
Definition chain_linked (verify : JVal -> string -> string -> option bool)
    (db : DB) : Prop :=
  (forall k, 1 <= k <= getChainLen db ->
     exists s, getSTABySeq db k = Some s
       /\ s_seq s = k
       /\ s_prev_hash s = expected_prev_hash db k
       /\ verify (author_pubJwk (s_author s)) (getSignableContent s)
                 (signature_text s) = Some true)
  /\ getChainHead db = expected_prev_hash db (getChainLen db + 1).

(** The positions 1 to [n] of the chain are whole. *)
Definition linked_upto (verify : JVal -> string -> string -> option bool)
    (db : DB) (n : Z) : Prop :=
  forall k, 1 <= k <= n ->
    exists s, getSTABySeq db k = Some s
      /\ s_seq s = k
      /\ s_prev_hash s = expected_prev_hash db k
      /\ verify (author_pubJwk (s_author s)) (getSignableContent s)
                (signature_text s) = Some true.

(** The loop of [verifyChainIntegrity] over the positions 1 to [n] *)
Definition scan_upto (verify : JVal -> string -> string -> option bool)
    (verifySignatures : bool) (db : DB) (n : nat) : Scan :=
  fold_left (scan_step verify verifySignatures db)
    (seq_range (Z.of_nat n)) (mkScan GENESIS_HASH 0 [] []).

(** An error of the codes that the scan counts as critical *)
Definition is_critical (e : IntegrityError) : Prop :=
  err_code e = "HASH_CHAIN_BROKEN"%string
  \/ err_code e = "HEAD_MISMATCH"%string
  \/ err_code e = "MISSING_SEGMENT"%string.

(** The answer of a context in read-only mode *)
Definition refusal : CommitResult :=
  mkResult false None None (Some "read_only_mode"%string) None.

(** The codes of the errors of [verifyChainIntegrity] *)
Definition error_codes : list string :=
  ["MISSING_SEGMENT"; "SEQ_MISMATCH"; "HASH_CHAIN_BROKEN";
   "INVALID_SIGNATURE"; "SIGNATURE_ERROR"; "HEAD_MISMATCH"]%string.

(** The segments of [db] are all by the author [hid], none is stamped
    before 1970, and each is stamped at least [MIN_BLOCK_INTERVAL_MS]
    after the segment before it. *)
Definition paced (hid : string) (db : DB) : Prop :=
  (forall k s, state_chain db !! k = Some s ->
     author_hid (s_author s) = hid /\ 0 <= s_timestamp s)
  /\ (forall k s p, state_chain db !! k = Some s ->
        state_chain db !! (k - 1) = Some p ->
        s_timestamp p + MIN_BLOCK_INTERVAL_MS <= s_timestamp s).

(** The timestamp of the segment at [k], 0 before the first *)
Definition timestamp_at (db : DB) (k : Z) : Z :=
  match getSTABySeq db k with
  | Some s => s_timestamp s
  | None => 0
  end.
(* ====================================================================== *)
(** * Batches and the nonce log (validation.js, idb.js)                    *)
(* ====================================================================== *)

(** [validateBatch(db, segments, options)]: each segment comes with the
    surroundings its validation runs in; the caps tracker of the options
    is one object, so its cache and the caps rows are threaded through.
    The result is [valid], [invalid], and the database and tracker left. *)
Fixpoint validateBatch (db : DB) (segments : list (Env * Segment))
    (tracker : option (gmap string CapsRecord)) (skipLiveness : bool)
  : list Segment * list (Segment * ValidationResult)
    * DB * option (gmap string CapsRecord) :=
  match segments with
  | [] => ([], [], db, tracker)
  | (e, segment) :: rest =>
      let '(result, db1, tracker1) :=
        validateSegment e db segment
          {| capsTracker := tracker; skipLivenessCheck := skipLiveness |} in
      let '(valid, invalid, db2, tracker2) :=
        validateBatch db1 rest tracker1 skipLiveness in
      if v_ok result then (segment :: valid, invalid, db2, tracker2)
      else (valid, (segment, result) :: invalid, db2, tracker2)
  end.

Definition set_sync_log (db : DB) (log : gmap string Z) : DB :=
  {| meta_chain_head := meta_chain_head db;
     meta_chain_len := meta_chain_len db;
     meta_read_only := meta_read_only db;
     state_chain := state_chain db;
     sync_log := log;
     messages := messages db;
     caps := caps db |}.

(** [cleanupOldNonces(db, maxAgeMs)] at the time [now]: the cursor over
    the index [by_ts] up to the cutoff, inclusive, deletes every record it
    visits; the result is their number. *)
Definition cleanupOldNonces (now : Z) (db : DB) (maxAgeMs : Z) : Z * DB :=
  let cutoff := now - maxAgeMs in
  let visited := filter (fun kv : string * Z => kv.2 <= cutoff) (sync_log db) in
  (Z.of_nat (size visited),
   set_sync_log db
     (filter (fun kv : string * Z => ~ kv.2 <= cutoff) (sync_log db))).

(** What happens to a chain after a commit: further commits, and
    clean-ups of the nonce log *)
Inductive ChainOp :=
| OpCommit (c : Call)
| OpCleanup (now maxAgeMs : Z).

Definition chain_step (w : World) (op : ChainOp) : World :=
  match op with
  | OpCommit c => commit_call w c
  | OpCleanup now maxAgeMs =>
      mkWorld (w_state w) (snd (cleanupOldNonces now (w_db w) maxAgeMs))
        (w_tracker w)
  end.

Definition chain_run (ops : list ChainOp) (w : World) : World :=
  fold_left chain_step ops w.

(* ====================================================================== *)
(** * More of the caps tracker (caps.js)                                   *)
(* ====================================================================== *)

(** [canUnlock(hid, amount)]: the flag and the reason *)
Definition canUnlock (now : Z) (db : DB) (cache : gmap string CapsRecord)
    (hid : string) (amount : Z)
  : (bool * option string) * DB * gmap string CapsRecord :=
  let '(view, db1, cache1) := getCurrentCaps now db cache hid in
  if cv_available_daily view <? amount
  then ((false, Some "daily_limit"%string), db1, cache1)
  else if cv_available_monthly view <? amount
  then ((false, Some "monthly_limit"%string), db1, cache1)
  else if cv_available_yearly view <? amount
  then ((false, Some "yearly_limit"%string), db1, cache1)
  else ((true, None), db1, cache1).

Record TimeUntil := mkTimeUntil
  { hours : Z;
    minutes : Z;
    seconds : Z }.

(** [getTimeUntilDailyReset()] at the time [now]; [%] is the remainder
    that takes the sign of the dividend, [Math.floor] of a quotient is the
    floored division. *)
Definition getTimeUntilDailyReset (now : Z) : TimeUntil :=
  let nextReset := EcmaDate.setUTCHours now 24 0 0 0 in
  let diff := nextReset - now in
  {| hours := diff / (1000 * 60 * 60);
     minutes := Z.rem diff (1000 * 60 * 60) / (1000 * 60);
     seconds := Z.rem diff (1000 * 60) / 1000 |}.

(** The reason with which [incrementCaps] refuses what [canUnlock]
    refuses with [reason] *)
Definition increment_reason (reason : option string) : option string :=
  match reason with
  | Some "daily_limit"%string => Some "daily_cap_exceeded"%string
  | Some "monthly_limit"%string => Some "monthly_cap_exceeded"%string
  | Some "yearly_limit"%string => Some "yearly_cap_exceeded"%string
  | _ => None
  end.

(* ====================================================================== *)
(** * Encodings and human ids (crypto.js, identity.js)                     *)
(* ====================================================================== *)

(** [b.toString(16)] for an element [b] of a [Uint8Array]: one hex digit
    below 16, two from there on *)
Definition toString16 (b : Z) : string :=
  if b <? 16 then String (Sha256.hex_digit b) EmptyString
  else String (Sha256.hex_digit (b / 16))
         (String (Sha256.hex_digit (b mod 16)) EmptyString).

(** [s.padStart(n, '0')] *)
Definition padStart0 (n : nat) (s : string) : string :=
  String.concat EmptyString (repeat "0"%string (n - String.length s)) +:+ s.

(** [arrayToHex(arr)]; the elements of a [Uint8Array] are the integers
    from 0 to 255 *)
Definition arrayToHex (arr : list Z) : string :=
  join EmptyString (map (fun b => padStart0 2 (toString16 b)) arr).

(** The value of a digit in radix 16 *)
Definition hex_value (c : ascii) : option Z :=
  let n := nat_of_ascii c in
  if Nat.leb 48 n && Nat.leb n 57 then Some (Z.of_nat (n - 48))
  else if Nat.leb 97 n && Nat.leb n 102 then Some (Z.of_nat (n - 87))
  else if Nat.leb 65 n && Nat.leb n 70 then Some (Z.of_nat (n - 55))
  else None.

(** The value of the longest prefix of hex digits; [None] without one *)
Fixpoint hex_digits_value (s : string) (acc : option Z) : option Z :=
  match s with
  | String c r =>
      match hex_value c with
      | Some d =>
          hex_digits_value r
            (Some (16 * match acc with Some a => a | None => 0 end + d))
      | None => acc
      end
  | EmptyString => acc
  end.

(** The string without a leading [0x] or [0X] *)
Definition strip_0x (s : string) : string :=
  match s with
  | String c (String x r) =>
      if Nat.eqb (nat_of_ascii c) 48
         && (Nat.eqb (nat_of_ascii x) 120 || Nat.eqb (nat_of_ascii x) 88)
      then r else s
  | _ => s
  end.

(** [parseInt(s, 16)] on ASCII text: leading white space, a sign, the
    prefix 0x, then the digits up to the first character that is none;
    [None] is NaN. *)
Definition parseInt16 (s : string) : option Z :=
  match skip_spaces s with
  | String c r =>
      if Nat.eqb (nat_of_ascii c) 45
      then option_map Z.opp (hex_digits_value (strip_0x r) None)
      else if Nat.eqb (nat_of_ascii c) 43
      then hex_digits_value (strip_0x r) None
      else hex_digits_value (strip_0x (String c r)) None
  | EmptyString => None
  end.

(** The conversion of a number stored into a [Uint8Array]: NaN gives 0,
    an integer its residue modulo 256 *)
Definition toUint8 (v : option Z) : Z :=
  match v with
  | Some z => z mod 256
  | None => 0
  end.

(** [hexToArray(hex)] on ASCII text: the array has [hex.length / 2]
    elements, rounded down, and the loop stores element [i / 2] from the
    two characters at [i]; a store beyond the end of the array, which the
    last turn makes for a text of odd length, is ignored. *)
Definition hexToArray (hex : string) : list Z :=
  map (fun i => toUint8 (parseInt16 (String.substring (2 * i) 2 hex)))
      (seq 0 (Nat.div (String.length hex) 2)).

(** A lowercase hex digit *)
Definition is_lower_hex (c : ascii) : bool :=
  let n := nat_of_ascii c in
  (Nat.leb 48 n && Nat.leb n 57) || (Nat.leb 97 n && Nat.leb n 102).

(** An uppercase hex digit, the class [A-F0-9] *)
Definition is_upper_hex (c : ascii) : bool :=
  let n := nat_of_ascii c in
  (Nat.leb 48 n && Nat.leb n 57) || (Nat.leb 65 n && Nat.leb n 70).

Fixpoint string_forallb (f : ascii -> bool) (s : string) : bool :=
  match s with
  | EmptyString => true
  | String c r => f c && string_forallb f r
  end.

(** [s.toUpperCase()] on ASCII text *)
Fixpoint toUpperCase (s : string) : string :=
  match s with
  | EmptyString => EmptyString
  | String c r =>
      let n := nat_of_ascii c in
      String (if Nat.leb 97 n && Nat.leb n 122 then ascii_of_nat (n - 32)
              else c)
             (toUpperCase r)
  end.

(** [generateHumanId(publicKeyJwk)] *)
Definition generateHumanId (publicKeyJwk : JVal) : string :=
  let keyStr := canonicalize publicKeyJwk in
  let hash := sha256Hex keyStr in
  "HID-" +:+ toUpperCase (String.substring 0 8 hash).

(** [isValidHid(hid)] of identity.js; the regular expression
    [/^HID-[A-F0-9]{8}$/] asks for the prefix and then exactly eight
    characters of the class, up to the end of the text. *)
Definition isValidHid (hid : JVal) : bool :=
  match hid with
  | JStr s =>
      startsWith s "HID-"
      && Nat.eqb (String.length s) 12
      && (String.eqb (String.substring 0 4 s) "HID-"
          && Nat.eqb (String.length (String.substring 4 (String.length s) s)) 8
          && string_forallb is_upper_hex
               (String.substring 4 (String.length s) s))
  | _ => false
  end.

(** [s.slice(-n)]: the last [n] characters, all of them when there are
    fewer *)
Definition slice_last (n : nat) (s : string) : string :=
  String.substring (String.length s - n) n s.

(** [formatHid(hid)] of identity.js, for a text *)
Definition formatHid (hid : string) : string :=
  if String.eqb hid EmptyString || negb (startsWith hid "HID-") then hid
  else String.substring 0 4 hid +:+ "..." +:+ slice_last 4 hid.

(** Two values that differ at most in the order in which their objects,
    at any depth, list their properties; the keys of an object are
    distinct. *)
Inductive reordered : JVal -> JVal -> Prop :=
| reordered_same (v : JVal) : reordered v v
| reordered_array (xs ys : list JVal) :
    Forall2 reordered xs ys -> reordered (JArr xs) (JArr ys)
| reordered_object (ps qs qs' : list (string * JVal)) :
    Forall2 (fun p q => fst p = fst q /\ reordered (snd p) (snd q)) ps qs ->
    Permutation qs qs' ->
    NoDup (map fst ps) ->
    reordered (JObj ps) (JObj qs').

(** The properties of a list are in ascending order of their keys. *)
Definition key_sorted {A} (l : list (string * A)) : Prop :=
  StronglySorted (fun p q => code_unit_leb (fst p) (fst q) = true) l.

(* ====================================================================== *)
(** * Properties                                                           *)
(* ====================================================================== *)

Ltac break_match :=
  repeat match goal with
         | |- context [match ?x with _ => _ end] => destruct x eqn:?
         end.

(** ** Backup restore eligibility *)

(** C3: for every current chain state (Lc, Hc) and backup (Lb, Hb),
    [verifyBackupRestoreEligibility] answers (canRestore, requiresSync) as
    the five-case table of the specification does. *)
Theorem backup_eligibility_is_the_table (Lc Lb : Z) (Hc Hb : string) :
  let r := verifyBackupRestoreEligibility
             (mkChainState Lb Hb) (Some (mkChainState Lc Hc)) in
  (canRestore r, requiresSync r) = eligibility_table Lc Hc Lb Hb.
Proof.
  unfold verifyBackupRestoreEligibility, eligibility_table; simpl.
  destruct (Z.eqb_spec Lc 0) as [E0 | E0].
  - rewrite bool_decide_eq_true_2 by assumption. reflexivity.
  - rewrite (bool_decide_eq_false_2 (Lc = 0)) by assumption.
    destruct (Z.ltb_spec Lb Lc) as [Lt | Ge].
    + rewrite bool_decide_eq_true_2 by assumption. reflexivity.
    + rewrite (bool_decide_eq_false_2 (Lb < Lc)) by lia.
      destruct (String.eqb_spec Hb Hc) as [EH | NH]; simpl.
      * rewrite !bool_decide_eq_false_2; [reflexivity | tauto | tauto].
      * destruct (Z.ltb_spec Lc Lb).
        -- rewrite bool_decide_eq_true_2; [reflexivity | split; [assumption | lia]].
        -- rewrite bool_decide_eq_false_2 by (intros [_ ?]; lia).
           rewrite bool_decide_eq_true_2 by assumption. reflexivity.
Qed.

(** Scenario E of the specification, and the null current state *)
Example restore_scenario_E :
  let current := Some (mkChainState 10 "X") in
  canRestore (verifyBackupRestoreEligibility (mkChainState 10 "X") current)
    = true
  /\ requiresSync (verifyBackupRestoreEligibility (mkChainState 10 "Y") current)
    = true
  /\ canRestore (verifyBackupRestoreEligibility (mkChainState 10 "Y") current)
    = false
  /\ requiresSync (verifyBackupRestoreEligibility (mkChainState 5 "Z") current)
    = true
  /\ canRestore (verifyBackupRestoreEligibility (mkChainState 10 "X")
                   (Some (mkChainState 0 "GENESIS"))) = true
  /\ canRestore (verifyBackupRestoreEligibility (mkChainState 10 "X") None)
    = true.
Proof. repeat split. Qed.

(** ** Rule 3: the rate limit *)

Lemma rate_limit_outcomes (db : DB) (segment : Segment) :
  validateRateLimit db segment = Pass
  \/ exists message, validateRateLimit db segment = Fail 3 "rate_limit" message.
Proof.
  unfold validateRateLimit. break_match; eauto.
Qed.

(** C5: rule 3 fails, with reason rate_limit, exactly when the chain is not
    empty, the segment stored at the chain length has the author HID of the
    candidate, and the candidate's timestamp is less than 1000 ms after
    it; at exactly 1000 ms the rule passes and at 999 ms it fails. *)
Theorem rate_limit_exactly (db : DB) (segment : Segment) :
  ((exists message,
       validateRateLimit db segment = Fail 3 "rate_limit" message)
   <->
   (0 < getChainLen db
    /\ exists prev,
         getSTABySeq db (getChainLen db) = Some prev
         /\ author_hid (s_author prev) = author_hid (s_author segment)
         /\ s_timestamp segment - s_timestamp prev < 1000))
  /\ (forall prev,
         0 < getChainLen db ->
         getSTABySeq db (getChainLen db) = Some prev ->
         author_hid (s_author prev) = author_hid (s_author segment) ->
         (s_timestamp segment = s_timestamp prev + 1000 ->
          validateRateLimit db segment = Pass)
         /\ (s_timestamp segment = s_timestamp prev + 999 ->
             validateRateLimit db segment =
               Fail 3 "rate_limit"
                 "Rate limit: 999ms since last block (min: 1000ms)")).
Proof.
  split.
  - unfold validateRateLimit, MIN_BLOCK_INTERVAL_MS. split.
    + intros [message H].
      destruct (Z.ltb_spec 0 (getChainLen db)); [| discriminate].
      destruct (getSTABySeq db (getChainLen db)) as [prev |]; [| discriminate].
      destruct (String.eqb_spec (author_hid (s_author prev))
                                (author_hid (s_author segment)));
        [| discriminate].
      destruct (Z.ltb_spec (s_timestamp segment - s_timestamp prev) 1000);
        [| discriminate].
      split; [assumption |]. exists prev. auto.
    + intros [Hlen [prev [Hprev [Hhid Hdiff]]]].
      rewrite (proj2 (Z.ltb_lt _ _) Hlen), Hprev.
      rewrite (proj2 (String.eqb_eq _ _) Hhid).
      rewrite (proj2 (Z.ltb_lt _ _) Hdiff). eauto.
  - intros prev Hlen Hprev Hhid.
    unfold validateRateLimit, MIN_BLOCK_INTERVAL_MS.
    rewrite (proj2 (Z.ltb_lt _ _) Hlen), Hprev.
    rewrite (proj2 (String.eqb_eq _ _) Hhid).
    split; intros Hts.
    + replace (s_timestamp segment - s_timestamp prev) with 1000 by lia.
      reflexivity.
    + replace (s_timestamp segment - s_timestamp prev) with 999 by lia.
      reflexivity.
Qed.

(** The second commit of alice, 1000 ms and 999 ms after her first *)
Lemma rate_limit_exactly_witness :
  validateRateLimit (w_db Run.after_hello) (Run.seg2 1000) = Pass
  /\ validateRateLimit (w_db Run.after_hello) (Run.seg2 999) =
       Fail 3 "rate_limit" "Rate limit: 999ms since last block (min: 1000ms)".
Proof.
  split.
  - apply (proj2 (rate_limit_exactly (w_db Run.after_hello) (Run.seg2 1000))
             Run.seg1); vm_compute; reflexivity.
  - apply (proj2 (rate_limit_exactly (w_db Run.after_hello) (Run.seg2 999))
             Run.seg1); vm_compute; reflexivity.
Defined.

(** ** Rule 4: liveness *)

Lemma liveness_absent_passes (now : Z) (segment : Segment) :
  truthy (attached_proof segment) = false ->
  validateLiveness now segment = Pass.
Proof.
  unfold validateLiveness, attached_proof. intros ->. reflexivity.
Qed.

Lemma liveness_of_proof_object (now : Z) (segment : Segment)
    (props : list (string * JVal)) (ts : Z) :
  attached_proof segment = JObj props ->
  assoc "timestamp" props = JNum ts ->
  validateLiveness now segment =
    if UTC_TOLERANCE_MS <? now - ts
    then Fail 4 "stale_liveness"
           ("Liveness proof too old: " +:+ string_of_Z (now - ts)
            +:+ "ms (max: " +:+ string_of_Z UTC_TOLERANCE_MS +:+ "ms)")
    else Pass.
Proof.
  unfold validateLiveness, attached_proof. intros -> Hts.
  unfold proof_timestamp, jget, jor. rewrite Hts. simpl.
  destruct (ts =? 0) eqn:E; simpl.
  - apply Z.eqb_eq in E. subst ts. reflexivity.
  - reflexivity.
Qed.

(** C6 (what the code does): for a segment carrying a liveness proof object
    stamped [ts], rule 4 passes exactly when the proof is at most
    720,000 ms old; the window has no upper side, so a proof stamped more
    than 720,000 ms in the future passes; and a segment with no proof
    attached passes. *)
Theorem liveness_window_is_one_sided (now : Z) (segment : Segment)
    (props : list (string * JVal)) (ts : Z) :
  attached_proof segment = JObj props ->
  assoc "timestamp" props = JNum ts ->
  (validateLiveness now segment = Pass <-> now - ts <= 720000)
  /\ (720000 < now - ts ->
      v_reason (validateLiveness now segment) = Some "stale_liveness"%string)
  /\ (720000 < ts - now -> validateLiveness now segment = Pass).
Proof.
  intros Hp Hts. rewrite (liveness_of_proof_object now segment props ts Hp Hts).
  unfold UTC_TOLERANCE_MS.
  destruct (Z.ltb_spec 720000 (now - ts)); repeat split;
    intros; try lia; try reflexivity; try discriminate.
Qed.

(** A proof stamped 720,001 ms after the clock passes rule 4. *)
Lemma liveness_window_is_one_sided_witness :
  validateLiveness Fixture.t0 (Run.seg_proof (Fixture.t0 + 720001)) = Pass.
Proof.
  apply (proj2 (proj2 (liveness_window_is_one_sided Fixture.t0
                         (Run.seg_proof (Fixture.t0 + 720001))
                         [("type"%string, JStr "timestamp");
                          ("timestamp"%string, JNum (Fixture.t0 + 720001));
                          ("nonce"%string, JStr Fixture.nonce2)]
                         (Fixture.t0 + 720001)
                         eq_refl eq_refl))).
  vm_compute. reflexivity.
Defined.

(** The two sides of the window on the same segment: the proof stamped
    720,001 ms in the past is stale, the one stamped 720,001 ms (or a
    year) in the future is accepted, and [validateTimestamp] rejects both
    distances. *)
Example liveness_future_proof_accepted :
  v_reason (validateLiveness Fixture.t0 (Run.seg_proof (Fixture.t0 - 720001)))
    = Some "stale_liveness"%string
  /\ validateLiveness Fixture.t0 (Run.seg_proof (Fixture.t0 + 720001)) = Pass
  /\ validateLiveness Fixture.t0 (Run.seg_proof (Fixture.t0 + 31536000000))
     = Pass
  /\ v_reason (validateTimestamp Fixture.t0 (Fixture.t0 + 720001))
     = Some "timestamp_drift"%string
  /\ v_reason (validateTimestamp Fixture.t0 (Fixture.t0 - 720001))
     = Some "timestamp_drift"%string.
Proof. vm_compute. repeat split. Qed.

(** ** Rule 4 in the commit path *)

Ltac solve_not_rule4 :=
  break_match; unfold not_rule4; cbn [fst snd v_rule v_reason];
  repeat split; congruence.

Lemma not_rule4_rule1 db segment :
  not_rule4 (validateCounterRelationship db segment).
Proof. unfold validateCounterRelationship. solve_not_rule4. Qed.

Lemma not_rule4_rule2 now db tracker segment :
  not_rule4 (fst (fst (validateCaps now db tracker segment))).
Proof.
  unfold validateCaps. destruct tracker as [cache |]; [| solve_not_rule4].
  destruct (getCurrentCaps now db cache (s_current_owner segment))
    as [[view db'] cache'].
  cbn [fst]. solve_not_rule4.
Qed.

Lemma not_rule4_rule3 db segment : not_rule4 (validateRateLimit db segment).
Proof. unfold validateRateLimit. solve_not_rule4. Qed.

Lemma not_rule4_rule5 segment : not_rule4 (validateOwnerTransition segment).
Proof. unfold validateOwnerTransition. solve_not_rule4. Qed.

Lemma not_rule4_rule6 db segment : not_rule4 (validateHistoryHash db segment).
Proof. unfold validateHistoryHash. solve_not_rule4. Qed.

Lemma not_rule4_rule7 db segment : not_rule4 (validateSequence db segment).
Proof. unfold validateSequence. solve_not_rule4. Qed.

Lemma not_rule4_rule8 e segment : not_rule4 (validateSignature e segment).
Proof. unfold validateSignature. solve_not_rule4. Qed.

Lemma not_rule4_rule9 db segment : not_rule4 (validateNonce db segment).
Proof. unfold validateNonce. solve_not_rule4. Qed.

Lemma validateSegment_skip_never_rule4 (e : Env) (db : DB) (segment : Segment)
    (tracker : option (gmap string CapsRecord)) :
  not_rule4 (fst (fst (validateSegment e db segment (mkOptions tracker true)))).
Proof.
  unfold validateSegment. cbn [capsTracker skipLivenessCheck].
  destruct (validateSegmentStructure segment);
    [| unfold not_rule4; cbn; repeat split; congruence].
  pose proof (not_rule4_rule1 db segment) as H1.
  destruct (validateCounterRelationship db segment); [| exact H1].
  pose proof (not_rule4_rule2 (env_now_caps e) db tracker segment) as H2.
  destruct (validateCaps (env_now_caps e) db tracker segment)
    as [[rule2 db2] tracker2].
  cbn [fst] in H2. destruct rule2; [| exact H2]. cbn [fst].
  pose proof (not_rule4_rule3 db2 segment) as H3.
  destruct (validateRateLimit db2 segment); [| exact H3].
  pose proof (not_rule4_rule5 segment) as H5.
  destruct (validateOwnerTransition segment); [| exact H5].
  pose proof (not_rule4_rule6 db2 segment) as H6.
  destruct (validateHistoryHash db2 segment); [| exact H6].
  pose proof (not_rule4_rule7 db2 segment) as H7.
  destruct (validateSequence db2 segment); [| exact H7].
  pose proof (not_rule4_rule8 e segment) as H8.
  destruct (validateSignature e segment); [| exact H8].
  apply not_rule4_rule9.
Qed.

Lemma validateSegment_skip_ignores_liveness_clock (e : Env) (db : DB)
    (segment : Segment) (tracker : option (gmap string CapsRecord)) (now : Z) :
  validateSegment (with_liveness_clock e now) db segment (mkOptions tracker true)
  = validateSegment e db segment (mkOptions tracker true).
Proof. reflexivity. Qed.

(** C10: [commitAction] always validates with [skipLivenessCheck] set, so
    rule 4 is not evaluated: the clock that rule 4 would read has no
    influence on the commit, and no commit, whatever liveness proof its
    payload carries, fails with invalid_liveness or stale_liveness. *)
Theorem commit_never_evaluates_liveness (e : Env) (w : World) (type : string)
    (payload : JVal) (previousOwner : option string) :
  (forall now,
      commitAction (with_liveness_clock e now) w type payload previousOwner
      = commitAction e w type payload previousOwner)
  /\ r_reason (fst (commitAction e w type payload previousOwner))
     <> Some "invalid_liveness"%string
  /\ r_reason (fst (commitAction e w type payload previousOwner))
     <> Some "stale_liveness"%string.
Proof.
  split; [reflexivity |].
  unfold commitAction.
  destruct (sm_db (w_state w)); cbn [negb];
    [| split; discriminate].
  destruct (sm_identity (w_state w)) as [identity |];
    [| split; discriminate].
  set (signed := signSegment e _ _).
  pose proof (validateSegment_skip_never_rule4 e (w_db w) signed (w_tracker w))
    as Hskip.
  destruct (validateSegment e (w_db w) signed _) as [[validation db1] tracker1].
  cbn [fst] in Hskip. destruct Hskip as [_ [Hinv Hstale]].
  destruct validation as [| rule reason message].
  - unfold appendSTA.
    destruct (append_adds _ _); [destruct (env_tx_open e) |];
      cbn [fst r_reason failure]; split; discriminate.
  - cbn [fst r_reason failure v_reason] in *. split; congruence.
Qed.

(** Commits whose payload carries a malformed proof, or a proof stamped a
    year before the commit, succeed, although rule 4 rejects the segments
    they append. *)
Example commit_with_bad_liveness_proof_succeeds :
  ok (fst (commitAction (Fixture.env Fixture.t0 Fixture.nonce1) Fixture.fresh
             CHAT_USER Run.malformed_proof None)) = true
  /\ ok (fst (commitAction (Fixture.env Fixture.t0 Fixture.nonce1) Fixture.fresh
                CHAT_USER (Run.with_proof (Fixture.t0 - 31536000000)) None))
     = true
  /\ v_reason (validateLiveness Fixture.t0
                 (Run.seg_proof (Fixture.t0 - 31536000000)))
     = Some "stale_liveness"%string.
Proof. vm_compute. repeat split. Qed.

(** ** Capsule content hash *)




(** ** The append pipeline *)

Lemma fold_compress_cons (bs : list (list Z)) (h : list Z) :
  (exists a l, h = a :: l) ->
  exists a l, fold_left Sha256.compress bs h = a :: l.
Proof.
  revert h. induction bs as [| b bs IH]; intros h Hh; [exact Hh |].
  cbn [fold_left]. apply IH. unfold Sha256.compress. eauto.
Qed.

Lemma sha256Hex_nonempty (s : string) : sha256Hex s <> EmptyString.
Proof.
  unfold sha256Hex, Sha256.digest.
  destruct (fold_compress_cons
              (Sha256.blocks
                 (length (Sha256.words (Sha256.pad (Sha256.bytes_of_string s))))
                 (Sha256.words (Sha256.pad (Sha256.bytes_of_string s))))
              Sha256.H0) as [a [l ->]].
  { unfold Sha256.H0. eauto. }
  cbn [map]. unfold Sha256.hex_of_word at 1.
  cbn [Sha256.be_bytes rev seq app map].
  unfold Sha256.hex_of_byte at 1.
  destruct (map Sha256.hex_of_word l); cbn; discriminate.
Qed.

Lemma same_chain_refl db : same_chain db db.
Proof. unfold same_chain. tauto. Qed.

Lemma same_chain_set_caps db c : same_chain db (set_caps db c).
Proof. unfold same_chain. cbn. tauto. Qed.

Lemma same_chain_trans db1 db2 db3 :
  same_chain db1 db2 -> same_chain db2 db3 -> same_chain db1 db3.
Proof. unfold same_chain. intuition congruence. Qed.

Lemma same_chain_getChainLen db db' :
  same_chain db db' -> getChainLen db' = getChainLen db.
Proof. unfold same_chain, getChainLen. intros (_ & -> & _). reflexivity. Qed.

Lemma same_chain_getChainHead db db' :
  same_chain db db' -> getChainHead db' = getChainHead db.
Proof. unfold same_chain, getChainHead. intros (-> & _). reflexivity. Qed.

Lemma getCurrentCaps_same_chain now db cache hid :
  same_chain db (snd (fst (getCurrentCaps now db cache hid))).
Proof.
  unfold getCurrentCaps.
  destruct (applyResets (loadCaps db hid) now) as [c reset] eqn:E.
  destruct (cache !! hid) as [cached |].
  - destruct (negb (needsReset cached now)); cbn [fst snd].
    + apply same_chain_refl.
    + destruct reset; [apply same_chain_set_caps | apply same_chain_refl].
  - cbn [fst snd].
    destruct reset; [apply same_chain_set_caps | apply same_chain_refl].
Qed.

Lemma validateCaps_same_chain now db tracker segment :
  same_chain db (snd (fst (validateCaps now db tracker segment))).
Proof.
  unfold validateCaps. destruct tracker as [cache |];
    [| apply same_chain_refl].
  pose proof (getCurrentCaps_same_chain now db cache (s_current_owner segment)).
  destruct (getCurrentCaps now db cache (s_current_owner segment))
    as [[view db'] cache']. exact H.
Qed.

Lemma validateSegment_same_chain e db segment options :
  same_chain db (snd (fst (validateSegment e db segment options))).
Proof.
  unfold validateSegment.
  destruct (validateSegmentStructure segment); [| apply same_chain_refl].
  destruct (validateCounterRelationship db segment); [| apply same_chain_refl].
  pose proof (validateCaps_same_chain (env_now_caps e) db
                (capsTracker options) segment) as H.
  destruct (validateCaps (env_now_caps e) db (capsTracker options) segment)
    as [[rule2 db2] tracker2].
  destruct rule2; exact H.
Qed.

(** What a passed validation has checked about the chain *)
Lemma validateSegment_pass e db segment options db2 tracker2 :
  validateSegment e db segment options = (Pass, db2, tracker2) ->
  same_chain db db2
  /\ s_seq segment = getChainLen db + 1
  /\ s_prev_hash segment = getChainHead db
  /\ sync_log db !! s_nonce segment = None.
Proof.
  intros H.
  pose proof (validateSegment_same_chain e db segment options) as Hsame.
  rewrite H in Hsame. cbn [fst snd] in Hsame.
  split; [exact Hsame |].
  rewrite <- (same_chain_getChainLen _ _ Hsame).
  rewrite <- (same_chain_getChainHead _ _ Hsame).
  destruct Hsame as (_ & _ & _ & _ & <- & _).
  revert H. unfold validateSegment.
  destruct (validateSegmentStructure segment); [| discriminate].
  destruct (validateCounterRelationship db segment); [| discriminate].
  destruct (validateCaps (env_now_caps e) db (capsTracker options) segment)
    as [[rule2 db2'] tracker2'].
  destruct rule2; [| discriminate].
  destruct (validateRateLimit db2' segment); [| discriminate].
  destruct (if skipLivenessCheck options then Pass
            else validateLiveness (env_now_liveness e) segment);
    [| discriminate].
  destruct (validateOwnerTransition segment); [| discriminate].
  unfold validateHistoryHash, validateSequence, validateNonce, nonceExists.
  destruct (String.eqb_spec (s_prev_hash segment) (getChainHead db2'));
    [| discriminate]. cbn [negb].
  destruct (Z.eqb_spec (s_seq segment) (getChainLen db2' + 1));
    [| discriminate]. cbn [negb].
  destruct (validateSignature e segment); [| discriminate].
  destruct (sync_log db2' !! s_nonce segment) eqn:En; [discriminate |].
  intros [= <- <-]. auto.
Qed.

(** The database after the [add] requests of [appendSTA], when they are
    all admitted *)
Lemma append_adds_Some db sta db3 :
  append_adds db sta = Some db3 ->
  state_chain db !! s_seq sta = None
  /\ sync_log db !! s_nonce sta = None
  /\ state_chain db3 = <[s_seq sta := sta]> (state_chain db)
  /\ sync_log db3 = <[s_nonce sta := s_timestamp sta]> (sync_log db)
  /\ messages db3 =
       (if isMessageType (s_type sta)
        then <[m_id (createMessageProjection sta) :=
                 createMessageProjection sta]> (messages db)
        else messages db)
  /\ meta_chain_head db3 = meta_chain_head db
  /\ meta_chain_len db3 = meta_chain_len db
  /\ meta_read_only db3 = meta_read_only db
  /\ caps db3 = caps db.
Proof.
  unfold append_adds, add_state_chain, add_sync_log, add_message.
  destruct (state_chain db !! s_seq sta); [discriminate |].
  destruct (existsb _ _); [discriminate |]. cbn [sync_log].
  destruct (sync_log db !! s_nonce sta); [discriminate |].
  destruct (isMessageType (s_type sta)); cbn [messages].
  - destruct (messages db !! m_id (createMessageProjection sta));
      [discriminate |].
    intros [= <-]. cbn. tauto.
  - intros [= <-]. cbn. tauto.
Qed.

Lemma getChainHead_block_hash (db : DB) (sta : Segment) :
  meta_chain_head db = Some (block_hash sta) ->
  getChainHead db = block_hash sta.
Proof.
  unfold getChainHead. intros ->.
  destruct (String.eqb_spec (block_hash sta) EmptyString) as [E | _];
    [| reflexivity].
  exfalso. exact (sha256Hex_nonempty _ E).
Qed.

(** The course of a call to [commitAction] on an initialised state
    manager: the validation of the candidate segment, and after a passed
    validation the three ends of [appendSTA]. *)
Lemma commitAction_course e w type payload previousOwner identity :
  sm_db (w_state w) = true ->
  sm_identity (w_state w) = Some identity ->
  let sta := candidate e (w_db w) identity type payload previousOwner in
  let run := commitAction e w type payload previousOwner in
  exists validation db1 tracker1,
    validateSegment e (w_db w) sta
      {| capsTracker := w_tracker w; skipLivenessCheck := true |}
    = (validation, db1, tracker1)
    /\ same_chain (w_db w) db1
    /\ match validation with
       | Fail _ reason message =>
           run = (failure reason (Some message),
                  mkWorld (w_state w) db1 tracker1)
       | Pass =>
           let sm' := project (CallerObject (env_chat_ref e)) (w_state w) sta in
           match append_adds db1 sta with
           | None =>
               run = (failure "append_error" None, mkWorld sm' db1 tracker1)
           | Some db3 =>
               if env_tx_open e
               then run = (mkResult true (Some (s_seq sta))
                             (Some (block_hash sta)) None None,
                           mkWorld sm'
                             (put_head db3 (block_hash sta) (s_seq sta))
                             tracker1)
               else run = (failure "append_error" None,
                           mkWorld sm' db3 tracker1)
           end
       end.
Proof.
  intros Hdb Hid sta run. subst run. unfold commitAction.
  rewrite Hdb, Hid. cbn [negb].
  fold (candidate e (w_db w) identity type payload previousOwner). fold sta.
  pose proof (validateSegment_same_chain e (w_db w) sta
                {| capsTracker := w_tracker w; skipLivenessCheck := true |})
    as Hsame.
  destruct (validateSegment e (w_db w) sta _)
    as [[validation db1] tracker1].
  cbn [fst snd] in Hsame.
  exists validation, db1, tracker1.
  split; [reflexivity |]. split; [exact Hsame |].
  destruct validation as [| rule reason message]; [| reflexivity].
  unfold appendSTA.
  destruct (append_adds db1 sta) as [db3 |]; [| reflexivity].
  destruct (env_tx_open e); reflexivity.
Qed.

(** The validation and the candidate segment do not depend on what
    becomes of the transaction. *)
Lemma with_tx_validation e b db segment options :
  validateSegment (with_tx e b) db segment options
  = validateSegment e db segment options.
Proof. reflexivity. Qed.

Lemma with_tx_candidate e b db identity type payload previousOwner :
  candidate (with_tx e b) db identity type payload previousOwner
  = candidate e db identity type payload previousOwner.
Proof. reflexivity. Qed.

Lemma rows_added_not_same_chain (db db' : DB) (sta : Segment) :
  rows_added db db' sta -> ~ same_chain db db'.
Proof.
  intros (Hfree & Hsc & _) (_ & _ & _ & Hsame & _).
  rewrite Hsame in Hsc.
  assert (H : state_chain db !! s_seq sta = Some sta).
  { rewrite Hsc at 1. apply lookup_insert_eq. }
  congruence.
Qed.

Lemma append_adds_rows (db db3 : DB) (sta : Segment) :
  append_adds db sta = Some db3 -> rows_added db db3 sta /\ meta_kept db db3.
Proof.
  intros Ha. apply append_adds_Some in Ha.
  unfold rows_added, meta_kept. tauto.
Qed.

Lemma rows_added_same_chain (db db1 db' : DB) (sta : Segment) :
  same_chain db db1 -> rows_added db1 db' sta -> rows_added db db' sta.
Proof.
  unfold rows_added. intros (_ & _ & _ & -> & -> & ->). tauto.
Qed.

Lemma meta_kept_same_chain (db db1 db' : DB) :
  same_chain db db1 -> meta_kept db1 db' -> meta_kept db db'.
Proof.
  unfold meta_kept. intros (-> & -> & -> & _). tauto.
Qed.

(** What an accepted commit has written *)
Lemma successful_commit_facts (e : Env) (w : World) (type : string)
    (payload : JVal) (previousOwner : option string) (identity : Identity) :
  sm_identity (w_state w) = Some identity ->
  ok (fst (commitAction e w type payload previousOwner)) = true ->
  let sta := candidate e (w_db w) identity type payload previousOwner in
  let db' := w_db (snd (commitAction e w type payload previousOwner)) in
  state_chain db' = <[s_seq sta := sta]> (state_chain (w_db w))
  /\ getChainLen db' = s_seq sta.
Proof.
  intros Hid Hok sta db'. subst db'. revert Hok.
  destruct (sm_db (w_state w)) eqn:Hdb.
  2:{ unfold commitAction. rewrite Hdb. cbn. discriminate. }
  destruct (commitAction_course e w type payload previousOwner identity
              Hdb Hid) as (validation & db1 & tracker1 & _ & Hsame & Hrun).
  fold sta in Hrun. cbv zeta in Hrun.
  destruct validation as [| rule reason message];
    [| rewrite Hrun; cbn; discriminate].
  destruct (append_adds db1 sta) as [db3 |] eqn:Ha;
    [| rewrite Hrun; cbn; discriminate].
  destruct (env_tx_open e); [| rewrite Hrun; cbn; discriminate].
  rewrite Hrun. cbn [fst snd w_db]. intros _.
  apply append_adds_Some in Ha. destruct Ha as (_ & _ & Hsc & _).
  destruct Hsame as (_ & _ & _ & Hsc1 & _).
  cbn [put_head state_chain]. rewrite Hsc, Hsc1. auto.
Qed.

(** C4 (what the code does): the writes of a commit are not atomic. A
    commit that reports success has stored the signed segment under its
    sequence number, its nonce with the timestamp and, for a message-bearing
    type, the message projection, and has set chain_head to
    SHA256(canonical(segment-without-signature) + "|" + signature) and
    chain_len to the segment's seq. A commit that reports failure has
    either written none of these, or, when the transaction has committed
    before the digest of the new head was there, has stored the three rows
    and left chain_head and chain_len as they were: that is what becomes of
    every call that succeeds when the transaction stays open. The segment
    continues the chain (seq = chain_len + 1, prev_hash = chain head, so 1
    and GENESIS on an empty chain). *)
Theorem append_is_not_atomic (e : Env) (w : World) (type : string)
    (payload : JVal) (previousOwner : option string) (identity : Identity) :
  sm_identity (w_state w) = Some identity ->
  let sta := candidate e (w_db w) identity type payload previousOwner in
  let r := fst (commitAction e w type payload previousOwner) in
  let db' := w_db (snd (commitAction e w type payload previousOwner)) in
  (ok r = true ->
     env_tx_open e = true
     /\ rows_added (w_db w) db' sta
     /\ meta_chain_head db' = Some (block_hash sta)
     /\ meta_chain_len db' = Some (s_seq sta)
     /\ getChainHead db' = block_hash sta
     /\ getChainLen db' = s_seq sta
     /\ r_seq r = Some (s_seq sta)
     /\ r_head r = Some (block_hash sta))
  /\ (ok r = false ->
      same_chain (w_db w) db'
      \/ (env_tx_open e = false
          /\ r_reason r = Some "append_error"%string
          /\ rows_added (w_db w) db' sta
          /\ meta_kept (w_db w) db'))
  /\ (ok (fst (commitAction (with_tx e true) w type payload previousOwner))
      = true ->
      env_tx_open e = false ->
      ok r = false
      /\ r_reason r = Some "append_error"%string
      /\ rows_added (w_db w) db' sta
      /\ meta_kept (w_db w) db'
      /\ ~ same_chain (w_db w) db')
  /\ s_seq sta = getChainLen (w_db w) + 1
  /\ s_prev_hash sta = getChainHead (w_db w)
  /\ s_signature sta =
       Some (env_sign e (id_privateKey identity) (canonicalize (signable_obj sta)))
  /\ (getChainLen (w_db w) = 0 -> getChainHead (w_db w) = GENESIS_HASH ->
      s_seq sta = 1 /\ s_prev_hash sta = "GENESIS"%string).
Proof.
  intros Hid sta r db'.
  assert (Hseq : s_seq sta = getChainLen (w_db w) + 1) by reflexivity.
  assert (Hprev : s_prev_hash sta = getChainHead (w_db w)) by reflexivity.
  assert (Hoff : sm_db (w_state w) = false ->
                 ok r = false /\ db' = w_db w).
  { intros Hdb. subst r db'. unfold commitAction. rewrite Hdb. cbn. auto. }
  split; [| split; [| split; [| split; [exact Hseq | split;
             [exact Hprev | split; [reflexivity |]]]]]].
  - (* success *)
    destruct (sm_db (w_state w)) eqn:Hdb.
    2:{ destruct (Hoff eq_refl) as [-> _]. discriminate. }
    destruct (commitAction_course e w type payload previousOwner identity
                Hdb Hid) as (validation & db1 & tracker1 & _ & Hsame & Hrun).
    fold sta in Hrun. cbv zeta in Hrun. subst r db'.
    destruct validation as [| rule reason message];
      [| rewrite Hrun; cbn; discriminate].
    destruct (append_adds db1 sta) as [db3 |] eqn:Ha;
      [| rewrite Hrun; cbn; discriminate].
    destruct (env_tx_open e); [| rewrite Hrun; cbn; discriminate].
    rewrite Hrun. cbn [fst snd w_db ok r_seq r_head]. intros _.
    destruct (append_adds_rows _ _ _ Ha) as [Hrows _].
    split; [reflexivity |]. split.
    { apply (rows_added_same_chain _ db1); [exact Hsame |].
      unfold rows_added in *. cbn. exact Hrows. }
    split; [reflexivity |]. split; [reflexivity |].
    split; [apply getChainHead_block_hash; reflexivity |].
    repeat split.
  - (* failure *)
    destruct (sm_db (w_state w)) eqn:Hdb.
    2:{ destruct (Hoff eq_refl) as [_ ->]. intros _. left.
        apply same_chain_refl. }
    destruct (commitAction_course e w type payload previousOwner identity
                Hdb Hid) as (validation & db1 & tracker1 & _ & Hsame & Hrun).
    fold sta in Hrun. cbv zeta in Hrun. subst r db'.
    destruct validation as [| rule reason message];
      [| rewrite Hrun; intros _; left; exact Hsame].
    destruct (append_adds db1 sta) as [db3 |] eqn:Ha;
      [| rewrite Hrun; intros _; left; exact Hsame].
    destruct (env_tx_open e); [rewrite Hrun; cbn; discriminate |].
    rewrite Hrun. cbn [fst snd w_db r_reason failure]. intros _. right.
    destruct (append_adds_rows _ _ _ Ha) as [Hrows Hmeta].
    split; [reflexivity |]. split; [reflexivity |]. split.
    + apply (rows_added_same_chain _ db1); assumption.
    + apply (meta_kept_same_chain _ db1); assumption.
  - (* the call that succeeds with the transaction open *)
    intros Hopen Hclosed.
    destruct (sm_db (w_state w)) eqn:Hdb.
    2:{ revert Hopen. unfold commitAction. rewrite Hdb. cbn. discriminate. }
    destruct (commitAction_course (with_tx e true) w type payload
                previousOwner identity Hdb Hid)
      as (validation & db1 & tracker1 & Hv & _ & Hrun1).
    destruct (commitAction_course e w type payload previousOwner identity
                Hdb Hid) as (validation' & db1' & tracker1' & Hv' & Hsame & Hrun).
    rewrite with_tx_validation, with_tx_candidate in Hv.
    fold sta in Hv, Hv'. rewrite Hv in Hv'. injection Hv' as <- <- <-.
    rewrite with_tx_candidate in Hrun1. fold sta in Hrun1, Hrun.
    cbv zeta in Hrun1, Hrun. subst r db'.
    destruct validation as [| rule reason message];
      [| rewrite Hrun1 in Hopen; discriminate Hopen].
    destruct (append_adds db1 sta) as [db3 |] eqn:Ha;
      [| rewrite Hrun1 in Hopen; discriminate Hopen].
    rewrite Hclosed in Hrun. rewrite Hrun.
    cbn [fst snd w_db ok r_reason failure].
    destruct (append_adds_rows _ _ _ Ha) as [Hrows Hmeta].
    assert (Hrows' : rows_added (w_db w) db3 sta)
      by (apply (rows_added_same_chain _ db1); assumption).
    split; [reflexivity |]. split; [reflexivity |].
    split; [exact Hrows' |]. split.
    + apply (meta_kept_same_chain _ db1); assumption.
    + apply (rows_added_not_same_chain _ _ sta). exact Hrows'.
  - intros Hlen Hhead. rewrite Hseq, Hprev, Hlen, Hhead. split; reflexivity.
Qed.

(** The first commit of Scenario A when the transaction has committed
    before the digest is there: the commit reports append_error, the
    segment, its nonce and the message row are stored, and the chain is
    still empty with the head GENESIS; with the transaction open the head
    becomes the SHA-256 of the canonical text, a bar and the signature. *)
Lemma append_is_not_atomic_witness :
  let e := with_tx (Fixture.env Fixture.t0 Fixture.nonce1) false in
  let run := commitAction e Fixture.fresh CHAT_USER Fixture.hello None in
  ok (fst run) = false
  /\ r_reason (fst run) = Some "append_error"%string
  /\ state_chain (w_db (snd run)) !! 1 = Some Run.seg1
  /\ sync_log (w_db (snd run)) !! Fixture.nonce1 = Some Fixture.t0
  /\ messages (w_db (snd run)) !! "1:000102030405060708090a0b0c0d0e0f"%string
     = Some {| m_id := "1:000102030405060708090a0b0c0d0e0f";
               m_seq := 1;
               m_ts := 1700000000000;
               m_type := "chat.user";
               m_peer := JStr "hakim";
               m_dir := Some "out"%string;
               m_tag := None;
               m_text := JStr "hello";
               m_hid := "HID-A1B2C3D4";
               m_decision := JNull;
               m_outcome := JNull;
               m_scores := JNull;
               m_bubbles := JNull |}
  /\ meta_chain_head (w_db (snd run)) = None
  /\ meta_chain_len (w_db (snd run)) = None
  /\ getChainLen (w_db (snd run)) = 0
  /\ getChainHead (w_db (snd run)) = "GENESIS"%string
  /\ ~ same_chain (w_db Fixture.fresh) (w_db (snd run))
  /\ getChainHead
       (w_db (snd (commitAction (with_tx e true) Fixture.fresh CHAT_USER
                     Fixture.hello None)))
     = "069c00db2175825bfac80f01e39350414931b8391a8777efcfd59979f6f21241"%string.
Proof.
  intros e run.
  assert (Hopen : ok (fst (commitAction (with_tx e true) Fixture.fresh
                             CHAT_USER Fixture.hello None)) = true)
    by (vm_compute; reflexivity).
  destruct (append_is_not_atomic e Fixture.fresh CHAT_USER Fixture.hello None
              Fixture.alice eq_refl) as (_ & _ & Hrace & _).
  destruct (Hrace Hopen eq_refl) as (Hfail & Hreason & _ & _ & Hdiff).
  split; [exact Hfail |]. split; [exact Hreason |].
  split; [vm_compute; reflexivity |].
  split; [vm_compute; reflexivity |].
  split; [vm_compute; reflexivity |].
  split; [vm_compute; reflexivity |].
  split; [vm_compute; reflexivity |].
  split; [vm_compute; reflexivity |].
  split; [vm_compute; reflexivity |].
  split; [exact Hdiff |].
  vm_compute. reflexivity.
Defined.

(** Scenario A: the first commit on an empty database, when the
    transaction stays open *)
Example first_commit_on_empty_chain :
  state_chain (w_db Run.after_hello) !! 1 = Some Run.seg1
  /\ s_seq Run.seg1 = 1
  /\ s_prev_hash Run.seg1 = "GENESIS"%string
  /\ sync_log (w_db Run.after_hello) !! Fixture.nonce1 = Some Fixture.t0
  /\ getChainLen (w_db Run.after_hello) = 1
  /\ getChainHead (w_db Run.after_hello) = block_hash Run.seg1
  /\ getChainHead (w_db Run.after_hello)
     = "069c00db2175825bfac80f01e39350414931b8391a8777efcfd59979f6f21241"%string.
Proof. vm_compute. repeat split. Qed.

(** ** The read-only latch *)

Lemma getCurrentCaps_latch now db ro cache hid :
  getCurrentCaps now (set_meta_read_only db ro) cache hid
  = let '(view, db', cache') := getCurrentCaps now db cache hid in
    (view, set_meta_read_only db' ro, cache').
Proof.
  unfold getCurrentCaps.
  change (loadCaps (set_meta_read_only db ro) hid) with (loadCaps db hid).
  destruct (applyResets (loadCaps db hid) now) as [c reset].
  destruct (cache !! hid) as [cached |].
  - destruct (negb (needsReset cached now)); [reflexivity |].
    destruct reset; reflexivity.
  - destruct reset; reflexivity.
Qed.

Lemma validateCaps_latch now db ro tracker segment :
  validateCaps now (set_meta_read_only db ro) tracker segment
  = let '(r, db', tracker') := validateCaps now db tracker segment in
    (r, set_meta_read_only db' ro, tracker').
Proof.
  unfold validateCaps. destruct tracker as [cache |]; [| reflexivity].
  rewrite getCurrentCaps_latch.
  destruct (getCurrentCaps now db cache (s_current_owner segment))
    as [[view db'] cache']. reflexivity.
Qed.

(** The validator does not read the latch. *)
Lemma validateSegment_latch e db ro segment options :
  validateSegment e (set_meta_read_only db ro) segment options
  = let '(r, db', tracker') := validateSegment e db segment options in
    (r, set_meta_read_only db' ro, tracker').
Proof.
  unfold validateSegment.
  destruct (validateSegmentStructure segment); [| reflexivity].
  change (validateCounterRelationship (set_meta_read_only db ro) segment)
    with (validateCounterRelationship db segment).
  destruct (validateCounterRelationship db segment); [| reflexivity].
  rewrite validateCaps_latch.
  destruct (validateCaps (env_now_caps e) db (capsTracker options) segment)
    as [[rule2 db2] tracker2].
  destruct rule2; reflexivity.
Qed.

(** Neither do the requests of [appendSTA]. *)
Lemma append_adds_latch db ro sta :
  append_adds (set_meta_read_only db ro) sta
  = option_map (fun db' => set_meta_read_only db' ro) (append_adds db sta).
Proof.
  unfold append_adds, add_state_chain, add_sync_log, add_message.
  cbn [set_meta_read_only state_chain sync_log messages].
  destruct (state_chain db !! s_seq sta); [reflexivity |].
  destruct (existsb _ _); [reflexivity |].
  cbn [sync_log]. destruct (sync_log db !! s_nonce sta); [reflexivity |].
  destruct (isMessageType (s_type sta)); [| reflexivity].
  cbn [messages].
  destruct (messages db !! m_id (createMessageProjection sta)); reflexivity.
Qed.

(** [StateManager.commitAction] runs on a latched database as on the
    same database without the latch. *)
Lemma commitAction_latch e w ro type payload previousOwner :
  commitAction e (with_latch w ro) type payload previousOwner
  = (fst (commitAction e w type payload previousOwner),
     with_latch (snd (commitAction e w type payload previousOwner)) ro).
Proof.
  unfold commitAction, with_latch. cbn [w_state w_db w_tracker].
  destruct (sm_db (w_state w)); cbn [negb]; [| reflexivity].
  destruct (sm_identity (w_state w)) as [identity |]; [| reflexivity].
  change (getChainHead (set_meta_read_only (w_db w) ro))
    with (getChainHead (w_db w)).
  change (getChainLen (set_meta_read_only (w_db w) ro))
    with (getChainLen (w_db w)).
  set (sta := signSegment e _ _).
  rewrite validateSegment_latch.
  destruct (validateSegment e (w_db w) sta _)
    as [[validation db1] tracker1].
  destruct validation as [| rule reason message]; [| reflexivity].
  unfold appendSTA. rewrite append_adds_latch.
  destruct (append_adds db1 sta) as [db3 |]; [| reflexivity].
  cbn [option_map]. destruct (env_tx_open e); reflexivity.
Qed.

(** The gate of the application context *)
Lemma context_refuses (e : Env) (ctx : Context) (type : string)
    (payload : JVal) :
  readOnly ctx = true ->
  context_commitAction e ctx type payload
  = (failure "read_only_mode" None, ctx).
Proof. unfold context_commitAction. intros ->. reflexivity. Qed.

(** C2 (what the code does): [StateManager.commitAction] never reads the
    latch. Whatever the meta key read_only holds, it validates, appends
    and answers as it does without the latch, and the latch stays as it
    is; only the commitAction of the application context refuses, on the
    flag that [initializeApp] read when it built the context. So on a
    database with the latch set, the first commit of Scenario A made on
    the state manager succeeds and moves the head, and so does the same
    commit made through a context that was built before the latch was
    set. *)
Theorem commit_ignores_read_only_latch :
  (forall (e : Env) (w : World) (ro : ReadOnly) (type : string)
          (payload : JVal) (previousOwner : option string),
      commitAction e (with_latch w ro) type payload previousOwner
      = (fst (commitAction e w type payload previousOwner),
         with_latch (snd (commitAction e w type payload previousOwner)) ro))
  /\ (forall (e : Env) (w : World) (type : string) (payload : JVal),
        context_commitAction e (mkContext true w) type payload
        = (failure "read_only_mode" None, mkContext true w))
  /\ (let e := Fixture.env Fixture.t0 Fixture.nonce1 in
      let run := commitAction e Run.latched CHAT_USER Fixture.hello None in
      let late := context_commitAction e
                    (mkContext (readOnly (makeContext Fixture.fresh))
                       Run.latched)
                    CHAT_USER Fixture.hello in
      isReadOnlyMode (w_db Run.latched) = true
      /\ fst run
         = mkResult true (Some 1)
             (Some "069c00db2175825bfac80f01e39350414931b8391a8777efcfd59979f6f21241"%string)
             None None
      /\ state_chain (w_db (snd run)) !! 1 = Some Run.seg1
      /\ sync_log (w_db (snd run)) !! Fixture.nonce1 = Some Fixture.t0
      /\ meta_chain_len (w_db (snd run)) = Some 1
      /\ isReadOnlyMode (w_db (snd run)) = true
      /\ ok (fst late) = true
      /\ fst (context_commitAction e (makeContext Run.latched) CHAT_USER
                Fixture.hello)
         = failure "read_only_mode" None).
Proof.
  split; [| split].
  - intros. apply commitAction_latch.
  - reflexivity.
  - vm_compute. repeat split.
Qed.
(** ** Caps rows and records *)

Lemma period_key_inj (p h h' : string) :
  period_key p h = period_key p h' -> h = h'.
Proof.
  unfold period_key. intros H.
  apply (String.app_inj p) in H. apply (String.app_inj ":") in H. exact H.
Qed.

Ltac key_neq :=
  match goal with
  | |- period_key ?p ?h <> period_key ?p ?h' =>
      let E := fresh in intros E; apply period_key_inj in E; congruence
  | |- period_key _ _ <> period_key _ _ =>
      unfold period_key; cbn; discriminate
  end.

Ltac caps_lookup :=
  repeat (rewrite lookup_insert_eq || rewrite lookup_insert_ne by key_neq).

Lemma loadCaps_saveCaps (db : DB) (hid : string) (c : CapsRecord) :
  loadCaps (saveCaps db hid c) hid = c.
Proof.
  destruct c. unfold loadCaps, saveCaps, set_caps. cbn [caps].
  caps_lookup. reflexivity.
Qed.

Lemma loadCaps_saveCaps_other (db : DB) (hid hid' : string) (c : CapsRecord) :
  hid <> hid' -> loadCaps (saveCaps db hid c) hid' = loadCaps db hid'.
Proof.
  intros Hne. unfold loadCaps, saveCaps, set_caps. cbn [caps].
  caps_lookup. reflexivity.
Qed.

Lemma loadCaps_same_caps (db db' : DB) (hid : string) :
  caps db' = caps db -> loadCaps db' hid = loadCaps db hid.
Proof. unfold loadCaps. intros ->. reflexivity. Qed.

Lemma applyResets_none (c : CapsRecord) (now : Z) :
  snd (applyResets c now) = false -> fst (applyResets c now) = c.
Proof.
  destruct c. unfold applyResets. cbn.
  intros H. apply orb_false_iff in H. destruct H as [H Hy].
  apply orb_false_iff in H. destruct H as [Hd Hm].
  rewrite Hd, Hm, Hy. reflexivity.
Qed.

Lemma needsReset_applyResets (c : CapsRecord) (now : Z) :
  snd (applyResets c now) = needsReset c now.
Proof. reflexivity. Qed.

(** What a read does to the stored record of [hid], to the cache and to
    the other identities, whatever the cache held *)
Lemma getCurrentCaps_stored (now : Z) (db : DB) (cache : gmap string CapsRecord)
    (hid : string) :
  let db1 := snd (fst (getCurrentCaps now db cache hid)) in
  (loadCaps db1 hid = loadCaps db hid
   \/ loadCaps db1 hid = fst (applyResets (loadCaps db hid) now))
  /\ (forall h, h <> hid -> loadCaps db1 h = loadCaps db h).
Proof.
  unfold getCurrentCaps.
  destruct (applyResets (loadCaps db hid) now) as [c reset] eqn:E.
  assert (Hreload :
    let db1 := if reset then saveCaps db hid c else db in
    (loadCaps db1 hid = loadCaps db hid \/ loadCaps db1 hid = c)
    /\ (forall h, h <> hid -> loadCaps db1 h = loadCaps db h)).
  { destruct reset; cbn zeta.
    - split; [right; apply loadCaps_saveCaps |].
      intros h Hne. apply loadCaps_saveCaps_other. congruence.
    - split; [left; reflexivity | reflexivity]. }
  destruct (cache !! hid) as [cached |]; cbn [fst snd].
  - destruct (negb (needsReset cached now)); cbn [fst snd].
    + split; [left; reflexivity | reflexivity].
    + exact Hreload.
  - exact Hreload.
Qed.

Lemma applyResets_counters (c : CapsRecord) (now : Z) :
  let c' := fst (applyResets c now) in
  total c' = total c
  /\ (daily c' = daily c \/ daily c' = 0)
  /\ (monthly c' = monthly c \/ monthly c' = 0)
  /\ (yearly c' = yearly c \/ yearly c' = 0).
Proof.
  unfold applyResets. cbn.
  destruct (dailyReset c <=? now), (monthlyReset c <=? now),
    (yearlyReset c <=? now); tauto.
Qed.

(** ** Caps in the commit path *)

(** A commit never increments a caps counter: for every identity the
    persisted total is what it was before the commit, and each of daily,
    monthly and yearly is what it was or has been reset to zero by the
    read that rule 2 makes. *)
Lemma commit_keeps_caps_counters (e : Env) (w : World) (type : string)
    (payload : JVal) (previousOwner : option string) (hid : string) :
  let before := loadCaps (w_db w) hid in
  let after :=
    loadCaps (w_db (snd (commitAction e w type payload previousOwner))) hid in
  total after = total before
  /\ (daily after = daily before \/ daily after = 0)
  /\ (monthly after = monthly before \/ monthly after = 0)
  /\ (yearly after = yearly before \/ yearly after = 0).
Proof.
  cbv zeta.
  assert (Hkeep : forall c : CapsRecord,
             total c = total c /\ (daily c = daily c \/ daily c = 0)
             /\ (monthly c = monthly c \/ monthly c = 0)
             /\ (yearly c = yearly c \/ yearly c = 0)) by (intros; tauto).
  assert (Hval : forall sta,
     let db1 := snd (fst (validateSegment e (w_db w) sta
                  {| capsTracker := w_tracker w; skipLivenessCheck := true |})) in
     total (loadCaps db1 hid) = total (loadCaps (w_db w) hid)
     /\ (daily (loadCaps db1 hid) = daily (loadCaps (w_db w) hid)
         \/ daily (loadCaps db1 hid) = 0)
     /\ (monthly (loadCaps db1 hid) = monthly (loadCaps (w_db w) hid)
         \/ monthly (loadCaps db1 hid) = 0)
     /\ (yearly (loadCaps db1 hid) = yearly (loadCaps (w_db w) hid)
         \/ yearly (loadCaps db1 hid) = 0)).
  { intros sta. unfold validateSegment. cbn [capsTracker skipLivenessCheck].
    destruct (validateSegmentStructure sta); [| apply Hkeep].
    destruct (validateCounterRelationship (w_db w) sta); [| apply Hkeep].
    unfold validateCaps.
    destruct (w_tracker w) as [cache |]; [| apply Hkeep].
    pose proof (getCurrentCaps_stored (env_now_caps e) (w_db w) cache
                  (s_current_owner sta)) as Hst.
    destruct (getCurrentCaps (env_now_caps e) (w_db w) cache
                (s_current_owner sta)) as [[view db'] cache'].
    cbn [fst snd] in Hst. destruct Hst as [Hown Hother].
    assert (Hdb' :
      total (loadCaps db' hid) = total (loadCaps (w_db w) hid)
      /\ (daily (loadCaps db' hid) = daily (loadCaps (w_db w) hid)
          \/ daily (loadCaps db' hid) = 0)
      /\ (monthly (loadCaps db' hid) = monthly (loadCaps (w_db w) hid)
          \/ monthly (loadCaps db' hid) = 0)
      /\ (yearly (loadCaps db' hid) = yearly (loadCaps (w_db w) hid)
          \/ yearly (loadCaps db' hid) = 0)).
    { destruct (String.eqb_spec hid (s_current_owner sta)) as [-> | Hne].
      - destruct Hown as [-> | ->]; [apply Hkeep | apply applyResets_counters].
      - rewrite (Hother hid Hne). apply Hkeep. }
    destruct (if DAILY_CAP <=? cv_daily view then _ else _); exact Hdb'. }
  unfold commitAction.
  destruct (sm_db (w_state w)); cbn [negb]; [| apply Hkeep].
  destruct (sm_identity (w_state w)) as [identity |]; [| apply Hkeep].
  set (sta := signSegment e _ _).
  specialize (Hval sta).
  destruct (validateSegment e (w_db w) sta _) as [[validation db1] tracker1].
  cbn [fst snd] in Hval.
  destruct validation as [| rule reason message]; [| exact Hval].
  unfold appendSTA.
  destruct (append_adds db1 sta) as [db3 |] eqn:Ha; cbn [fst snd w_db].
  - apply append_adds_Some in Ha.
    destruct Ha as (_ & _ & _ & _ & _ & _ & _ & _ & Hcaps).
    destruct (env_tx_open e); cbn [fst snd w_db].
    + rewrite (loadCaps_same_caps db1 (put_head db3 _ _) hid Hcaps).
      exact Hval.
    + rewrite (loadCaps_same_caps db1 db3 hid Hcaps). exact Hval.
  - exact Hval.
Qed.

(** C1 (what the code does): no commit increments a caps counter. For
    every commit and identity the persisted total is unchanged and each of
    daily, monthly and yearly is unchanged or reset to zero; so the
    successful chat.user commit by alice, a cap-affecting type, leaves her
    counters at zero in the store and in the tracker's cache, where
    [incrementCaps] would have made them one. *)
Theorem commit_never_increments_caps :
  (forall (e : Env) (w : World) (type : string) (payload : JVal)
          (previousOwner : option string) (hid : string),
      let before := loadCaps (w_db w) hid in
      let after :=
        loadCaps (w_db (snd (commitAction e w type payload previousOwner)))
          hid in
      total after = total before
      /\ (daily after = daily before \/ daily after = 0)
      /\ (monthly after = monthly before \/ monthly after = 0)
      /\ (yearly after = yearly before \/ yearly after = 0))
  /\ (let run := commitAction (Fixture.env Fixture.t0 Fixture.nonce1)
                   Fixture.fresh CHAT_USER Fixture.hello None in
      let stored := loadCaps (w_db (snd run)) "HID-A1B2C3D4" in
      let cached :=
        match w_tracker (snd run) with
        | Some cache => cache !! "HID-A1B2C3D4"%string
        | None => None
        end in
      let incremented :=
        incrementCaps Fixture.t0 emptyDB ∅ "HID-A1B2C3D4" 1 in
      affectsCaps CHAT_USER = true
      /\ ok (fst run) = true
      /\ (daily stored, monthly stored, yearly stored, total stored)
         = (0, 0, 0, 0)
      /\ option_map total cached = Some 0
      /\ option_map daily cached = Some 0
      /\ cv_daily (inc_caps (fst (fst incremented))) = 1
      /\ total (loadCaps (snd (fst incremented)) "HID-A1B2C3D4") = 1).
Proof.
  split; [exact commit_keeps_caps_counters |].
  vm_compute. repeat split.
Qed.

(** Scenario D of the specification: commits by one author at 0, 200,
    1200, 1400 and 2400 ms succeed, fail, succeed, fail and succeed. *)
Example scenario_D_rate_limit :
  let commit := fun w dt nonce =>
    commitAction (Fixture.env (Fixture.t0 + dt) nonce) w CHAT_USER
      Fixture.hello None in
  let r1 := commit Fixture.fresh 0 Fixture.nonce1 in
  let r2 := commit (snd r1) 200 Fixture.nonce2 in
  let r3 := commit (snd r2) 1200 Session.nonce3 in
  let r4 := commit (snd r3) 1400 Session.nonce4 in
  let r5 := commit (snd r4) 2400 Fixture.nonce2 in
  (ok (fst r1), r_reason (fst r2), ok (fst r3), r_reason (fst r4),
   ok (fst r5), r_seq (fst r5))
  = (true, Some "rate_limit", true, Some "rate_limit", true, Some 3)%string.
Proof. vm_compute. reflexivity. Qed.

(** ** The calendar *)

Ltac Zify.zify_post_hook ::= Z.to_euclidean_division_equations.

Lemma DaysInYear_cases y :
  EcmaDate.DaysInYear y = 365 \/ EcmaDate.DaysInYear y = 366.
Proof. unfold EcmaDate.DaysInYear. break_match; auto. Qed.

Lemma DayFromYear_step y :
  EcmaDate.DayFromYear (y + 1)
  = EcmaDate.DayFromYear y + EcmaDate.DaysInYear y.
Proof.
  unfold EcmaDate.DayFromYear, EcmaDate.DaysInYear.
  destruct (Z.eqb_spec (y mod 4) 0); cbn [negb];
    [destruct (Z.eqb_spec (y mod 100) 0); cbn [negb];
       [destruct (Z.eqb_spec (y mod 400) 0); cbn [negb] |] |]; lia.
Qed.

Lemma DayFromYear_mono y y' :
  y <= y' -> EcmaDate.DayFromYear y <= EcmaDate.DayFromYear y'.
Proof. unfold EcmaDate.DayFromYear. lia. Qed.

(** [YearFromTime t] is the year whose days contain the day of [t]. *)
Lemma YearFromTime_spec t :
  EcmaDate.DayFromYear (EcmaDate.YearFromTime t) <= EcmaDate.Day t
  < EcmaDate.DayFromYear (EcmaDate.YearFromTime t + 1).
Proof.
  unfold EcmaDate.YearFromTime. set (d := EcmaDate.Day t).
  set (y := 1970 + 400 * d / 146097).
  assert (Hy : 146097 * (y - 1970) <= 400 * d < 146097 * (y - 1970) + 146097)
    by (subst y; lia).
  clearbody y d.
  destruct (Z.leb_spec (EcmaDate.DayFromYear (y + 1)) d) as [H1 | H1].
  - split; [exact H1 |]. unfold EcmaDate.DayFromYear in *. lia.
  - destruct (Z.ltb_spec d (EcmaDate.DayFromYear y)) as [H2 | H2].
    + replace (y - 1 + 1) with y by lia. split; [| exact H2].
      unfold EcmaDate.DayFromYear in *. lia.
    + lia.
Qed.

Lemma DayWithinYear_range t :
  0 <= EcmaDate.DayWithinYear t
  < EcmaDate.DaysInYear (EcmaDate.YearFromTime t).
Proof.
  unfold EcmaDate.DayWithinYear.
  pose proof (YearFromTime_spec t) as H.
  rewrite DayFromYear_step in H. lia.
Qed.

Lemma InLeapYear_eq t :
  EcmaDate.InLeapYear t = EcmaDate.DaysInYear (EcmaDate.YearFromTime t) - 365.
Proof.
  unfold EcmaDate.InLeapYear.
  destruct (DaysInYear_cases (EcmaDate.YearFromTime t)) as [-> | ->];
    reflexivity.
Qed.

(** The months of a year, by their first day *)
Lemma monthStart_cases m l :
  0 <= m < 12 ->
  (m = 0 /\ EcmaDate.monthStart m l = 0)
  \/ (m = 1 /\ EcmaDate.monthStart m l = 31)
  \/ (m = 2 /\ EcmaDate.monthStart m l = 59 + l)
  \/ (m = 3 /\ EcmaDate.monthStart m l = 90 + l)
  \/ (m = 4 /\ EcmaDate.monthStart m l = 120 + l)
  \/ (m = 5 /\ EcmaDate.monthStart m l = 151 + l)
  \/ (m = 6 /\ EcmaDate.monthStart m l = 181 + l)
  \/ (m = 7 /\ EcmaDate.monthStart m l = 212 + l)
  \/ (m = 8 /\ EcmaDate.monthStart m l = 243 + l)
  \/ (m = 9 /\ EcmaDate.monthStart m l = 273 + l)
  \/ (m = 10 /\ EcmaDate.monthStart m l = 304 + l)
  \/ (m = 11 /\ EcmaDate.monthStart m l = 334 + l).
Proof.
  intros Hm.
  assert (m = 0 \/ m = 1 \/ m = 2 \/ m = 3 \/ m = 4 \/ m = 5 \/ m = 6
          \/ m = 7 \/ m = 8 \/ m = 9 \/ m = 10 \/ m = 11) as H by lia.
  repeat (destruct H as [-> | H]); try subst m; cbn; tauto.
Qed.

Lemma MakeDay_first y m :
  0 <= m < 12 ->
  EcmaDate.MakeDay y m 1
  = EcmaDate.DayFromYear y
    + EcmaDate.monthStart m (EcmaDate.DaysInYear y - 365).
Proof.
  intros Hm. unfold EcmaDate.MakeDay.
  replace (m / 12) with 0 by lia. replace (m mod 12) with m by lia.
  replace (y + 0) with y by lia. lia.
Qed.

Lemma MakeDay_december_next y :
  EcmaDate.MakeDay y 12 1 = EcmaDate.MakeDay (y + 1) 0 1.
Proof.
  unfold EcmaDate.MakeDay.
  change (12 / 12) with 1. change (12 mod 12) with 0.
  change (0 / 12) with 0. change (0 mod 12) with 0.
  replace (y + 1 + 0) with (y + 1) by lia. reflexivity.
Qed.

(** [MonthFromTime t] is the month whose days contain the day of [t]. *)
Lemma MonthFromTime_spec t :
  let Y := EcmaDate.YearFromTime t in
  let M := EcmaDate.MonthFromTime t in
  0 <= M < 12
  /\ EcmaDate.MakeDay Y M 1 <= EcmaDate.Day t < EcmaDate.MakeDay Y (M + 1) 1.
Proof.
  cbv zeta.
  pose proof (DayWithinYear_range t) as Hd.
  pose proof (DaysInYear_cases (EcmaDate.YearFromTime t)) as Hl.
  assert (Hnext : forall M, 0 <= M < 12 ->
            EcmaDate.MakeDay (EcmaDate.YearFromTime t) (M + 1) 1
            = EcmaDate.DayFromYear (EcmaDate.YearFromTime t)
              + (if M =? 11
                 then 365 + (EcmaDate.DaysInYear (EcmaDate.YearFromTime t) - 365)
                 else EcmaDate.monthStart (M + 1)
                        (EcmaDate.DaysInYear (EcmaDate.YearFromTime t) - 365))).
  { intros M HM. destruct (Z.eqb_spec M 11) as [-> | Hne].
    - change (11 + 1) with 12. rewrite MakeDay_december_next.
      rewrite MakeDay_first by lia. rewrite DayFromYear_step.
      unfold EcmaDate.monthStart. change (0 =? 0) with true. cbv iota. lia.
    - apply MakeDay_first. lia. }
  unfold EcmaDate.MonthFromTime. rewrite InLeapYear_eq.
  unfold EcmaDate.DayWithinYear in *.
  set (Y := EcmaDate.YearFromTime t) in *.
  assert (Hd' : 0 <= EcmaDate.Day t - EcmaDate.DayFromYear Y
                < 365 + (EcmaDate.DaysInYear Y - 365)) by lia.
  assert (Hl' : EcmaDate.DaysInYear Y - 365 = 0
                \/ EcmaDate.DaysInYear Y - 365 = 1) by lia.
  assert (Hfirst : forall M, 0 <= M < 12 ->
            EcmaDate.MakeDay Y M 1
            = EcmaDate.DayFromYear Y
              + EcmaDate.monthStart M (EcmaDate.DaysInYear Y - 365))
    by (intros; apply MakeDay_first; assumption).
  set (l := EcmaDate.DaysInYear Y - 365) in *.
  set (D := EcmaDate.DayFromYear Y) in *.
  set (d := EcmaDate.Day t) in *.
  clearbody l D d. clear Hd Hl.
  repeat match goal with
         | |- context [if ?a <? ?b then _ else _] =>
             destruct (Z.ltb_spec a b)
         end;
    (split; [lia |]); rewrite Hnext by lia; rewrite Hfirst by lia;
    unfold EcmaDate.monthStart;
    repeat match goal with
           | |- context [if ?a =? ?b then _ else _] =>
               destruct (Z.eqb_spec a b); try lia
           end.
Qed.

Lemma getNextDailyReset_eq now :
  getNextDailyReset now = EcmaDate.msPerDay * (EcmaDate.Day now + 1).
Proof.
  unfold getNextDailyReset, EcmaDate.setUTCHours, EcmaDate.MakeDate,
    EcmaDate.MakeTime, EcmaDate.msPerDay. lia.
Qed.

Lemma getNextMonthlyReset_eq now :
  getNextMonthlyReset now
  = EcmaDate.msPerDay
    * EcmaDate.MakeDay (EcmaDate.YearFromTime now)
        (EcmaDate.MonthFromTime now + 1) 1.
Proof.
  unfold getNextMonthlyReset, EcmaDate.setUTCHours, EcmaDate.setUTCMonth,
    EcmaDate.getUTCMonth, EcmaDate.MakeDate, EcmaDate.MakeTime.
  generalize (EcmaDate.MakeDay (EcmaDate.YearFromTime now)
                (EcmaDate.MonthFromTime now + 1) 1).
  intros D. unfold EcmaDate.Day, EcmaDate.TimeWithinDay, EcmaDate.msPerDay. lia.
Qed.

Lemma getNextYearlyReset_eq now :
  getNextYearlyReset now
  = EcmaDate.msPerDay * EcmaDate.MakeDay (EcmaDate.YearFromTime now + 1) 0 1.
Proof.
  unfold getNextYearlyReset, EcmaDate.setUTCHours, EcmaDate.setUTCFullYear,
    EcmaDate.getUTCFullYear, EcmaDate.MakeDate, EcmaDate.MakeTime.
  generalize (EcmaDate.MakeDay (EcmaDate.YearFromTime now + 1) 0 1).
  intros D. unfold EcmaDate.Day, EcmaDate.TimeWithinDay, EcmaDate.msPerDay. lia.
Qed.

Lemma before_day d now :
  now < EcmaDate.msPerDay * d <-> EcmaDate.Day now < d.
Proof. unfold EcmaDate.Day, EcmaDate.msPerDay. lia. Qed.

(** The next daily reset is the first UTC midnight after [now]. *)
Lemma next_daily_boundary now :
  next_boundary is_day_start now (getNextDailyReset now).
Proof.
  rewrite getNextDailyReset_eq.
  unfold next_boundary, is_day_start, EcmaDate.Day, EcmaDate.msPerDay.
  split; [lia |]. split; [lia |]. intros t' Ht' Hlt. lia.
Qed.

Lemma MakeDay_january y : EcmaDate.MakeDay y 0 1 = EcmaDate.DayFromYear y.
Proof. rewrite MakeDay_first by lia. cbn. lia. Qed.

(** The next yearly reset is the first 1 January, 00:00 UTC, after [now]. *)
Lemma next_yearly_boundary now :
  next_boundary is_year_start now (getNextYearlyReset now).
Proof.
  rewrite getNextYearlyReset_eq.
  pose proof (YearFromTime_spec now) as [Hlo Hhi].
  split; [eexists; reflexivity |]. split.
  - apply before_day. rewrite MakeDay_january. exact Hhi.
  - intros t' [y' ->] Hlt. apply before_day in Hlt.
    rewrite !MakeDay_january in *.
    assert (EcmaDate.YearFromTime now + 1 <= y').
    { destruct (Z.le_gt_cases (EcmaDate.YearFromTime now + 1) y') as [? | Hgt];
        [assumption |].
      pose proof (DayFromYear_mono y' (EcmaDate.YearFromTime now)). lia. }
    pose proof (DayFromYear_mono (EcmaDate.YearFromTime now + 1) y').
    unfold EcmaDate.msPerDay. lia.
Qed.

Lemma monthStart_range m l :
  0 <= m < 12 -> 0 <= l <= 1 -> 0 <= EcmaDate.monthStart m l < 365 + l.
Proof.
  intros Hm Hl. destruct (monthStart_cases m l Hm) as
    [[_ ->] | [[_ ->] | [[_ ->] | [[_ ->] | [[_ ->] | [[_ ->] | [[_ ->]
    | [[_ ->] | [[_ ->] | [[_ ->] | [[_ ->] | [_ ->]]]]]]]]]]]]; lia.
Qed.

Lemma monthStart_mono m m' l :
  0 <= m <= m' -> m' < 12 -> 0 <= l <= 1 ->
  EcmaDate.monthStart m l <= EcmaDate.monthStart m' l.
Proof.
  intros Hm Hm' Hl.
  destruct (monthStart_cases m l ltac:(lia)) as
    [[? ->] | [[? ->] | [[? ->] | [[? ->] | [[? ->] | [[? ->] | [[? ->]
    | [[? ->] | [[? ->] | [[? ->] | [[? ->] | [? ->]]]]]]]]]]]];
  destruct (monthStart_cases m' l ltac:(lia)) as
    [[? ->] | [[? ->] | [[? ->] | [[? ->] | [[? ->] | [[? ->] | [[? ->]
    | [[? ->] | [[? ->] | [[? ->] | [[? ->] | [? ->]]]]]]]]]]]]; lia.
Qed.

(** Month starts are ordered as (year, month) pairs are. *)
Lemma month_start_mono y m y' m' :
  0 <= m < 12 -> 0 <= m' < 12 ->
  y < y' \/ (y = y' /\ m <= m') ->
  EcmaDate.MakeDay y m 1 <= EcmaDate.MakeDay y' m' 1.
Proof.
  intros Hm Hm' Hle. rewrite !MakeDay_first by assumption.
  pose proof (DaysInYear_cases y) as Hl.
  pose proof (DaysInYear_cases y') as Hl'.
  destruct Hle as [Hlt | [-> Hmm]].
  - pose proof (DayFromYear_mono (y + 1) y' ltac:(lia)) as Hmono.
    rewrite DayFromYear_step in Hmono.
    pose proof (monthStart_range m (EcmaDate.DaysInYear y - 365) Hm ltac:(lia)).
    pose proof (monthStart_range m' (EcmaDate.DaysInYear y' - 365) Hm'
                  ltac:(lia)).
    lia.
  - pose proof (monthStart_mono m m' (EcmaDate.DaysInYear y' - 365)
                  ltac:(lia) ltac:(lia) ltac:(lia)).
    lia.
Qed.

(** The next monthly reset is the first start of a month after [now]. *)
Lemma next_monthly_boundary now :
  next_boundary is_month_start now (getNextMonthlyReset now).
Proof.
  rewrite getNextMonthlyReset_eq.
  pose proof (MonthFromTime_spec now) as (HM & Hlo & Hhi). cbv zeta in *.
  set (Y := EcmaDate.YearFromTime now) in *.
  set (M := EcmaDate.MonthFromTime now) in *.
  assert (Hsucc : exists y1 m1,
             0 <= m1 < 12
             /\ EcmaDate.MakeDay Y (M + 1) 1 = EcmaDate.MakeDay y1 m1 1
             /\ (Y < y1 \/ (Y = y1 /\ M < m1))
             /\ (forall y' m', 0 <= m' < 12 ->
                   Y < y' \/ (Y = y' /\ M < m') ->
                   y1 < y' \/ (y1 = y' /\ m1 <= m'))).
  { destruct (Z.eq_dec M 11) as [E | NE].
    - exists (Y + 1), 0. rewrite E. change (11 + 1) with 12.
      rewrite MakeDay_december_next.
      split; [lia |]. split; [reflexivity |]. split; [lia |].
      intros y' m' Hm' Hgt. lia.
    - exists Y, (M + 1).
      split; [lia |]. split; [reflexivity |]. split; [lia |].
      intros y' m' Hm' Hgt. lia. }
  destruct Hsucc as (y1 & m1 & Hm1 & Heq & _ & Hmin).
  split; [exists y1, m1; split; [assumption | rewrite Heq; reflexivity] |].
  split; [apply before_day; exact Hhi |].
  intros t' (y' & m' & Hm' & ->) Hlt. apply before_day in Hlt.
  assert (Hgt : Y < y' \/ (Y = y' /\ M < m')).
  { destruct (Z.lt_trichotomy Y y') as [? | [<- | Hy]]; [left; assumption | |].
    - right. split; [reflexivity |].
      destruct (Z.lt_ge_cases M m') as [? | Hge]; [assumption |].
      pose proof (month_start_mono Y m' Y M Hm' HM ltac:(right; lia)). lia.
    - pose proof (month_start_mono y' m' Y M Hm' HM ltac:(left; lia)). lia. }
  pose proof (month_start_mono y1 m1 y' m' Hm1 Hm' (Hmin y' m' Hm' Hgt)).
  rewrite Heq. unfold EcmaDate.msPerDay. lia.
Qed.

(** ** The caps tracker *)

Lemma applyResets_bounded (c : CapsRecord) (now : Z) :
  bounded c -> bounded (fst (applyResets c now)).
Proof.
  unfold bounded, applyResets, DAILY_CAP, MONTHLY_CAP, YEARLY_CAP. cbn.
  destruct (dailyReset c <=? now), (monthlyReset c <=? now),
    (yearlyReset c <=? now); lia.
Qed.

(** A read: what it returns, caches and stores, and that it keeps the
    tracker's state sound *)
Lemma getCurrentCaps_inv (now : Z) (db : DB) (cache : gmap string CapsRecord)
    (hid : string) :
  caps_inv db cache ->
  let r := getCurrentCaps now db cache hid in
  let c := fst (applyResets (loadCaps db hid) now) in
  fst (fst r) = formatCaps c
  /\ snd r !! hid = Some c
  /\ loadCaps (snd (fst r)) hid = c
  /\ caps_inv (snd (fst r)) (snd r).
Proof.
  intros [Hb Hc]. cbv zeta. unfold getCurrentCaps.
  assert (Hreload :
    let r := (let '(c, reset) := applyResets (loadCaps db hid) now in
              (formatCaps c, if reset then saveCaps db hid c else db,
               <[hid := c]> cache)) in
    let c := fst (applyResets (loadCaps db hid) now) in
    fst (fst r) = formatCaps c
    /\ snd r !! hid = Some c
    /\ loadCaps (snd (fst r)) hid = c
    /\ caps_inv (snd (fst r)) (snd r)).
  { pose proof (applyResets_bounded (loadCaps db hid) now (Hb hid)) as Hbc.
    pose proof (applyResets_none (loadCaps db hid) now) as Hnone.
    destruct (applyResets (loadCaps db hid) now) as [c reset].
    cbn [fst snd] in *.
    assert (Hown : loadCaps (if reset then saveCaps db hid c else db) hid = c).
    { destruct reset; [apply loadCaps_saveCaps |]. symmetry. auto. }
    assert (Hother : forall h, h <> hid ->
              loadCaps (if reset then saveCaps db hid c else db) h
              = loadCaps db h).
    { intros h Hne. destruct reset; [| reflexivity].
      apply loadCaps_saveCaps_other. congruence. }
    split; [reflexivity |]. split; [apply lookup_insert_eq |].
    split; [exact Hown |]. split.
    - intros h. destruct (String.eqb_spec h hid) as [-> | Hne].
      + rewrite Hown. exact Hbc.
      + rewrite (Hother h Hne). apply Hb.
    - intros h rec. destruct (String.eqb_spec h hid) as [-> | Hne].
      + rewrite lookup_insert_eq. intros [= <-]. exact Hown.
      + rewrite lookup_insert_ne by congruence. intros Hrec.
        rewrite (Hother h Hne). apply Hc. exact Hrec. }
  destruct (cache !! hid) as [cached |] eqn:Hcached; [| exact Hreload].
  destruct (needsReset cached now) eqn:Hn; cbn [negb]; [exact Hreload |].
  cbn [fst snd]. pose proof (Hc hid cached Hcached) as Hload.
  rewrite Hload. rewrite applyResets_none by exact Hn.
  split; [reflexivity |]. split; [exact Hcached |]. split; [reflexivity |].
  split; assumption.
Qed.

Lemma incremented_bounded (c : CapsRecord) (amount : Z) :
  ~ exceeds c amount -> bounded (incremented c amount).
Proof. unfold exceeds, bounded, incremented. cbn. lia. Qed.

(** An increment: refused exactly when it would exceed a cap, and then
    nothing is added; otherwise the four counters grow by [amount]. *)
Lemma incrementCaps_inv (now : Z) (db : DB) (cache : gmap string CapsRecord)
    (hid : string) (amount : Z) :
  caps_inv db cache ->
  let r := incrementCaps now db cache hid amount in
  let c := fst (applyResets (loadCaps db hid) now) in
  caps_inv (snd (fst r)) (snd r)
  /\ (exceeds c amount ->
      inc_ok (fst (fst r)) = false
      /\ loadCaps (snd (fst r)) hid = c
      /\ snd r !! hid = Some c)
  /\ (~ exceeds c amount ->
      inc_ok (fst (fst r)) = true
      /\ loadCaps (snd (fst r)) hid = incremented c amount
      /\ snd r !! hid = Some (incremented c amount)).
Proof.
  intros Hinv. cbv zeta. unfold incrementCaps.
  pose proof (getCurrentCaps_inv now db cache hid Hinv) as Hread.
  cbv zeta in Hread.
  destruct (getCurrentCaps now db cache hid) as [[view db1] cache1].
  cbn [fst snd] in Hread. destruct Hread as (-> & Hcached & Hload & Hinv1).
  set (c := fst (applyResets (loadCaps db hid) now)) in *.
  unfold exceeds. cbn [cv_daily cv_monthly cv_yearly formatCaps].
  destruct (Z.ltb_spec DAILY_CAP (daily c + amount)) as [Hd | Hd].
  { cbn [fst snd inc_ok]. split; [exact Hinv1 |]. split; [auto | lia]. }
  destruct (Z.ltb_spec MONTHLY_CAP (monthly c + amount)) as [Hm | Hm].
  { cbn [fst snd inc_ok]. split; [exact Hinv1 |]. split; [auto | lia]. }
  destruct (Z.ltb_spec YEARLY_CAP (yearly c + amount)) as [Hy | Hy].
  { cbn [fst snd inc_ok]. split; [exact Hinv1 |]. split; [auto | lia]. }
  rewrite Hcached. cbn [fst snd inc_ok].
  destruct Hinv1 as [Hb1 Hc1].
  split; [| split; [lia |]].
  - split.
    + intros h. destruct (String.eqb_spec h hid) as [-> | Hne].
      * rewrite loadCaps_saveCaps. apply incremented_bounded.
        unfold exceeds. lia.
      * rewrite loadCaps_saveCaps_other by congruence. apply Hb1.
    + intros h rec. destruct (String.eqb_spec h hid) as [-> | Hne].
      * rewrite lookup_insert_eq. intros [= <-]. apply loadCaps_saveCaps.
      * rewrite lookup_insert_ne by congruence. intros Hrec.
        rewrite loadCaps_saveCaps_other by congruence. apply Hc1. exact Hrec.
  - intros _. split; [reflexivity |].
    split; [apply loadCaps_saveCaps | apply lookup_insert_eq].
Qed.

Lemma caps_step_inv (st : DB * gmap string CapsRecord) (op : CapsOp) :
  caps_inv (fst st) (snd st) ->
  caps_inv (fst (caps_step st op)) (snd (caps_step st op)).
Proof.
  intros Hinv. destruct op as [hid now | hid amount now |]; cbn [caps_step].
  - pose proof (getCurrentCaps_inv now (fst st) (snd st) hid Hinv) as H.
    cbv zeta in H.
    destruct (getCurrentCaps now (fst st) (snd st) hid) as [[view db'] cache'].
    cbn [fst snd] in *. tauto.
  - pose proof (incrementCaps_inv now (fst st) (snd st) hid amount Hinv) as H.
    cbv zeta in H.
    destruct (incrementCaps now (fst st) (snd st) hid amount)
      as [[res db'] cache'].
    cbn [fst snd] in *. tauto.
  - cbn [fst snd]. destruct Hinv as [Hb _]. split; [exact Hb |].
    intros h rec. rewrite lookup_empty. discriminate.
Qed.

Lemma caps_run_inv (ops : list CapsOp) (st : DB * gmap string CapsRecord) :
  caps_inv (fst st) (snd st) ->
  caps_inv (fst (caps_run ops st)) (snd (caps_run ops st)).
Proof.
  revert st. induction ops as [| op ops IH]; intros st Hinv; [exact Hinv |].
  cbn [caps_run fold_left]. apply IH. apply caps_step_inv. exact Hinv.
Qed.

(** C7: from a store whose records are within the caps and an empty cache,
    after every sequence of reads, increments and cache clears, for every
    identity: the stored and the cached counters are within 3600, 36,000
    and 120,000, and so are the counters every read returns; an increment
    that would take a counter over its cap is refused and adds nothing,
    any other adds the amount to the four counters; and once the stored
    daily, monthly or yearly reset timestamp is reached, the next read
    returns zero for that counter and stores and caches, as its reset
    timestamp, the first UTC midnight, the first start of a month, or the
    first 1 January after the time of the read. *)
Theorem caps_stay_within_limits_and_reset (db0 : DB) (ops : list CapsOp)
    (hid : string) :
  (forall h, bounded (loadCaps db0 h)) ->
  let st := caps_run ops (db0, ∅) in
  let stored := loadCaps (fst st) hid in
  (* the counters are within the caps *)
  (bounded stored
   /\ (forall rec, snd st !! hid = Some rec -> rec = stored))
  (* so is what a read returns *)
  /\ (forall now,
        let view := fst (fst (getCurrentCaps now (fst st) (snd st) hid)) in
        cv_daily view <= 3600 /\ cv_monthly view <= 36000
        /\ cv_yearly view <= 120000)
  (* increments *)
  /\ (forall now amount,
        let r := incrementCaps now (fst st) (snd st) hid amount in
        let current := fst (applyResets stored now) in
        (exceeds current amount ->
         inc_ok (fst (fst r)) = false
         /\ loadCaps (snd (fst r)) hid = current)
        /\ (~ exceeds current amount ->
            inc_ok (fst (fst r)) = true
            /\ loadCaps (snd (fst r)) hid = incremented current amount)
        /\ bounded (loadCaps (snd (fst r)) hid))
  (* resets *)
  /\ (forall now,
        let r := getCurrentCaps now (fst st) (snd st) hid in
        let view := fst (fst r) in
        let stored' := loadCaps (snd (fst r)) hid in
        snd r !! hid = Some stored'
        /\ (dailyReset stored <= now ->
            cv_daily view = 0 /\ daily stored' = 0
            /\ next_boundary is_day_start now (dailyReset stored'))
        /\ (monthlyReset stored <= now ->
            cv_monthly view = 0 /\ monthly stored' = 0
            /\ next_boundary is_month_start now (monthlyReset stored'))
        /\ (yearlyReset stored <= now ->
            cv_yearly view = 0 /\ yearly stored' = 0
            /\ next_boundary is_year_start now (yearlyReset stored'))).
Proof.
  intros Hb0 st stored.
  assert (Hinv : caps_inv (fst st) (snd st)).
  { apply caps_run_inv. split; [exact Hb0 |].
    intros h rec. cbn [snd]. rewrite lookup_empty. discriminate. }
  pose proof Hinv as [Hb Hc].
  split; [| split; [| split]].
  - split; [apply Hb |]. intros rec Hrec. symmetry. apply Hc. exact Hrec.
  - intros now.
    pose proof (getCurrentCaps_inv now (fst st) (snd st) hid Hinv) as H.
    cbv zeta in *. destruct H as (-> & _ & _ & _).
    pose proof (applyResets_bounded (loadCaps (fst st) hid) now (Hb hid)) as Hbc.
    unfold bounded, DAILY_CAP, MONTHLY_CAP, YEARLY_CAP in Hbc. exact Hbc.
  - intros now amount.
    pose proof (incrementCaps_inv now (fst st) (snd st) hid amount Hinv) as H.
    cbv zeta in *. destruct H as ([Hb' _] & Hex & Hok).
    split; [intros Hx; destruct (Hex Hx) as (? & ? & _); auto |].
    split; [intros Hx; destruct (Hok Hx) as (? & ? & _); auto |].
    apply Hb'.
  - intros now.
    pose proof (getCurrentCaps_inv now (fst st) (snd st) hid Hinv) as H.
    cbv zeta in *. destruct H as (Hview & Hcache & Hload & _).
    rewrite Hview, Hload. split; [exact Hcache |].
    fold stored. unfold applyResets. cbn.
    split; [| split]; intros Hreached;
      rewrite (proj2 (Z.leb_le _ _) Hreached); (split; [reflexivity |]);
      (split; [reflexivity |]).
    + apply next_daily_boundary.
    + apply next_monthly_boundary.
    + apply next_yearly_boundary.
Qed.

Lemma emptyDB_bounded (h : string) : bounded (loadCaps emptyDB h).
Proof.
  unfold loadCaps, emptyDB. cbn [caps]. rewrite !lookup_empty.
  unfold bounded, DAILY_CAP, MONTHLY_CAP, YEARLY_CAP. cbn. lia.
Qed.

(** Alice uses her whole daily cap at [t0]; one more is refused; the read
    after the next UTC midnight shows a daily counter of zero. *)
Lemma caps_stay_within_limits_and_reset_witness :
  let st := caps_run [OpIncrement "HID-A1B2C3D4" 3600 Fixture.t0]
              (emptyDB, ∅) in
  inc_ok (fst (fst (incrementCaps (Fixture.t0 + 1000) (fst st) (snd st)
                      "HID-A1B2C3D4" 1))) = false
  /\ cv_daily (fst (fst (getCurrentCaps (Fixture.t0 + 86400000)
                           (fst st) (snd st) "HID-A1B2C3D4"))) = 0.
Proof.
  cbv zeta.
  destruct (caps_stay_within_limits_and_reset emptyDB
              [OpIncrement "HID-A1B2C3D4" 3600 Fixture.t0] "HID-A1B2C3D4"
              emptyDB_bounded) as (_ & _ & Hinc & Hreset).
  split.
  - apply (Hinc (Fixture.t0 + 1000) 1). left. vm_compute. reflexivity.
  - apply (Hreset (Fixture.t0 + 86400000)).
    apply Z.leb_le. vm_compute. reflexivity.
Defined.

(** The same run, evaluated *)
Example caps_boundary_run :
  let st := caps_run [OpIncrement "HID-A1B2C3D4" 3600 Fixture.t0]
              (emptyDB, ∅) in
  let refused := incrementCaps (Fixture.t0 + 1000) (fst st) (snd st)
                   "HID-A1B2C3D4" 1 in
  let later := getCurrentCaps (Fixture.t0 + 86400000) (fst st) (snd st)
                 "HID-A1B2C3D4" in
  daily (loadCaps (fst st) "HID-A1B2C3D4") = 3600
  /\ inc_reason (fst (fst refused)) = Some "daily_cap_exceeded"%string
  /\ daily (loadCaps (snd (fst refused)) "HID-A1B2C3D4") = 3600
  /\ cv_daily (fst (fst later)) = 0
  /\ cv_monthly (fst (fst later)) = 3600
  /\ dailyReset (loadCaps (snd (fst later)) "HID-A1B2C3D4") = 1700092800000.
Proof. vm_compute. repeat split. Qed.

(** ** Message ids *)







(** ** Reading the chain back in order *)



Lemma getAll_empty : getAll ∅ = [].
Proof. reflexivity. Qed.





(** ** Projections: the commit path and the rebuild *)

Lemma project_base (ref : ObjectRef) (sm : StateManager) (sta : Segment) :
  sm_db (project ref sm sta) = sm_db sm
  /\ sm_identity (project ref sm sta) = sm_identity sm.
Proof.
  unfold project, updateScores, addToMessagesProjection, set_projections.
  destruct (isMessageType (s_type sta)); cbn; auto.
Qed.

Lemma fold_project_base (l : list (nat * Segment)) (sm : StateManager) :
  let sm' := fold_left (fun acc ista =>
                          project (StoredObject (fst ista)) acc (snd ista))
               l sm in
  sm_db sm' = sm_db sm /\ sm_identity sm' = sm_identity sm.
Proof.
  revert sm. induction l as [| s l IH]; intros sm; cbn [fold_left]; [auto |].
  cbv zeta in IH |- *.
  destruct (IH (project (StoredObject (fst s)) sm (snd s))) as [-> ->].
  apply project_base.
Qed.



Lemma rebuild_base (sm : StateManager) (db : DB) :
  sm_db (rebuildProjections sm db) = sm_db sm
  /\ sm_identity (rebuildProjections sm db) = sm_identity sm.
Proof.
  unfold rebuildProjections. destruct (getChainLen db =? 0); [cbn; auto |].
  destruct (fold_project_base
              (indexed (sort_by_seq (getAll (state_chain db))))
              (set_projections sm [] 0 0)) as [-> ->].
  cbn; auto.
Qed.


(** While the chain length is zero the rebuild leaves the views empty,
    whatever the store of segments holds. *)
Lemma rebuild_empty_chain (sm : StateManager) (db : DB) :
  getChainLen db = 0 ->
  rebuildProjections sm db = set_projections sm [] 0 0.
Proof. intros H. unfold rebuildProjections. rewrite H. reflexivity. Qed.

Lemma push_message_nonempty (k : ChatKey) (m : Message)
    (l : list (ChatKey * list Message)) :
  push_message k m l <> [].
Proof.
  destruct l as [| [k' l'] r]; cbn [push_message]; [discriminate |].
  destruct (key_eqb k' k); discriminate.
Qed.

(** The projection of a segment of a message-bearing type puts a message
    into the view. *)
Lemma project_messages_nonempty (ref : ObjectRef) (sm : StateManager)
    (sta : Segment) :
  isMessageType (s_type sta) = true ->
  sm_messages (project ref sm sta) <> [].
Proof.
  intros Hm. unfold project. rewrite Hm.
  unfold updateScores, addToMessagesProjection.
  cbn [set_projections sm_messages]. apply push_message_nonempty.
Qed.

(** C8 (what the code does): the in-memory views run ahead of the chain.
    [appendSTA] puts the segment into the views before the transaction is
    known to have committed and never takes it back. So for every call
    that succeeds when the transaction stays open: when the transaction
    has committed before the digest of the new head is there, the call
    reports a failure, the views are the ones of the successful call, and
    chain_len and chain_head are as before; on an empty chain a rebuild
    then gives empty views and scores 0, while the views in memory hold
    the message of the failed commit. *)
Theorem failed_append_keeps_projection (e : Env) (w : World) (type : string)
    (payload : JVal) (previousOwner : option string) (identity : Identity) :
  sm_identity (w_state w) = Some identity ->
  ok (fst (commitAction (with_tx e true) w type payload previousOwner))
  = true ->
  env_tx_open e = false ->
  let sta := candidate e (w_db w) identity type payload previousOwner in
  let r := fst (commitAction e w type payload previousOwner) in
  let w' := snd (commitAction e w type payload previousOwner) in
  ok r = false
  /\ w_state w'
     = w_state (snd (commitAction (with_tx e true) w type payload
                       previousOwner))
  /\ w_state w' = project (CallerObject (env_chat_ref e)) (w_state w) sta
  /\ getChainLen (w_db w') = getChainLen (w_db w)
  /\ getChainHead (w_db w') = getChainHead (w_db w)
  /\ (getChainLen (w_db w) = 0 ->
      let rebuilt := rebuildProjections (w_state w') (w_db w') in
      sm_messages rebuilt = []
      /\ sm_richScore rebuilt = 0
      /\ sm_businessScore rebuilt = 0
      /\ (isMessageType type = true ->
          sm_messages (w_state w') <> []
          /\ rebuilt <> w_state w')).
Proof.
  intros Hid Hopen Hclosed sta r w'.
  destruct (sm_db (w_state w)) eqn:Hdb.
  2:{ revert Hopen. unfold commitAction. rewrite Hdb. cbn. discriminate. }
  destruct (commitAction_course (with_tx e true) w type payload
              previousOwner identity Hdb Hid)
    as (validation & db1 & tracker1 & Hv & _ & Hrun1).
  destruct (commitAction_course e w type payload previousOwner identity
              Hdb Hid) as (validation' & db1' & tracker1' & Hv' & Hsame & Hrun).
  rewrite with_tx_validation, with_tx_candidate in Hv.
  fold sta in Hv, Hv'. rewrite Hv in Hv'. injection Hv' as <- <- <-.
  rewrite with_tx_candidate in Hrun1. fold sta in Hrun1, Hrun.
  cbv zeta in Hrun1, Hrun. subst r w'.
  destruct validation as [| rule reason message];
    [| rewrite Hrun1 in Hopen; discriminate Hopen].
  destruct (append_adds db1 sta) as [db3 |] eqn:Ha;
    [| rewrite Hrun1 in Hopen; discriminate Hopen].
  rewrite Hclosed in Hrun. cbn [with_tx env_tx_open] in Hrun1.
  rewrite Hrun, Hrun1. cbn [fst snd w_db w_state ok failure].
  destruct (append_adds_rows _ _ _ Ha) as [_ (Hh & Hl & _)].
  assert (Elen : getChainLen db3 = getChainLen (w_db w)).
  { rewrite <- (same_chain_getChainLen _ _ Hsame).
    unfold getChainLen. rewrite Hl. reflexivity. }
  assert (Ehead : getChainHead db3 = getChainHead (w_db w)).
  { rewrite <- (same_chain_getChainHead _ _ Hsame).
    unfold getChainHead. rewrite Hh. reflexivity. }
  split; [reflexivity |]. split; [reflexivity |]. split; [reflexivity |].
  split; [exact Elen |]. split; [exact Ehead |].
  intros Hzero. cbv zeta.
  rewrite rebuild_empty_chain by (rewrite Elen; exact Hzero).
  cbn [set_projections sm_messages sm_richScore sm_businessScore].
  split; [reflexivity |]. split; [reflexivity |]. split; [reflexivity |].
  intros Hm.
  assert (Hne : sm_messages (project (CallerObject (env_chat_ref e))
                               (w_state w) sta) <> [])
    by (apply project_messages_nonempty; exact Hm).
  split; [exact Hne |].
  intros E. apply Hne. rewrite <- E. reflexivity.
Qed.

(** The first commit of Scenario A when the transaction has committed
    before the digest is there: the commit fails, the chat "hakim" holds
    the message in memory, and a rebuild from the database finds nothing,
    the chain length being 0. *)
Lemma failed_append_keeps_projection_witness :
  let e := with_tx (Fixture.env Fixture.t0 Fixture.nonce1) false in
  let run := commitAction e Fixture.fresh CHAT_USER Fixture.hello None in
  let rebuilt := rebuildProjections (w_state (snd run)) (w_db (snd run)) in
  ok (fst run) = false
  /\ r_reason (fst run) = Some "append_error"%string
  /\ map (fun kv => (fst kv, map (fun m => (m_id m, m_dir m, m_text m))
                               (snd kv)))
         (sm_messages (w_state (snd run)))
     = [(KeyValue (JStr "hakim"),
         [("1:000102030405060708090a0b0c0d0e0f"%string, Some "out"%string,
           JStr "hello")])]
  /\ getChainLen (w_db (snd run)) = 0
  /\ sm_messages rebuilt = []
  /\ rebuilt <> w_state (snd run).
Proof.
  intros e run rebuilt.
  assert (Hopen : ok (fst (commitAction (with_tx e true) Fixture.fresh
                             CHAT_USER Fixture.hello None)) = true)
    by (vm_compute; reflexivity).
  destruct (failed_append_keeps_projection e Fixture.fresh CHAT_USER
              Fixture.hello None Fixture.alice eq_refl Hopen eq_refl)
    as (Hfail & _ & _ & _ & _ & Hzero).
  destruct (Hzero eq_refl) as (Hnil & _ & _ & Hmsg).
  destruct (Hmsg eq_refl) as [_ Hdiff].
  split; [exact Hfail |].
  split; [vm_compute; reflexivity |].
  split; [vm_compute; reflexivity |].
  split; [vm_compute; reflexivity |].
  split; [exact Hnil | exact Hdiff].
Defined.
(** ** Chain verification *)

Lemma seq_range_S (n : nat) :
  seq_range (Z.of_nat (S n)) = seq_range (Z.of_nat n) ++ [Z.of_nat (S n)].
Proof.
  unfold seq_range. rewrite !Nat2Z.id, seq_S, map_app. reflexivity.
Qed.

Lemma scan_upto_S verify vs db (n : nat) :
  scan_upto verify vs db (S n)
  = scan_step verify vs db (scan_upto verify vs db n) (Z.of_nat (S n)).
Proof.
  unfold scan_upto. rewrite seq_range_S, fold_left_app. reflexivity.
Qed.

Lemma expected_prev_hash_next (db : DB) (k : Z) (s : Segment) :
  1 <= k -> getSTABySeq db k = Some s ->
  expected_prev_hash db (k + 1) = block_hash s.
Proof.
  intros Hk Hs. unfold expected_prev_hash.
  destruct (Z.eqb_spec (k + 1) 1); [lia |].
  replace (k + 1 - 1) with k by lia. rewrite Hs. reflexivity.
Qed.

Lemma linked_upto_S verify db (n : Z) :
  0 <= n ->
  linked_upto verify db (n + 1)
  <-> linked_upto verify db n
      /\ exists s, getSTABySeq db (n + 1) = Some s
           /\ s_seq s = n + 1
           /\ s_prev_hash s = expected_prev_hash db (n + 1)
           /\ verify (author_pubJwk (s_author s)) (getSignableContent s)
                     (signature_text s) = Some true.
Proof.
  intros Hn. unfold linked_upto. split.
  - intros H. split.
    + intros k Hk. apply H. lia.
    + apply H. lia.
  - intros [H Hs] k Hk.
    destruct (Z.eq_dec k (n + 1)) as [-> | Hne]; [exact Hs |].
    apply H. lia.
Qed.

(** The loop reports no error exactly when the positions it has visited
    are whole, and it then expects the block hash of the last one. *)
Lemma scan_upto_spec verify db (n : nat) :
  (sc_errors (scan_upto verify true db n) = []
   <-> linked_upto verify db (Z.of_nat n))
  /\ (linked_upto verify db (Z.of_nat n) ->
      sc_expectedPrevHash (scan_upto verify true db n)
      = expected_prev_hash db (Z.of_nat n + 1)).
Proof.
  induction n as [| n [IHe IHh]].
  - split.
    + split; [| reflexivity]. intros _ k Hk. cbn in Hk. lia.
    + reflexivity.
  - rewrite scan_upto_S.
    replace (Z.of_nat (S n)) with (Z.of_nat n + 1) by lia.
    rewrite (linked_upto_S verify db (Z.of_nat n)) by lia.
    set (st := scan_upto verify true db n) in *.
    unfold scan_step.
    destruct (getSTABySeq db (Z.of_nat n + 1)) as [s |] eqn:Es.
    2:{ cbn [sc_errors sc_expectedPrevHash]. split.
        - split.
          + intros H. apply app_eq_nil in H as [_ H]. discriminate.
          + intros (_ & s & [=] & _).
        - intros (_ & s & [=] & _). }
    cbn [sc_errors sc_expectedPrevHash]. split.
    + split.
      * intros H. apply app_eq_nil in H as [He H].
        apply app_eq_nil in H as [Hseq H].
        apply app_eq_nil in H as [Hhash Hsig].
        apply IHe in He. split; [exact He |].
        exists s. split; [reflexivity |].
        destruct (Z.eqb_spec (s_seq s) (Z.of_nat n + 1)) as [Eseq |];
          [| discriminate].
        rewrite (IHh He) in Hhash.
        destruct (String.eqb_spec (s_prev_hash s)
                    (expected_prev_hash db (Z.of_nat n + 1))) as [Eprev |];
          [| discriminate].
        unfold signature_errors in Hsig.
        destruct (verify _ _ _) as [[|] |]; try discriminate.
        auto.
      * intros (Hl & s' & [= <-] & Hseq & Hprev & Hsig).
        rewrite (proj2 IHe Hl), (IHh Hl).
        rewrite Hseq, Z.eqb_refl, Hprev, String.eqb_refl.
        unfold signature_errors. rewrite Hsig. reflexivity.
    + intros (Hl & s' & [= <-] & _).
      rewrite (expected_prev_hash_next db (Z.of_nat n + 1) s); [| lia | exact Es].
      reflexivity.
Qed.

Lemma scan_range_upto verify vs db :
  fold_left (scan_step verify vs db) (seq_range (getChainLen db))
    (mkScan GENESIS_HASH 0 [] [])
  = scan_upto verify vs db (Z.to_nat (getChainLen db)).
Proof.
  unfold scan_upto, seq_range. rewrite Nat2Z.id. reflexivity.
Qed.

(** Verification with signatures succeeds on a non-empty chain exactly
    when the chain is whole. *)
Lemma integrity_ok_iff verify t1 t2 db :
  0 < getChainLen db ->
  int_ok (verifyChainIntegrity verify t1 t2 db true) = true
  <-> chain_linked verify db.
Proof.
  intros Hlen. unfold verifyChainIntegrity, chain_linked.
  destruct (Z.eqb_spec (getChainLen db) 0) as [E | _]; [lia |].
  rewrite scan_range_upto. cbn [int_ok].
  destruct (scan_upto_spec verify db (Z.to_nat (getChainLen db))) as [He Hh].
  rewrite Z2Nat.id in He, Hh by lia.
  fold (linked_upto verify db (getChainLen db)).
  rewrite Nat.eqb_eq, length_zero_iff_nil. split.
  - intros H. apply app_eq_nil in H as [H1 H2].
    apply He in H1. split; [exact H1 |].
    rewrite (Hh H1) in H2.
    destruct (String.eqb_spec (getChainHead db)
                (expected_prev_hash db (getChainLen db + 1)));
      [assumption | discriminate].
  - intros [H1 H2]. rewrite (proj2 He H1), (Hh H1), H2, String.eqb_refl.
    reflexivity.
Qed.

(** ** What a call to [commitAction] does to the world *)

Lemma validateRateLimit_same_chain db db' segment :
  same_chain db db' ->
  validateRateLimit db' segment = validateRateLimit db segment.
Proof.
  intros Hsame. unfold validateRateLimit, getSTABySeq.
  rewrite (same_chain_getChainLen db db' Hsame).
  destruct Hsame as (_ & _ & _ & -> & _). reflexivity.
Qed.

(** What a passed validation has checked about the segment itself *)
Lemma validateSegment_pass_rules e db segment options db2 tracker2 :
  validateSegment e db segment options = (Pass, db2, tracker2) ->
  validateSegmentStructure segment = Valid
  /\ validateCounterRelationship db segment = Pass
  /\ validateRateLimit db segment = Pass
  /\ validateOwnerTransition segment = Pass
  /\ validateSignature e segment = Pass.
Proof.
  intros H.
  pose proof (validateSegment_same_chain e db segment options) as Hsame.
  rewrite H in Hsame. cbn [fst snd] in Hsame.
  rewrite <- (validateRateLimit_same_chain db db2 segment Hsame).
  revert H. unfold validateSegment.
  destruct (validateSegmentStructure segment); [| discriminate].
  destruct (validateCounterRelationship db segment); [| discriminate].
  destruct (validateCaps (env_now_caps e) db (capsTracker options) segment)
    as [[rule2 db2'] tracker2'].
  destruct rule2; [| discriminate].
  destruct (validateRateLimit db2' segment) eqn:Er; [| discriminate].
  destruct (if skipLivenessCheck options then Pass
            else validateLiveness (env_now_liveness e) segment);
    [| discriminate].
  destruct (validateOwnerTransition segment); [| discriminate].
  destruct (validateHistoryHash db2' segment); [| discriminate].
  destruct (validateSequence db2' segment); [| discriminate].
  destruct (validateSignature e segment); [| discriminate].
  intros [= _ <- _]. rewrite Er. auto.
Qed.

Lemma validateSignature_pass e segment :
  validateSignature e segment = Pass ->
  env_verify e (author_pubJwk (s_author segment))
    (getSignableContent segment) (signature_text segment) = Some true.
Proof.
  unfold validateSignature, signature_text.
  destruct (s_signature segment) as [sig |]; [| discriminate].
  destruct (env_verify e _ _ sig) as [[|] |]; try discriminate. reflexivity.
Qed.

(** Every call to [commitAction] ends in one of the ways of
    [commit_end]. *)
Lemma commit_call_end (w : World) (c : Call) :
  commit_end w c (commit_call w c).
Proof.
  unfold commit_call.
  destruct (sm_db (w_state w)) eqn:Hdb.
  2:{ unfold commitAction. rewrite Hdb. cbn [negb snd].
      apply commit_refused; [apply same_chain_refl | reflexivity]. }
  destruct (sm_identity (w_state w)) as [identity |] eqn:Hid.
  2:{ unfold commitAction. rewrite Hdb, Hid. cbn [negb snd].
      apply commit_refused; [apply same_chain_refl | reflexivity]. }
  destruct (commitAction_course (call_env c) w (call_type c) (call_payload c)
              (call_previousOwner c) identity Hdb Hid)
    as (validation & db1 & tracker1 & Hv & Hsame & Hrun).
  cbv zeta in Hrun.
  destruct validation as [| rule reason message].
  2:{ rewrite Hrun. cbn [snd].
      apply commit_refused; [exact Hsame | reflexivity]. }
  destruct (append_adds db1 _) as [db3 |] eqn:Ha.
  - destruct (env_tx_open (call_env c)) eqn:Hopen; rewrite Hrun; cbn [snd];
      apply (commit_tried _ _ _ identity db1);
      cbn [w_tracker w_state w_db]; try assumption; try reflexivity;
      rewrite Hopen.
    + apply append_all. exact Ha.
    + apply append_rows. exact Ha.
  - rewrite Hrun. cbn [snd].
    apply (commit_tried _ _ _ identity db1);
      cbn [w_tracker w_state w_db]; try assumption; try reflexivity.
    apply append_aborted. exact Ha.
Qed.

(** The transaction moves the chain length by one, when it writes the
    head, or not at all. *)
Lemma append_end_len (db db' : DB) (sta : Segment) (open : bool) :
  append_end db sta open db' ->
  (getChainLen db' = getChainLen db /\ getChainHead db' = getChainHead db
   /\ meta_read_only db' = meta_read_only db)
  \/ (open = true /\ getChainLen db' = s_seq sta
      /\ getChainHead db' = block_hash sta
      /\ state_chain db' !! s_seq sta = Some sta
      /\ meta_read_only db' = meta_read_only db).
Proof.
  intros [open' Ha | db3 Ha | db3 Ha].
  - left. auto.
  - left. apply append_adds_Some in Ha.
    destruct Ha as (_ & _ & _ & _ & _ & Hh & Hl & Hro & _).
    unfold getChainLen, getChainHead. rewrite Hh, Hl. auto.
  - right. apply append_adds_Some in Ha.
    destruct Ha as (_ & _ & Hsc & _ & _ & _ & _ & Hro & _).
    split; [reflexivity |]. split; [reflexivity |].
    split; [apply getChainHead_block_hash; reflexivity |].
    split; [| exact Hro].
    cbn [put_head state_chain]. rewrite Hsc. apply lookup_insert_eq.
Qed.

(** The transaction changes the store of segments at the key of the
    segment only, and only when that key was free. *)
Lemma append_end_chain (db db' : DB) (sta : Segment) (open : bool) :
  append_end db sta open db' ->
  state_chain db' = state_chain db
  \/ (state_chain db !! s_seq sta = None
      /\ state_chain db' = <[s_seq sta := sta]> (state_chain db)).
Proof.
  intros [open' Ha | db3 Ha | db3 Ha].
  - left. reflexivity.
  - right. apply append_adds_Some in Ha. tauto.
  - right. apply append_adds_Some in Ha. cbn [put_head state_chain]. tauto.
Qed.

Lemma bounded_same_chain (db db' : DB) :
  same_chain db db' -> chain_bounded db -> chain_bounded db'.
Proof.
  intros Hsame. unfold chain_bounded.
  rewrite (same_chain_getChainLen db db' Hsame).
  destruct Hsame as (_ & _ & _ & -> & _). tauto.
Qed.

Lemma append_end_bounded (db db' : DB) (sta : Segment) (open : bool) :
  chain_bounded db ->
  s_seq sta = getChainLen db + 1 ->
  append_end db sta open db' ->
  chain_bounded db'.
Proof.
  intros [Hlen Hkeys] Hseq Hend.
  pose proof (append_end_len _ _ _ _ Hend) as Hl.
  pose proof (append_end_chain _ _ _ _ Hend) as Hc.
  assert (Hlen' : getChainLen db <= getChainLen db') by
    (destruct Hl as [(-> & _) | (_ & -> & _)]; lia).
  split; [lia |].
  intros k s Hs.
  destruct Hc as [Hc | [_ Hc]]; rewrite Hc in Hs.
  - specialize (Hkeys k s Hs). lia.
  - destruct (Z.eq_dec (s_seq sta) k) as [<- | Hne].
    + lia.
    + rewrite lookup_insert_ne in Hs by exact Hne.
      specialize (Hkeys k s Hs). lia.
Qed.

(** A call keeps the segments at keys from 1 to one beyond the chain
    length. *)
Lemma commit_call_bounded (w : World) (c : Call) :
  chain_bounded (w_db w) -> chain_bounded (w_db (commit_call w c)).
Proof.
  intros Hb.
  destruct (commit_call_end w c) as [Hsame _ | identity db1 sta Hid Hv _ Hend].
  - eapply bounded_same_chain; eauto.
  - apply validateSegment_pass in Hv. destruct Hv as (Hsame & Hseq & _).
    eapply (append_end_bounded db1); [| | exact Hend].
    + eapply bounded_same_chain; eauto.
    + rewrite (same_chain_getChainLen _ _ Hsame). exact Hseq.
Qed.

Lemma commit_calls_bounded (calls : list Call) (w : World) :
  chain_bounded (w_db w) -> chain_bounded (w_db (commit_calls calls w)).
Proof.
  revert w. induction calls as [| c calls IH]; intros w Hb; [exact Hb |].
  cbn [commit_calls fold_left]. apply IH. apply commit_call_bounded. exact Hb.
Qed.

Lemma expected_prev_hash_ext (db db' : DB) (k : Z) :
  (k = 1 \/ state_chain db' !! (k - 1) = state_chain db !! (k - 1)) ->
  expected_prev_hash db' k = expected_prev_hash db k.
Proof.
  unfold expected_prev_hash, getSTABySeq.
  destruct (Z.eqb_spec k 1); [reflexivity |].
  intros [? | ->]; [lia | reflexivity].
Qed.

Lemma linked_same_chain verify (db db' : DB) :
  same_chain db db' -> chain_linked verify db -> chain_linked verify db'.
Proof.
  intros Hsame. unfold chain_linked, expected_prev_hash, getSTABySeq.
  rewrite (same_chain_getChainLen db db' Hsame).
  rewrite (same_chain_getChainHead db db' Hsame).
  destruct Hsame as (_ & _ & _ & -> & _). tauto.
Qed.

(** The transaction of a validated segment keeps the chain whole,
    whatever its end. *)
Lemma append_end_linked verify (db db' : DB) (sta : Segment) (open : bool) :
  0 <= getChainLen db ->
  chain_linked verify db ->
  s_seq sta = getChainLen db + 1 ->
  s_prev_hash sta = getChainHead db ->
  verify (author_pubJwk (s_author sta)) (getSignableContent sta)
         (signature_text sta) = Some true ->
  append_end db sta open db' ->
  chain_linked verify db'.
Proof.
  intros Hlen [Hl Hhead] Hseq Hprev Hsig Hend.
  pose proof (append_end_len _ _ _ _ Hend) as Hlen'.
  pose proof (append_end_chain _ _ _ _ Hend) as Hc.
  assert (Eold : forall k, k <> getChainLen db + 1 ->
                           state_chain db' !! k = state_chain db !! k).
  { intros k Hk. destruct Hc as [-> | [_ ->]]; [reflexivity |].
    rewrite Hseq. apply lookup_insert_ne. lia. }
  assert (Hkeep : forall k, 1 <= k <= getChainLen db ->
            exists s, getSTABySeq db' k = Some s
              /\ s_seq s = k
              /\ s_prev_hash s = expected_prev_hash db' k
              /\ verify (author_pubJwk (s_author s)) (getSignableContent s)
                        (signature_text s) = Some true).
  { intros k Hk. destruct (Hl k Hk) as (s & Hs & Hs1 & Hs2 & Hs3).
    exists s. unfold getSTABySeq in *. rewrite (Eold k) by lia.
    split; [exact Hs |]. split; [exact Hs1 |]. split; [| exact Hs3].
    rewrite Hs2. symmetry. apply expected_prev_hash_ext.
    right. apply Eold. lia. }
  destruct Hlen' as [(El & Eh & _) | (_ & El & Eh & Enew & _)].
  - unfold chain_linked. rewrite El, Eh. split; [exact Hkeep |].
    rewrite Hhead. symmetry. apply expected_prev_hash_ext.
    right. apply Eold. lia.
  - rewrite Hseq in El, Enew.
    unfold chain_linked. rewrite El. split.
    + intros k Hk. destruct (Z.eq_dec k (getChainLen db + 1)) as [-> | Hne].
      * exists sta. unfold getSTABySeq. rewrite Enew.
        split; [reflexivity |]. split; [exact Hseq |]. split; [| exact Hsig].
        rewrite Hprev, Hhead. symmetry. apply expected_prev_hash_ext.
        right. apply Eold. lia.
      * apply Hkeep. lia.
    + rewrite (expected_prev_hash_next db' (getChainLen db + 1) sta);
        [exact Eh | lia | exact Enew].
Qed.

(** A call made with the verification function [verify] keeps the chain
    whole under [verify]. *)
Lemma commit_call_linked verify (w : World) (c : Call) :
  env_verify (call_env c) = verify ->
  0 <= getChainLen (w_db w) -> chain_linked verify (w_db w) ->
  0 <= getChainLen (w_db (commit_call w c))
  /\ chain_linked verify (w_db (commit_call w c)).
Proof.
  intros Hv Hlen Hl.
  destruct (commit_call_end w c)
    as [Hsame _ | identity db1 sta Hid Hval _ Hend].
  - rewrite (same_chain_getChainLen _ _ Hsame).
    split; [exact Hlen | eapply linked_same_chain; eauto].
  - pose proof (validateSegment_pass _ _ _ _ _ _ Hval)
      as (Hsame & Hseq & Hprev & _).
    pose proof (validateSegment_pass_rules _ _ _ _ _ _ Hval)
      as (_ & _ & _ & _ & Hsig).
    apply validateSignature_pass in Hsig. rewrite Hv in Hsig.
    pose proof (linked_same_chain verify _ _ Hsame Hl) as Hl1.
    rewrite <- (same_chain_getChainLen _ _ Hsame) in Hseq, Hlen.
    rewrite <- (same_chain_getChainHead _ _ Hsame) in Hprev.
    split.
    + destruct (append_end_len _ _ _ _ Hend) as [(-> & _) | (_ & -> & _)];
        lia.
    + eapply append_end_linked; eauto.
Qed.

Lemma commit_calls_linked verify (calls : list Call) (w : World) :
  Forall (fun c => env_verify (call_env c) = verify) calls ->
  0 <= getChainLen (w_db w) -> chain_linked verify (w_db w) ->
  0 <= getChainLen (w_db (commit_calls calls w))
  /\ chain_linked verify (w_db (commit_calls calls w)).
Proof.
  revert w. induction calls as [| c calls IH]; intros w Hall Hlen Hl;
    [auto |].
  apply Forall_cons_iff in Hall as [Hc Hall].
  cbn [commit_calls fold_left].
  destruct (commit_call_linked verify w c Hc Hlen Hl) as [Hlen' Hl'].
  apply IH; assumption.
Qed.

(** A whole chain passes the verification, whatever its length. *)
Lemma linked_integrity_ok verify t1 t2 db :
  0 <= getChainLen db -> chain_linked verify db ->
  int_ok (verifyChainIntegrity verify t1 t2 db true) = true.
Proof.
  intros Hlen Hl.
  destruct (Z.eq_dec (getChainLen db) 0) as [E | Hne].
  - unfold verifyChainIntegrity. rewrite E. reflexivity.
  - apply integrity_ok_iff; [lia | exact Hl].
Qed.

(** The flag [ok] says that there is no error. *)
Lemma integrity_ok_errors verify t1 t2 db vs :
  int_ok (verifyChainIntegrity verify t1 t2 db vs) = true
  <-> int_errors (verifyChainIntegrity verify t1 t2 db vs) = [].
Proof.
  unfold verifyChainIntegrity.
  destruct (getChainLen db =? 0); cbn [int_ok int_errors]; [tauto |].
  rewrite Nat.eqb_eq. apply length_zero_iff_nil.
Qed.

Lemma integrity_verified verify t1 t2 db vs :
  int_verified (verifyChainIntegrity verify t1 t2 db vs) = getChainLen db.
Proof.
  unfold verifyChainIntegrity.
  destruct (Z.eqb_spec (getChainLen db) 0) as [-> |]; reflexivity.
Qed.

(** A chain that passes the verification is whole, when an empty chain
    has the genesis head. *)
Lemma integrity_ok_linked verify t1 t2 db :
  0 <= getChainLen db ->
  (getChainLen db = 0 -> getChainHead db = GENESIS_HASH) ->
  int_ok (verifyChainIntegrity verify t1 t2 db true) = true ->
  chain_linked verify db.
Proof.
  intros Hlen Hgen Hok.
  destruct (Z.eq_dec (getChainLen db) 0) as [E | Hne].
  - split.
    + intros k Hk. lia.
    + rewrite E. exact (Hgen E).
  - apply (integrity_ok_iff verify t1 t2); [lia | exact Hok].
Qed.

(** X1: verification, with signatures, of a non-empty chain succeeds if
    and only if every position from 1 to the chain length holds a segment
    with that sequence number, whose prev_hash is the block hash of its
    predecessor (GENESIS for the first) and whose signature verifies, and
    the stored head is the block hash of the last segment; an empty chain
    passes whatever the stored head is. *)
Theorem chain_verification_sound_and_complete
    (verify : JVal -> string -> string -> option bool) (t1 t2 : Z) (db : DB) :
  (0 < getChainLen db ->
   (int_ok (verifyChainIntegrity verify t1 t2 db true) = true
    <-> chain_linked verify db))
  /\ (getChainLen db = 0 ->
      verifyChainIntegrity verify t1 t2 db true
      = mkIntegrity true 0 [] [] (t2 - t1) None None).
Proof.
  split.
  - apply integrity_ok_iff.
  - intros E. unfold verifyChainIntegrity. rewrite E. reflexivity.
Qed.

(** The chain after the first commit on an empty database is whole. *)
Lemma chain_verification_sound_and_complete_witness :
  chain_linked Fixture.verify (w_db Run.after_hello).
Proof.
  apply (proj1 (chain_verification_sound_and_complete
                  Fixture.verify 0 5 (w_db Run.after_hello))).
  - vm_compute. reflexivity.
  - vm_compute. reflexivity.
Defined.

(** X2: if a database passes the chain verification (its chain length
    not being negative, and an empty chain having the genesis head), then
    after any series of calls to commitAction whose signatures are checked
    by the same verification function, the chain verification succeeds
    again: no error is reported and all segments are verified. That holds
    whether the calls are accepted, refused, or fail in the append, also
    when a failed append has left its rows in the database. *)
Theorem committed_chain_verifies
    (verify : JVal -> string -> string -> option bool)
    (w : World) (calls : list Call) (t1 t2 t1' t2' : Z) :
  0 <= getChainLen (w_db w) ->
  (getChainLen (w_db w) = 0 -> getChainHead (w_db w) = GENESIS_HASH) ->
  int_ok (verifyChainIntegrity verify t1 t2 (w_db w) true) = true ->
  Forall (fun c => env_verify (call_env c) = verify) calls ->
  let r := verifyChainIntegrity verify t1' t2'
             (w_db (commit_calls calls w)) true in
  int_ok r = true
  /\ int_errors r = []
  /\ int_verified r = getChainLen (w_db (commit_calls calls w)).
Proof.
  intros Hcons Hgen Hok Hall r.
  pose proof (integrity_ok_linked verify t1 t2 _ Hcons Hgen Hok) as Hl.
  destruct (commit_calls_linked verify calls w Hall Hcons Hl) as [Hcons' Hl'].
  assert (Hr : int_ok r = true) by (apply linked_integrity_ok; assumption).
  split; [exact Hr |]. split.
  - apply integrity_ok_errors. exact Hr.
  - apply integrity_verified.
Qed.

Lemma emptyDB_linked verify : chain_linked verify emptyDB.
Proof.
  split.
  - intros k Hk. cbn in Hk. lia.
  - reflexivity.
Qed.

(** The session of four calls on an empty database leaves a chain of
    three segments that verifies. *)
Lemma committed_chain_verifies_witness :
  let r := verifyChainIntegrity Fixture.verify 10 20
             (w_db (commit_calls Session.calls Session.start)) true in
  int_ok r = true
  /\ int_errors r = []
  /\ int_verified r = getChainLen (w_db (commit_calls Session.calls Session.start)).
Proof.
  apply (committed_chain_verifies Fixture.verify Session.start Session.calls
           0 0 10 20 (Z.le_refl 0) (fun _ => eq_refl) eq_refl).
  repeat constructor.
Defined.

(** ** The corruption scan *)


Ltac one_code :=
  first [apply List.Forall_nil
        | apply List.Forall_cons; [cbn; auto 10 | apply List.Forall_nil]].

Lemma scan_step_codes verify vs db st k :
  Forall (fun e => In (err_code e) error_codes) (sc_errors st) ->
  Forall (fun e => In (err_code e) error_codes)
         (sc_errors (scan_step verify vs db st k)).
Proof.
  intros H. unfold scan_step, signature_errors.
  destruct (getSTABySeq db k) as [s |]; cbn [sc_errors].
  - repeat (apply Forall_app; split); [exact H | | |].
    + destruct (negb _); one_code.
    + destruct (negb _); one_code.
    + destruct vs; [| constructor].
      destruct (verify _ _ _) as [[|] |]; one_code.
  - apply Forall_app. split; [exact H |]. one_code.
Qed.

Lemma scan_fold_codes verify vs db (l : list Z) st :
  Forall (fun e => In (err_code e) error_codes) (sc_errors st) ->
  Forall (fun e => In (err_code e) error_codes)
         (sc_errors (fold_left (scan_step verify vs db) l st)).
Proof.
  revert st. induction l as [| k l IH]; intros st H; [exact H |].
  cbn [fold_left]. apply IH. apply scan_step_codes. exact H.
Qed.

(** Every error that the verification reports carries one of six codes. *)
Lemma integrity_error_codes verify t1 t2 db vs :
  Forall (fun e => In (err_code e) error_codes)
         (int_errors (verifyChainIntegrity verify t1 t2 db vs)).
Proof.
  unfold verifyChainIntegrity.
  destruct (getChainLen db =? 0); cbn [int_errors]; [constructor |].
  apply Forall_app. split.
  - apply scan_fold_codes. constructor.
  - destruct (negb _); one_code.
Qed.

Lemma filter_length_pos {A} (f : A -> bool) (l : list A) :
  Nat.ltb 0 (length (List.filter f l)) = true
  <-> exists x, In x l /\ f x = true.
Proof.
  rewrite Nat.ltb_lt. split.
  - intros H. destruct (List.filter f l) as [| x r] eqn:E; [cbn in H; lia |].
    exists x. apply List.filter_In. rewrite E. left. reflexivity.
  - intros (x & Hin & Hf).
    assert (Hx : In x (List.filter f l)) by (apply List.filter_In; auto).
    destruct (List.filter f l); [destruct Hx | cbn; lia].
Qed.

Lemma includes_critical (e : IntegrityError) :
  includes critical_codes (err_code e) = true <-> is_critical e.
Proof.
  unfold includes, critical_codes, is_critical. cbn [existsb].
  rewrite !orb_true_iff, !String.eqb_eq. intuition discriminate.
Qed.

(** X3: the scan classifies by the errors and warnings of the chain
    verification: critical exactly when an error is HASH_CHAIN_BROKEN,
    HEAD_MISMATCH or MISSING_SEGMENT; major exactly when there are errors
    and all of them are SEQ_MISMATCH, INVALID_SIGNATURE or SIGNATURE_ERROR;
    minor exactly when there are warnings and no error; none otherwise.
    So the severity is critical or major exactly when the verification
    fails, and the report says corrupted unless there is neither an error
    nor a warning. *)
Theorem scan_severity_by_errors
    (verify : JVal -> string -> string -> option bool) (t1 t2 : Z) (db : DB) :
  let r := scanForCorruption verify t1 t2 db in
  let i := verifyChainIntegrity verify t1 t2 db true in
  (severity r = "critical"%string
   <-> exists e, In e (int_errors i) /\ is_critical e)
  /\ (severity r = "major"%string
      <-> int_errors i <> []
          /\ forall e, In e (int_errors i) ->
               err_code e = "SEQ_MISMATCH"%string
               \/ err_code e = "INVALID_SIGNATURE"%string
               \/ err_code e = "SIGNATURE_ERROR"%string)
  /\ (severity r = "minor"%string
      <-> int_errors i = [] /\ int_warnings i <> [])
  /\ (severity r = "none"%string
      <-> int_errors i = [] /\ int_warnings i = [])
  /\ ((severity r = "critical"%string \/ severity r = "major"%string)
      <-> int_ok i = false)
  /\ (corrupted r = false <-> int_errors i = [] /\ int_warnings i = []).
Proof.
  intros r i.
  pose proof (integrity_error_codes verify t1 t2 db true) as Hcodes.
  pose proof (integrity_ok_errors verify t1 t2 db true) as Hok.
  fold i in Hcodes, Hok.
  assert (Hcrit : Nat.ltb 0 (length (List.filter
                     (fun e => includes critical_codes (err_code e))
                     (int_errors i))) = true
                  <-> exists e, In e (int_errors i) /\ is_critical e).
  { rewrite filter_length_pos. split; intros (e & Hin & He); exists e;
      (split; [exact Hin |]); apply includes_critical; exact He. }
  assert (Hnoncrit : (forall e, In e (int_errors i) ->
                        err_code e = "SEQ_MISMATCH"%string
                        \/ err_code e = "INVALID_SIGNATURE"%string
                        \/ err_code e = "SIGNATURE_ERROR"%string)
                     <-> ~ exists e, In e (int_errors i) /\ is_critical e).
  { split.
    - intros H (e & Hin & He). specialize (H e Hin).
      unfold is_critical in He.
      destruct H as [H | [H | H]]; rewrite H in He;
        destruct He as [He | [He | He]]; discriminate.
    - intros H e Hin.
      rewrite List.Forall_forall in Hcodes. specialize (Hcodes e Hin).
      cbn in Hcodes.
      destruct Hcodes as [E | [E | [E | [E | [E | [E | []]]]]]]; auto;
        exfalso; apply H; exists e; (split; [exact Hin |]);
        unfold is_critical; auto. }
  assert (Hnil : forall A (l : list A), Nat.ltb 0 (length l) = false -> l = []).
  { intros A [| x l]; [reflexivity | discriminate]. }
  assert (Hcons : forall A (l : list A), Nat.ltb 0 (length l) = true -> l <> []).
  { intros A [| x l]; [discriminate | discriminate]. }
  assert (Hokf : int_errors i <> [] -> int_ok i = false).
  { intros Hne. destruct (int_ok i); [| reflexivity].
    exfalso. apply Hne, Hok. reflexivity. }
  subst r. unfold scanForCorruption. fold i.
  destruct (Nat.ltb 0 (length (List.filter _ (int_errors i)))) eqn:Ec.
  { pose proof (proj1 Hcrit eq_refl) as Ec'. clear Ec. rename Ec' into Ec.
    cbn [severity corrupted].
    assert (Hne : int_errors i <> []).
    { destruct Ec as (e & Hin & _). intros E. rewrite E in Hin. destruct Hin. }
    specialize (Hokf Hne).
    split; [tauto |]. split; [split; [discriminate | tauto] |].
    split; [split; [discriminate | tauto] |].
    split; [split; [discriminate | tauto] |].
    split; [tauto |]. split; [discriminate | tauto]. }
  assert (Hnc : ~ exists e, In e (int_errors i) /\ is_critical e).
  { intros H. apply Hcrit in H. discriminate H. }
  destruct (Nat.ltb 0 (length (int_errors i))) eqn:Ee.
  { cbn [severity corrupted]. apply Hcons in Ee. specialize (Hokf Ee).
    split; [split; [discriminate | tauto] |]. split; [tauto |].
    split; [split; [discriminate | tauto] |].
    split; [split; [discriminate | tauto] |].
    split; [tauto |]. split; [discriminate | tauto]. }
  apply Hnil in Ee.
  assert (Ht : int_ok i = true) by (apply Hok; exact Ee).
  destruct (Nat.ltb 0 (length (int_warnings i))) eqn:Ew;
    cbn [severity corrupted].
  - apply Hcons in Ew.
    split; [split; [discriminate | intros (e & Hin & _); rewrite Ee in Hin;
                                   destruct Hin] |].
    split; [split; [discriminate | tauto] |].
    split; [tauto |].
    split; [split; [discriminate | tauto] |].
    split; [split; [intros [H | H]; discriminate H | congruence] |].
    split; [discriminate | tauto].
  - apply Hnil in Ew.
    split; [split; [discriminate | intros (e & Hin & _); rewrite Ee in Hin;
                                   destruct Hin] |].
    split; [split; [discriminate | tauto] |].
    split; [split; [discriminate | tauto] |].
    split; [tauto |].
    split; [split; [intros [H | H]; discriminate H | congruence] |].
    tauto.
Qed.

(** ** Starting the application *)

Lemma context_commits_refused (ctx : Context)
    (calls : list (Env * string * JVal)) :
  readOnly ctx = true ->
  context_commits ctx calls = (map (fun _ => refusal) calls, ctx).
Proof.
  intros Hro. induction calls as [| [[e type] payload] rest IH];
    [reflexivity |].
  cbn [context_commits map]. rewrite (context_refuses e ctx type payload Hro).
  rewrite IH. reflexivity.
Qed.

Lemma initializeApp_same_chain verify clock db identity vi :
  let ctx := initializeApp verify clock db identity vi in
  meta_chain_head (w_db (ctx_world ctx)) = meta_chain_head db
  /\ meta_chain_len (w_db (ctx_world ctx)) = meta_chain_len db
  /\ state_chain (w_db (ctx_world ctx)) = state_chain db
  /\ sync_log (w_db (ctx_world ctx)) = sync_log db
  /\ messages (w_db (ctx_world ctx)) = messages db.
Proof.
  unfold initializeApp.
  set (db1 := if vi then _ else db).
  assert (H1 : meta_chain_head db1 = meta_chain_head db
               /\ meta_chain_len db1 = meta_chain_len db
               /\ state_chain db1 = state_chain db
               /\ sync_log db1 = sync_log db
               /\ messages db1 = messages db).
  { subst db1. destruct vi; [| tauto].
    destruct (int_ok _); cbn; tauto. }
  pose proof (getCurrentCaps_same_chain (boot_caps clock) db1 ∅
                (id_hid identity)) as Hs.
  destruct (getCurrentCaps (boot_caps clock) db1 ∅ (id_hid identity))
    as [[v db2] cache]. cbn [fst snd] in Hs. cbn [ctx_world w_db].
  destruct Hs as (-> & -> & _ & -> & -> & ->). exact H1.
Qed.

(** X4: when the chain verification at start-up fails, the application
    starts in read-only mode: the latch is written to the database with
    the reason corruption_detected, the context's flag is set, every call
    to the context's commitAction is refused with read_only_mode and
    changes nothing, and the start-up itself has left the chain (segments,
    nonces, projections, head and length) as it found it. *)
Theorem startup_latches_a_broken_chain
    (verify : JVal -> string -> string -> option bool) (clock : BootClock)
    (db : DB) (identity : Identity) (calls : list (Env * string * JVal)) :
  int_ok (verifyChainIntegrity verify (boot_verify_start clock)
            (boot_verify_end clock) db true) = false ->
  let ctx := initializeApp verify clock db identity true in
  readOnly ctx = true
  /\ meta_read_only (w_db (ctx_world ctx))
     = Some (mkReadOnly true (Some "corruption_detected"%string)
               (Some (boot_latch clock)) None)
  /\ isReadOnlyMode (w_db (ctx_world ctx)) = true
  /\ context_commits ctx calls = (map (fun _ => refusal) calls, ctx)
  /\ meta_chain_head (w_db (ctx_world ctx)) = meta_chain_head db
  /\ meta_chain_len (w_db (ctx_world ctx)) = meta_chain_len db
  /\ state_chain (w_db (ctx_world ctx)) = state_chain db
  /\ sync_log (w_db (ctx_world ctx)) = sync_log db
  /\ messages (w_db (ctx_world ctx)) = messages db.
Proof.
  intros Hbad ctx.
  pose proof (initializeApp_same_chain verify clock db identity true) as Hsame.
  fold ctx in Hsame.
  assert (Hro : readOnly ctx = true
                /\ meta_read_only (w_db (ctx_world ctx))
                   = Some (mkReadOnly true (Some "corruption_detected"%string)
                             (Some (boot_latch clock)) None)).
  { subst ctx. unfold initializeApp. rewrite Hbad.
    pose proof (getCurrentCaps_same_chain (boot_caps clock)
                  (enterReadOnlyMode (boot_latch clock) db) ∅
                  (id_hid identity)) as Hs.
    destruct (getCurrentCaps _ _ _ _) as [[v db2] cache].
    cbn [fst snd] in Hs. cbn [readOnly ctx_world w_db].
    destruct Hs as (_ & _ & -> & _). split; reflexivity. }
  destruct Hro as [Hro Hlatch].
  split; [exact Hro |]. split; [exact Hlatch |].
  split; [unfold isReadOnlyMode; rewrite Hlatch; reflexivity |].
  split; [apply context_commits_refused; exact Hro |].
  exact Hsame.
Qed.

(** A database that says it holds one segment and holds none *)
Lemma startup_latches_a_broken_chain_witness :
  let ctx := initializeApp Fixture.verify
               (mkBootClock Fixture.t0 (Fixture.t0 + 3) (Fixture.t0 + 4)
                  (Fixture.t0 + 5))
               (put_head emptyDB "0000" 1) Fixture.alice true in
  readOnly ctx = true
  /\ context_commits ctx
       [(Fixture.env (Fixture.t0 + 9) Fixture.nonce1, CHAT_USER, Fixture.hello)]
     = ([refusal], ctx).
Proof.
  destruct (startup_latches_a_broken_chain Fixture.verify
              (mkBootClock Fixture.t0 (Fixture.t0 + 3) (Fixture.t0 + 4)
                 (Fixture.t0 + 5))
              (put_head emptyDB "0000" 1) Fixture.alice
              [(Fixture.env (Fixture.t0 + 9) Fixture.nonce1, CHAT_USER,
                Fixture.hello)]
              eq_refl) as (H1 & _ & _ & H2 & _).
  split; [exact H1 | exact H2].
Defined.

Lemma commit_call_latch (w : World) (c : Call) :
  meta_read_only (w_db (commit_call w c)) = meta_read_only (w_db w).
Proof.
  destruct (commit_call_end w c)
    as [Hsame _ | identity db1 sta Hid Hval _ Hend].
  - destruct Hsame as (_ & _ & -> & _). reflexivity.
  - apply validateSegment_pass in Hval.
    destruct Hval as ((_ & _ & <- & _) & _).
    destruct (append_end_len _ _ _ _ Hend)
      as [(_ & _ & ->) | (_ & _ & _ & _ & ->)]; reflexivity.
Qed.

Lemma commit_calls_latch (calls : list Call) (w : World) :
  meta_read_only (w_db (commit_calls calls w)) = meta_read_only (w_db w).
Proof.
  revert w. induction calls as [| c calls IH]; intros w; [reflexivity |].
  cbn [commit_calls fold_left].
  fold (commit_calls calls (commit_call w c)).
  rewrite IH. apply commit_call_latch.
Qed.

(** X5: commits never touch the latch, and a chain that verified before a
    series of commits verifies after it; so the application, started again
    on the database that the commits have written, is not in read-only
    mode and its context passes every commit on to the state manager. *)
Theorem restart_after_commits_is_writable
    (verify : JVal -> string -> string -> option bool) (clock : BootClock)
    (w : World) (calls : list Call) (identity : Identity)
    (verifyIntegrity : bool) (t1 t2 : Z) :
  0 <= getChainLen (w_db w) ->
  (getChainLen (w_db w) = 0 -> getChainHead (w_db w) = GENESIS_HASH) ->
  int_ok (verifyChainIntegrity verify t1 t2 (w_db w) true) = true ->
  isReadOnlyMode (w_db w) = false ->
  Forall (fun c => env_verify (call_env c) = verify) calls ->
  let db := w_db (commit_calls calls w) in
  let ctx := initializeApp verify clock db identity verifyIntegrity in
  isReadOnlyMode db = false
  /\ readOnly ctx = false
  /\ isReadOnlyMode (w_db (ctx_world ctx)) = false
  /\ forall e type payload,
       context_commitAction e ctx type payload
       = (fst (commitAction e (ctx_world ctx) type payload None),
          mkContext false
            (snd (commitAction e (ctx_world ctx) type payload None))).
Proof.
  intros Hcons Hgen Hok Hro Hall db ctx.
  pose proof (integrity_ok_linked verify t1 t2 _ Hcons Hgen Hok) as Hl.
  destruct (commit_calls_linked verify calls w Hall Hcons Hl) as [Hcons' Hl'].
  fold db in Hcons', Hl'.
  assert (Hdb : isReadOnlyMode db = false).
  { unfold isReadOnlyMode, db. rewrite (commit_calls_latch calls w).
    exact Hro. }
  assert (Hv : int_ok (verifyChainIntegrity verify (boot_verify_start clock)
                         (boot_verify_end clock) db true) = true)
    by (apply linked_integrity_ok; assumption).
  assert (Hctx : readOnly ctx = false
                 /\ isReadOnlyMode (w_db (ctx_world ctx)) = false).
  { subst ctx. unfold initializeApp. rewrite Hv.
    assert (E : (if verifyIntegrity then db else db) = db)
      by (destruct verifyIntegrity; reflexivity).
    rewrite E.
    pose proof (getCurrentCaps_same_chain (boot_caps clock) db ∅
                  (id_hid identity)) as Hs.
    destruct (getCurrentCaps _ _ _ _) as [[v db2] cache].
    cbn [fst snd] in Hs. cbn [readOnly ctx_world w_db].
    split; [exact Hdb |].
    unfold isReadOnlyMode in *. destruct Hs as (_ & _ & -> & _). exact Hdb. }
  destruct Hctx as [Hflag Hlatch].
  split; [exact Hdb |]. split; [exact Hflag |]. split; [exact Hlatch |].
  intros e type payload. unfold context_commitAction. rewrite Hflag.
  destruct (commitAction e (ctx_world ctx) type payload None) as [r w'].
  reflexivity.
Qed.

(** The session of four calls, then a restart *)
Lemma restart_after_commits_is_writable_witness :
  readOnly
    (initializeApp Fixture.verify
       (mkBootClock (Fixture.t0 + 5000) (Fixture.t0 + 5003)
          (Fixture.t0 + 5004) (Fixture.t0 + 5005))
       (w_db (commit_calls Session.calls Session.start)) Fixture.alice true)
  = false.
Proof.
  assert (Hall : Forall (fun c => env_verify (call_env c) = Fixture.verify)
                        Session.calls) by repeat constructor.
  destruct (restart_after_commits_is_writable Fixture.verify
              (mkBootClock (Fixture.t0 + 5000) (Fixture.t0 + 5003)
                 (Fixture.t0 + 5004) (Fixture.t0 + 5005))
              Session.start Session.calls Fixture.alice true 0 0
              (Z.le_refl 0) (fun _ => eq_refl) eq_refl eq_refl Hall)
    as (_ & H & _).
  exact H.
Defined.

(** ** The scan of a chain that one state manager has written *)

Lemma scan_upto_warnings verify vs hid db (n : nat) :
  linked_upto verify db (Z.of_nat n) -> paced hid db ->
  sc_warnings (scan_upto verify vs db n) = []
  /\ sc_lastTimestamp (scan_upto verify vs db n)
     = match n with O => 0 | S _ => timestamp_at db (Z.of_nat n) end.
Proof.
  intros Hl [Hauth Hpace]. induction n as [| n IH].
  - split; reflexivity.
  - replace (Z.of_nat (S n)) with (Z.of_nat n + 1) in Hl by lia.
    apply linked_upto_S in Hl; [| lia].
    destruct Hl as (Hl & s & Hs & _).
    destruct (IH Hl) as [IHw IHt].
    rewrite scan_upto_S.
    replace (Z.of_nat (S n)) with (Z.of_nat n + 1) by lia.
    unfold scan_step, timestamp_at. rewrite Hs.
    cbn [sc_warnings sc_lastTimestamp]. split; [| reflexivity].
    rewrite IHw, IHt. cbn [app].
    destruct (Z.ltb_spec (s_timestamp s)
                (match n with O => 0 | S _ => timestamp_at db (Z.of_nat n) end))
      as [Hlt | _]; [exfalso | reflexivity].
    unfold getSTABySeq in Hs.
    destruct n as [| n'].
    + destruct (Hauth _ _ Hs). lia.
    + destruct (Hl (Z.of_nat (S n')) ltac:(lia)) as (p & Hp & _).
      unfold timestamp_at in Hlt. rewrite Hp in Hlt.
      unfold getSTABySeq in Hp.
      assert (Hp' : state_chain db !! (Z.of_nat (S n') + 1 - 1) = Some p).
      { replace (Z.of_nat (S n') + 1 - 1) with (Z.of_nat (S n')) by lia.
        exact Hp. }
      pose proof (Hpace _ _ _ Hs Hp'). unfold MIN_BLOCK_INTERVAL_MS in *. lia.
Qed.

Lemma paced_same_chain hid (db db' : DB) :
  same_chain db db' -> paced hid db -> paced hid db'.
Proof.
  intros (_ & _ & _ & Hsc & _). unfold paced. rewrite Hsc. tauto.
Qed.

Lemma structure_valid_timestamp (s : Segment) :
  validateSegmentStructure s = Valid -> 0 <= s_timestamp s.
Proof.
  unfold validateSegmentStructure.
  destruct (s_signature s); [| discriminate].
  destruct (s_v s <? 1); [discriminate |].
  destruct (s_seq s <? 1); [discriminate |].
  destruct (Z.ltb_spec (s_timestamp s) 0); [discriminate | intros _; lia].
Qed.

Lemma rate_limit_pass_gap (db : DB) (s p : Segment) :
  0 < getChainLen db ->
  getSTABySeq db (getChainLen db) = Some p ->
  author_hid (s_author p) = author_hid (s_author s) ->
  validateRateLimit db s = Pass ->
  s_timestamp p + MIN_BLOCK_INTERVAL_MS <= s_timestamp s.
Proof.
  intros Hlen Hp Hauth. unfold validateRateLimit.
  rewrite (proj2 (Z.ltb_lt _ _) Hlen), Hp, Hauth, String.eqb_refl.
  destruct (Z.ltb_spec (s_timestamp s - s_timestamp p) MIN_BLOCK_INTERVAL_MS);
    [discriminate | intros _; lia].
Qed.

(** A call by a state manager whose identity is [hid] keeps the chain
    paced. *)
Lemma commit_call_paced hid (w : World) (c : Call) :
  (forall i, sm_identity (w_state w) = Some i -> id_hid i = hid) ->
  chain_bounded (w_db w) ->
  paced hid (w_db w) ->
  paced hid (w_db (commit_call w c))
  /\ (forall i, sm_identity (w_state (commit_call w c)) = Some i ->
                id_hid i = hid).
Proof.
  intros Hident Hb Hp.
  destruct (commit_call_end w c)
    as [Hsame Hst | identity db1 sta Hid Hval Hst Hend].
  - split; [eapply paced_same_chain; eauto |]. rewrite Hst. exact Hident.
  - split.
    2:{ rewrite Hst. intros i Hi.
        rewrite (proj2 (project_base _ _ _)) in Hi. auto. }
    pose proof (validateSegment_pass _ _ _ _ _ _ Hval) as (Hsame & Hseq & _).
    pose proof (validateSegment_pass_rules _ _ _ _ _ _ Hval)
      as (Hstruct & _ & Hrate & _).
    apply structure_valid_timestamp in Hstruct.
    destruct (append_end_chain _ _ _ _ Hend) as [Hsc | [_ Hsc]].
    { destruct Hsame as (_ & _ & _ & Hsc1 & _).
      unfold paced in *. rewrite Hsc, Hsc1. exact Hp. }
    destruct Hsame as (_ & _ & _ & Hsc1 & _). rewrite Hsc1 in Hsc.
    destruct Hb as (Hlen & Hkeys).
    destruct Hp as [Hauth Hpace].
    assert (Hnew : author_hid (s_author sta) = hid).
    { change (author_hid (s_author sta)) with (id_hid identity).
      apply Hident. exact Hid. }
    unfold paced. rewrite Hsc, Hseq. split.
    + intros k s. destruct (Z.eq_dec (getChainLen (w_db w) + 1) k) as [<- | Hne].
      * rewrite lookup_insert_eq. intros [= <-]. auto.
      * rewrite lookup_insert_ne by exact Hne. apply Hauth.
    + intros k s p.
      destruct (Z.eq_dec (getChainLen (w_db w) + 1) k) as [<- | Hne].
      * rewrite lookup_insert_eq, lookup_insert_ne by lia.
        intros [= <-] Hprev.
        replace (getChainLen (w_db w) + 1 - 1) with (getChainLen (w_db w))
          in Hprev by lia.
        pose proof (Hkeys _ _ Hprev) as Hk.
        apply (rate_limit_pass_gap (w_db w)); auto; [lia |].
        rewrite Hnew. apply (Hauth _ _ Hprev).
      * rewrite lookup_insert_ne by exact Hne. intros Hs.
        destruct (Z.eq_dec (getChainLen (w_db w) + 1) (k - 1)) as [E | Hne'].
        -- pose proof (Hkeys _ _ Hs). lia.
        -- rewrite lookup_insert_ne by exact Hne'. apply Hpace. exact Hs.
Qed.

Lemma commit_calls_paced hid (calls : list Call) (w : World) :
  (forall i, sm_identity (w_state w) = Some i -> id_hid i = hid) ->
  chain_bounded (w_db w) ->
  paced hid (w_db w) ->
  paced hid (w_db (commit_calls calls w)).
Proof.
  revert w. induction calls as [| c calls IH]; intros w Hident Hb Hp;
    [exact Hp |].
  cbn [commit_calls fold_left].
  destruct (commit_call_paced hid w c Hident Hb Hp) as [Hp' Hident'].
  apply IH; [assumption | apply commit_call_bounded; assumption | assumption].
Qed.

Lemma emptyDB_chain_bounded : chain_bounded emptyDB.
Proof.
  split; [cbn; lia |]. intros k s. cbn. rewrite lookup_empty. discriminate.
Qed.

Lemma init_identity (db : DB) (identity : option Identity) :
  sm_identity (init newStateManager db identity) = identity.
Proof.
  unfold init. rewrite (proj2 (rebuild_base _ _)). cbn.
  destruct identity; reflexivity.
Qed.

(** X6: a chain that one state manager has written from an empty database
    scans as healthy: the scan reports no issue, severity none and not
    corrupted, however the clock behaved during the commits; for
    consecutive segments are stamped at least 1000 ms apart, a commit
    stamped earlier being refused by the rate limit. *)
Theorem own_chain_scans_healthy
    (verify : JVal -> string -> string -> option bool)
    (identity : option Identity) (tracker : option (gmap string CapsRecord))
    (calls : list Call) (t1 t2 : Z) :
  Forall (fun c => env_verify (call_env c) = verify) calls ->
  let db := w_db (commit_calls calls
                    (mkWorld (init newStateManager emptyDB identity)
                       emptyDB tracker)) in
  scanForCorruption verify t1 t2 db
  = {| corrupted := false;
       severity := "none";
       issues := [];
       recommendation := "Chain is healthy";
       stats := {| stat_verified := getChainLen db;
                   stat_errors := 0;
                   stat_warnings := 0;
                   stat_duration := t2 - t1 |} |}
  /\ (forall k s p, getSTABySeq db k = Some s ->
        getSTABySeq db (k - 1) = Some p ->
        s_timestamp p + 1000 <= s_timestamp s).
Proof.
  intros Hall db.
  set (w0 := mkWorld (init newStateManager emptyDB identity) emptyDB tracker)
    in *.
  set (hid := match identity with Some i => id_hid i | None => EmptyString end).
  assert (Hident : forall i, sm_identity (w_state w0) = Some i -> id_hid i = hid).
  { intros i. cbn [w0 w_state]. rewrite init_identity. intros ->. reflexivity. }
  assert (Hp0 : paced hid (w_db w0)).
  { split; intros k s; cbn; rewrite lookup_empty; discriminate. }
  destruct (commit_calls_linked verify calls w0 Hall (Z.le_refl 0)
              (emptyDB_linked verify)) as [Hcons Hl].
  pose proof (commit_calls_paced hid calls w0 Hident emptyDB_chain_bounded Hp0)
    as Hp.
  fold db in Hcons, Hl, Hp.
  split; [| exact (proj2 Hp)].
  pose proof (linked_integrity_ok verify t1 t2 db Hcons Hl) as Hok.
  apply integrity_ok_errors in Hok.
  assert (Hw : int_warnings (verifyChainIntegrity verify t1 t2 db true) = []).
  { unfold verifyChainIntegrity.
    destruct (getChainLen db =? 0); [reflexivity |]. cbn [int_warnings].
    rewrite scan_range_upto.
    pose proof Hcons as Hlen. destruct Hl as [Hl _].
    apply (scan_upto_warnings verify true hid db); [| exact Hp].
    rewrite Z2Nat.id by lia. exact Hl. }
  unfold scanForCorruption. rewrite Hok, Hw.
  cbn [map app length List.filter Nat.ltb Nat.leb severity corrupted].
  rewrite integrity_verified.
  f_equal. f_equal.
  unfold verifyChainIntegrity. destruct (getChainLen db =? 0); reflexivity.
Qed.

(** The session of four calls, scanned *)
Lemma own_chain_scans_healthy_witness :
  severity (scanForCorruption Fixture.verify 10 20
              (w_db (commit_calls Session.calls
                       (mkWorld (init newStateManager emptyDB
                                   (Some Fixture.alice))
                          emptyDB (Some ∅)))))
  = "none"%string.
Proof.
  assert (Hall : Forall (fun c => env_verify (call_env c) = Fixture.verify)
                        Session.calls) by repeat constructor.
  destruct (own_chain_scans_healthy Fixture.verify (Some Fixture.alice)
              (Some ∅) Session.calls 10 20 Hall) as [H _].
  cbv zeta in H. rewrite H. reflexivity.
Defined.

(** ** Replay *)

(** A call moves the chain length by one or not at all, on any database. *)
Lemma commit_call_len (w : World) (c : Call) :
  getChainLen (w_db (commit_call w c)) = getChainLen (w_db w)
  \/ getChainLen (w_db (commit_call w c)) = getChainLen (w_db w) + 1.
Proof.
  destruct (commit_call_end w c)
    as [Hsame _ | identity db1 sta Hid Hval _ Hend].
  - left. apply same_chain_getChainLen. exact Hsame.
  - apply validateSegment_pass in Hval. destruct Hval as (Hsame & Hseq & _).
    destruct (append_end_len _ _ _ _ Hend) as [(-> & _) | (_ & -> & _)].
    + left. apply same_chain_getChainLen. exact Hsame.
    + right. exact Hseq.
Qed.

Lemma chain_step_len (w : World) (op : ChainOp) :
  getChainLen (w_db w) <= getChainLen (w_db (chain_step w op)).
Proof.
  destruct op as [c | now maxAgeMs]; cbn [chain_step].
  - destruct (commit_call_len w c); lia.
  - cbn. reflexivity.
Qed.

Lemma chain_run_len (ops : list ChainOp) (w : World) :
  getChainLen (w_db w) <= getChainLen (w_db (chain_run ops w)).
Proof.
  revert w. induction ops as [| op ops IH]; intros w; [reflexivity |].
  cbn [chain_run fold_left]. fold (chain_run ops (chain_step w op)).
  pose proof (chain_step_len w op). specialize (IH (chain_step w op)). lia.
Qed.

(** X7: a segment that commitAction has appended is never valid again:
    after any further commits and any clean-ups of the nonce log,
    validateSegment refuses it, for every caller's options and clock,
    since its sequence number is no longer the next one. *)
Theorem committed_segment_is_never_valid_again
    (e : Env) (w : World) (type : string) (payload : JVal)
    (previousOwner : option string) (identity : Identity)
    (ops : list ChainOp) (e' : Env) (options : ValidationOptions) :
  sm_identity (w_state w) = Some identity ->
  ok (fst (commitAction e w type payload previousOwner)) = true ->
  let sta := candidate e (w_db w) identity type payload previousOwner in
  let later := chain_run ops (snd (commitAction e w type payload previousOwner)) in
  getSTABySeq (w_db (snd (commitAction e w type payload previousOwner)))
    (s_seq sta) = Some sta
  /\ s_seq sta <= getChainLen (w_db later)
  /\ v_ok (fst (fst (validateSegment e' (w_db later) sta options))) = false.
Proof.
  intros Hid Hok sta later.
  destruct (successful_commit_facts e w type payload previousOwner identity
              Hid Hok) as (Hsc & Hlen).
  fold sta in Hsc, Hlen.
  assert (Hle : s_seq sta <= getChainLen (w_db later)).
  { rewrite <- Hlen. apply chain_run_len. }
  split; [| split; [exact Hle |]].
  - unfold getSTABySeq. rewrite Hsc. apply lookup_insert_eq.
  - destruct (validateSegment e' (w_db later) sta options)
      as [[v db2] tracker2] eqn:Hv.
    cbn [fst]. destruct v; [| reflexivity].
    apply validateSegment_pass in Hv. destruct Hv as (_ & Hseq & _). lia.
Qed.

(** The first commit of the fixture, the session's later calls and a
    clean-up of the whole nonce log *)
Lemma committed_segment_is_never_valid_again_witness :
  let later :=
    chain_run [OpCommit (mkCall (Fixture.env (Fixture.t0 + 1000) Fixture.nonce2)
                           BIZ_DECISION Session.decision None);
               OpCleanup (Fixture.t0 + 5000) 0]
      Run.after_hello in
  nonceExists (w_db later) (s_nonce Run.seg1) = false
  /\ v_ok (fst (fst (validateSegment (Fixture.env (Fixture.t0 + 9000) Session.nonce3)
                         (w_db later) Run.seg1
                         {| capsTracker := None; skipLivenessCheck := true |})))
     = false.
Proof.
  split; [vm_compute; reflexivity |].
  apply (committed_segment_is_never_valid_again
           (Fixture.env Fixture.t0 Fixture.nonce1) Fixture.fresh
           CHAT_USER Fixture.hello None Fixture.alice
           [OpCommit (mkCall (Fixture.env (Fixture.t0 + 1000) Fixture.nonce2)
                        BIZ_DECISION Session.decision None);
            OpCleanup (Fixture.t0 + 5000) 0]
           (Fixture.env (Fixture.t0 + 9000) Session.nonce3)
           {| capsTracker := None; skipLivenessCheck := true |}
           eq_refl).
  vm_compute. reflexivity.
Defined.

(** ** Batches *)

Lemma validateBatch_spec (db : DB) (segments : list (Env * Segment))
    (tracker : option (gmap string CapsRecord)) (skipLiveness : bool) :
  let '(valid, invalid, db', tracker') :=
    validateBatch db segments tracker skipLiveness in
  same_chain db db'
  /\ (length valid + length invalid = length segments)%nat
  /\ (forall s, In s valid ->
        In s (map snd segments)
        /\ s_seq s = getChainLen db + 1
        /\ s_prev_hash s = getChainHead db
        /\ nonceExists db (s_nonce s) = false)
  /\ (forall s r, In (s, r) invalid -> In s (map snd segments) /\ v_ok r = false).
Proof.
  revert db tracker.
  induction segments as [| [e segment] rest IH]; intros db tracker.
  - cbn. split; [apply same_chain_refl |]. split; [reflexivity |].
    split; [intros s [] | intros s r []].
  - cbn [validateBatch].
    destruct (validateSegment e db segment _) as [[result db1] tracker1] eqn:Hv.
    pose proof (validateSegment_same_chain e db segment
                  {| capsTracker := tracker; skipLivenessCheck := skipLiveness |})
      as Hsame.
    rewrite Hv in Hsame. cbn [fst snd] in Hsame.
    specialize (IH db1 tracker1).
    destruct (validateBatch db1 rest tracker1 skipLiveness)
      as [[[valid invalid] db2] tracker2].
    destruct IH as (Hsame' & Hlen & Hvalid & Hinvalid).
    rewrite (same_chain_getChainLen _ _ Hsame) in Hvalid.
    rewrite (same_chain_getChainHead _ _ Hsame) in Hvalid.
    assert (Hlog : forall n, nonceExists db1 n = nonceExists db n).
    { intros n. unfold nonceExists.
      destruct Hsame as (_ & _ & _ & _ & -> & _). reflexivity. }
    destruct result as [| rule reason message]; cbn [v_ok map snd].
    + split; [eapply same_chain_trans; eauto |].
      split; [cbn [length]; lia |]. split.
      * intros s [<- | Hin].
        -- apply validateSegment_pass in Hv.
           destruct Hv as (_ & Hseq & Hprev & Hnonce).
           split; [left; reflexivity |]. split; [exact Hseq |].
           split; [exact Hprev |]. unfold nonceExists. rewrite Hnonce.
           reflexivity.
        -- destruct (Hvalid s Hin) as (H1 & H2 & H3 & H4).
           rewrite Hlog in H4. split; [right; exact H1 | auto].
      * intros s r Hin. destruct (Hinvalid s r Hin) as [H1 H2].
        split; [right; exact H1 | exact H2].
    + split; [eapply same_chain_trans; eauto |].
      split; [cbn [length]; lia |]. split.
      * intros s Hin. destruct (Hvalid s Hin) as (H1 & H2 & H3 & H4).
        rewrite Hlog in H4. split; [right; exact H1 | auto].
      * intros s r [[= <- <-] | Hin]; [split; [left |]; reflexivity |].
        destruct (Hinvalid s r Hin) as [H1 H2].
        split; [right; exact H1 | exact H2].
Qed.

(** X8: validateBatch validates every segment against the chain as it
    stands, without appending: the batch is split into valid and invalid,
    the chain is left as it was, and every segment it reports as valid has
    the next sequence number, names the current head as its predecessor and
    carries an unused nonce; so two segments that follow one another in a
    chain are never both reported valid. *)
Theorem batch_validates_against_one_chain_state
    (db : DB) (segments : list (Env * Segment))
    (tracker : option (gmap string CapsRecord)) (skipLiveness : bool) :
  let valid := fst (fst (fst (validateBatch db segments tracker skipLiveness))) in
  let invalid := snd (fst (fst (validateBatch db segments tracker skipLiveness))) in
  let db' := snd (fst (validateBatch db segments tracker skipLiveness)) in
  same_chain db db'
  /\ (length valid + length invalid = length segments)%nat
  /\ (forall s, In s valid ->
        s_seq s = getChainLen db + 1
        /\ s_prev_hash s = getChainHead db
        /\ nonceExists db (s_nonce s) = false)
  /\ (forall s r, In (s, r) invalid -> v_ok r = false)
  /\ (forall s1 s2, In s1 valid -> In s2 valid -> s_seq s2 <> s_seq s1 + 1).
Proof.
  intros valid invalid db'.
  pose proof (validateBatch_spec db segments tracker skipLiveness) as H.
  subst valid invalid db'.
  destruct (validateBatch db segments tracker skipLiveness)
    as [[[valid invalid] db'] tracker'].
  cbn [fst snd]. destruct H as (Hsame & Hlen & Hvalid & Hinvalid).
  split; [exact Hsame |]. split; [exact Hlen |]. split; [| split].
  - intros s Hin. destruct (Hvalid s Hin) as (_ & H). exact H.
  - intros s r Hin. destruct (Hinvalid s r Hin) as (_ & H). exact H.
  - intros s1 s2 H1 H2.
    destruct (Hvalid s1 H1) as (_ & E1 & _).
    destruct (Hvalid s2 H2) as (_ & E2 & _). lia.
Qed.

(** Two segments that follow one another, validated as a batch against
    the empty chain: the first is valid, the second is not. *)
Example batch_of_two_consecutive_segments :
  let out := validateBatch emptyDB
               [(Fixture.env Fixture.t0 Fixture.nonce1, Run.seg1);
                (Fixture.env (Fixture.t0 + 1000) Fixture.nonce2, Run.seg2 1000)]
               None true in
  fst (fst (fst out)) = [Run.seg1]
  /\ map (fun sr => v_reason (snd sr)) (snd (fst (fst out)))
     = [Some "bad_prev_hash"%string].
Proof. vm_compute. split; reflexivity. Qed.

(** ** The nonce log *)

(** X9: cleanupOldNonces deletes from the nonce log exactly the records
    stamped at or before now - maxAgeMs and answers their number; a nonce
    is known afterwards if and only if it was known with a later stamp;
    the chain, its projections and the caps rows are not touched. *)
Theorem nonce_cleanup_removes_exactly_the_old (now maxAgeMs : Z) (db : DB) :
  let removed := fst (cleanupOldNonces now db maxAgeMs) in
  let db' := snd (cleanupOldNonces now db maxAgeMs) in
  (forall n, nonceExists db' n = true
             <-> exists ts, sync_log db !! n = Some ts /\ now - maxAgeMs < ts)
  /\ (forall n ts, sync_log db' !! n = Some ts -> sync_log db !! n = Some ts)
  /\ removed + Z.of_nat (size (sync_log db')) = Z.of_nat (size (sync_log db))
  /\ state_chain db' = state_chain db
  /\ messages db' = messages db
  /\ caps db' = caps db
  /\ getChainHead db' = getChainHead db
  /\ getChainLen db' = getChainLen db
  /\ isReadOnlyMode db' = isReadOnlyMode db.
Proof.
  intros removed db'. subst removed db'.
  unfold cleanupOldNonces, set_sync_log, nonceExists.
  cbn [fst snd sync_log state_chain messages caps].
  split; [| split; [| split]].
  - intros n.
    destruct (filter (fun kv : string * Z => ~ kv.2 <= now - maxAgeMs)
                (sync_log db) !! n) as [ts |] eqn:E.
    + apply map_lookup_filter_Some in E as [E1 E2]. cbn in E2.
      split; [| reflexivity]. intros _. exists ts. split; [exact E1 | lia].
    + split; [discriminate |]. intros (ts & Hts & Hlt).
      assert (H : filter (fun kv : string * Z => ~ kv.2 <= now - maxAgeMs)
                    (sync_log db) !! n = Some ts).
      { apply map_lookup_filter_Some. split; [exact Hts |]. cbn. lia. }
      congruence.
  - intros n ts H. apply map_lookup_filter_Some in H as [H _]. exact H.
  - rewrite <- Nat2Z.inj_add. f_equal.
    rewrite <- map_size_disj_union
      by apply map_disjoint_filter_complement.
    rewrite map_filter_union_complement. reflexivity.
  - repeat split.
Qed.

(** ** Acceptance *)







(** ** After a failed append *)

(** While the key after the chain length is taken in the store of
    segments, no commit is accepted, and none changes the chain. *)
Lemma blocked_commit (e : Env) (w : World) (type : string) (payload : JVal)
    (previousOwner : option string) :
  state_chain (w_db w) !! (getChainLen (w_db w) + 1) <> None ->
  ok (fst (commitAction e w type payload previousOwner)) = false
  /\ same_chain (w_db w) (w_db (snd (commitAction e w type payload
                                       previousOwner))).
Proof.
  intros Htaken.
  destruct (sm_db (w_state w)) eqn:Hdb.
  2:{ unfold commitAction. rewrite Hdb. cbn.
      split; [reflexivity | apply same_chain_refl]. }
  destruct (sm_identity (w_state w)) as [identity |] eqn:Hid.
  2:{ unfold commitAction. rewrite Hdb, Hid. cbn.
      split; [reflexivity | apply same_chain_refl]. }
  destruct (commitAction_course e w type payload previousOwner identity
              Hdb Hid) as (validation & db1 & tracker1 & _ & Hsame & Hrun).
  cbv zeta in Hrun.
  destruct validation as [| rule reason message];
    [| rewrite Hrun; split; [reflexivity | exact Hsame]].
  assert (Ha : append_adds db1
                 (candidate e (w_db w) identity type payload previousOwner)
               = None).
  { unfold append_adds, add_state_chain.
    destruct Hsame as (_ & _ & _ & -> & _).
    change (s_seq (candidate e (w_db w) identity type payload previousOwner))
      with (getChainLen (w_db w) + 1).
    destruct (state_chain (w_db w) !! (getChainLen (w_db w) + 1));
      [reflexivity | contradiction]. }
  rewrite Ha in Hrun. rewrite Hrun.
  split; [reflexivity | exact Hsame].
Qed.

Lemma blocked_same_chain (db db' : DB) :
  same_chain db db' ->
  state_chain db !! (getChainLen db + 1) <> None ->
  state_chain db' !! (getChainLen db' + 1) <> None.
Proof.
  intros Hsame. rewrite (same_chain_getChainLen _ _ Hsame).
  destruct Hsame as (_ & _ & _ & -> & _). tauto.
Qed.

Lemma blocked_commit_calls (calls : list Call) (w : World) :
  state_chain (w_db w) !! (getChainLen (w_db w) + 1) <> None ->
  same_chain (w_db w) (w_db (commit_calls calls w)).
Proof.
  revert w. induction calls as [| c calls IH]; intros w Htaken;
    [apply same_chain_refl |].
  cbn [commit_calls fold_left]. fold (commit_calls calls (commit_call w c)).
  destruct (blocked_commit (call_env c) w (call_type c) (call_payload c)
              (call_previousOwner c) Htaken) as [_ Hsame].
  fold (commit_call w c) in Hsame.
  eapply same_chain_trans; [exact Hsame |].
  apply IH. eapply blocked_same_chain; eauto.
Qed.

(** X11: one append that has stored its rows without the head blocks the
    chain for good. After a call that succeeds when the transaction stays
    open has failed because the transaction had committed before the
    digest was there, every later commit on that database fails, whatever
    its type, payload, clock or nonce and whichever state manager makes
    it, and the chain keeps its length and its head: the next sequence
    number is taken by the segment of the failed append. *)
Theorem failed_append_blocks_the_chain (e : Env) (w : World) (type : string)
    (payload : JVal) (previousOwner : option string) (identity : Identity)
    (calls : list Call) :
  sm_identity (w_state w) = Some identity ->
  ok (fst (commitAction (with_tx e true) w type payload previousOwner))
  = true ->
  env_tx_open e = false ->
  let failed := snd (commitAction e w type payload previousOwner) in
  let later := commit_calls calls failed in
  getChainLen (w_db later) = getChainLen (w_db w)
  /\ getChainHead (w_db later) = getChainHead (w_db w)
  /\ state_chain (w_db later) !! (getChainLen (w_db w) + 1)
     = Some (candidate e (w_db w) identity type payload previousOwner)
  /\ forall e' sm tracker type' payload' previousOwner',
       ok (fst (commitAction e' (mkWorld sm (w_db later) tracker) type'
                  payload' previousOwner')) = false.
Proof.
  intros Hid Hopen Hclosed failed later.
  set (sta := candidate e (w_db w) identity type payload previousOwner).
  assert (Hfailed : getChainLen (w_db failed) = getChainLen (w_db w)
                    /\ getChainHead (w_db failed) = getChainHead (w_db w)
                    /\ state_chain (w_db failed) !! (getChainLen (w_db w) + 1)
                       = Some sta).
  { subst failed.
    destruct (sm_db (w_state w)) eqn:Hdb.
    2:{ revert Hopen. unfold commitAction. rewrite Hdb. cbn. discriminate. }
    destruct (commitAction_course (with_tx e true) w type payload
                previousOwner identity Hdb Hid)
      as (validation & db1 & tracker1 & Hv & _ & Hrun1).
    destruct (commitAction_course e w type payload previousOwner identity
                Hdb Hid)
      as (validation' & db1' & tracker1' & Hv' & Hsame & Hrun).
    rewrite with_tx_validation, with_tx_candidate in Hv.
    fold sta in Hv, Hv'. rewrite Hv in Hv'. injection Hv' as <- <- <-.
    rewrite with_tx_candidate in Hrun1. fold sta in Hrun1, Hrun.
    cbv zeta in Hrun1, Hrun.
    destruct validation as [| rule reason message];
      [| rewrite Hrun1 in Hopen; discriminate Hopen].
    destruct (append_adds db1 sta) as [db3 |] eqn:Ha;
      [| rewrite Hrun1 in Hopen; discriminate Hopen].
    rewrite Hclosed in Hrun. rewrite Hrun. cbn [snd w_db].
    apply append_adds_Some in Ha.
    destruct Ha as (_ & _ & Hsc & _ & _ & Hh & Hl & _).
    rewrite <- (same_chain_getChainLen _ _ Hsame).
    rewrite <- (same_chain_getChainHead _ _ Hsame).
    unfold getChainLen at 1, getChainHead at 1. rewrite Hh, Hl.
    split; [reflexivity |]. split; [reflexivity |].
    rewrite Hsc.
    change (s_seq sta) with (getChainLen (w_db w) + 1).
    rewrite (same_chain_getChainLen _ _ Hsame). apply lookup_insert_eq. }
  destruct Hfailed as (Hlen & Hhead & Hrow).
  assert (Htaken : state_chain (w_db failed)
                     !! (getChainLen (w_db failed) + 1) <> None).
  { rewrite Hlen, Hrow. discriminate. }
  pose proof (blocked_commit_calls calls failed Htaken) as Hsame.
  fold later in Hsame.
  rewrite (same_chain_getChainLen _ _ Hsame),
    (same_chain_getChainHead _ _ Hsame).
  split; [exact Hlen |]. split; [exact Hhead |]. split.
  - destruct Hsame as (_ & _ & _ & -> & _). exact Hrow.
  - intros e' sm tracker type' payload' previousOwner'.
    apply blocked_commit. cbn [w_db].
    eapply blocked_same_chain; eauto.
Qed.

(** After the failed first commit of Scenario A, the same commit made
    again three seconds later, with the transaction open, fails. *)
Lemma failed_append_blocks_the_chain_witness :
  let e := with_tx (Fixture.env Fixture.t0 Fixture.nonce1) false in
  let failed := snd (commitAction e Fixture.fresh CHAT_USER Fixture.hello
                       None) in
  ok (fst (commitAction (Fixture.env (Fixture.t0 + 3000) Fixture.nonce2)
             failed CHAT_USER Fixture.hello None)) = false
  /\ getChainLen (w_db failed) = 0.
Proof.
  intros e failed.
  assert (Hopen : ok (fst (commitAction (with_tx e true) Fixture.fresh
                             CHAT_USER Fixture.hello None)) = true)
    by (vm_compute; reflexivity).
  destruct (failed_append_blocks_the_chain e Fixture.fresh CHAT_USER
              Fixture.hello None Fixture.alice [] eq_refl Hopen eq_refl)
    as (Hlen & _ & _ & Hall).
  split; [| exact Hlen].
  exact (Hall (Fixture.env (Fixture.t0 + 3000) Fixture.nonce2)
           (w_state failed) (w_tracker failed) CHAT_USER Fixture.hello None).
Defined.

(** ** Views that a rebuild gives back *)












(** *** What the views hold *)










(** X13: getTheme names the band of the rich score: coal below 25, ember
    from 25 and below 50, bronze from 50 and below 80, and gold from 80
    upwards; a score below 0 is coal and one above 100 is gold. *)
Theorem theme_follows_the_rich_score (sm : StateManager) :
  (getTheme sm = "coal"%string <-> sm_richScore sm < 25)
  /\ (getTheme sm = "ember"%string <-> 25 <= sm_richScore sm < 50)
  /\ (getTheme sm = "bronze"%string <-> 50 <= sm_richScore sm < 80)
  /\ (getTheme sm = "gold"%string <-> 80 <= sm_richScore sm).
Proof.
  unfold getTheme.
  destruct (Z.ltb_spec (sm_richScore sm) 25);
    [| destruct (Z.ltb_spec (sm_richScore sm) 50);
       [| destruct (Z.ltb_spec (sm_richScore sm) 80)]];
    repeat split; intros; try lia; try discriminate; reflexivity.
Qed.

(** The themes at the edges of the bands *)
Example themes_at_the_edges :
  map (fun r => getTheme (set_projections newStateManager [] r 0))
    [-1; 0; 24; 25; 49; 50; 79; 80; 100; 101]
  = ["coal"; "coal"; "coal"; "ember"; "ember"; "bronze"; "bronze"; "gold";
     "gold"; "gold"]%string.
Proof. reflexivity. Qed.

(** *** Chat ids that are objects *)

Lemma ref_eqb_refl (r : ObjectRef) : ref_eqb r r = true.
Proof. destruct r; cbn; apply Nat.eqb_refl. Qed.

(** A message pushed under the key of an object is found under that
    object, at the end of its list. *)
Lemma messages_get_push_object (ref : ObjectRef) (v : JVal) (m : Message)
    (l : list (ChatKey * list Message)) :
  exists earlier,
    messages_get (KeyObject ref v) (push_message (KeyObject ref v) m l)
    = Some (earlier ++ [m]).
Proof.
  induction l as [| [k0 ms] l IH]; cbn [push_message messages_get].
  - exists []. cbn [key_eqb]. rewrite ref_eqb_refl. reflexivity.
  - destruct (key_eqb k0 (KeyObject ref v)) eqn:E; cbn [messages_get];
      rewrite E; [exists ms; reflexivity | exact IH].
Qed.

(** A push under another key leaves a key that has no list without one. *)
Lemma messages_get_push_none (k k' : ChatKey) (m : Message)
    (l : list (ChatKey * list Message)) :
  key_eqb k' k = false ->
  messages_get k l = None ->
  messages_get k (push_message k' m l) = None.
Proof.
  intros Hne. induction l as [| [k0 ms] l IH];
    cbn [push_message messages_get].
  - rewrite Hne. reflexivity.
  - destruct (key_eqb k0 k) eqn:E; [discriminate |]. intros Hl.
    destruct (key_eqb k0 k'); cbn [messages_get]; rewrite E; auto.
Qed.

(** A rebuild files nothing under an object of a caller: its keys are
    values and the copies that the database has handed out. *)
Lemma replay_no_caller_object (il : list (nat * Segment)) (sm : StateManager)
    (n : nat) (v : JVal) :
  messages_get (KeyObject (CallerObject n) v) (sm_messages sm) = None ->
  messages_get (KeyObject (CallerObject n) v)
    (sm_messages
       (fold_left (fun acc ista => project (StoredObject (fst ista)) acc
                                     (snd ista)) il sm)) = None.
Proof.
  revert sm. induction il as [| [i s] il IH]; intros sm Hsm;
    cbn [fold_left]; [exact Hsm |].
  apply IH. cbn [fst snd]. unfold project, updateScores.
  cbn [set_projections sm_messages].
  destruct (isMessageType (s_type s)); [| exact Hsm].
  unfold addToMessagesProjection. cbn [set_projections sm_messages].
  apply messages_get_push_none; [| exact Hsm].
  unfold chat_key.
  destruct (jor (m_peer (createMessageProjection s)) (JStr "default"));
    reflexivity.
Qed.

Lemma rebuild_no_caller_object (sm : StateManager) (db : DB) (n : nat)
    (v : JVal) :
  getMessages (rebuildProjections sm db) (KeyObject (CallerObject n) v) = [].
Proof.
  unfold getMessages, rebuildProjections.
  destruct (getChainLen db =? 0); [reflexivity |].
  rewrite replay_no_caller_object; reflexivity.
Qed.

(** X14: a chat id that is an object or an array is a key of the views by
    its identity, and the views do not survive a rebuild. After a
    successful commit of a message-bearing type with such a chat id,
    getMessages finds the message under the caller's object, at the end of
    its list; after rebuildProjections it finds nothing there, because the
    rebuild files every such message under the copy that the database has
    made of its segment. So the rebuilt views differ from the ones of the
    commit path, also when every write has been committed. *)
Theorem object_chat_ids_do_not_survive_a_rebuild (e : Env) (w : World)
    (type : string) (payload : JVal) (previousOwner : option string)
    (identity : Identity) :
  sm_identity (w_state w) = Some identity ->
  ok (fst (commitAction e w type payload previousOwner)) = true ->
  isMessageType type = true ->
  plain_chat payload = false ->
  let sta := candidate e (w_db w) identity type payload previousOwner in
  let w' := snd (commitAction e w type payload previousOwner) in
  let chat := KeyObject (CallerObject (env_chat_ref e)) (chat_id_of payload) in
  let rebuilt := rebuildProjections (w_state w') (w_db w') in
  (exists earlier,
     getMessages (w_state w') chat = earlier ++ [createMessageProjection sta])
  /\ getMessages rebuilt chat = []
  /\ rebuilt <> w_state w'.
Proof.
  intros Hid Hok Hmsg Hplain sta w' chat rebuilt.
  assert (Hst : w_state w'
                = project (CallerObject (env_chat_ref e)) (w_state w) sta).
  { subst w'. revert Hok.
    destruct (sm_db (w_state w)) eqn:Hdb.
    2:{ unfold commitAction. rewrite Hdb. cbn. discriminate. }
    destruct (commitAction_course e w type payload previousOwner identity
                Hdb Hid) as (validation & db1 & tracker1 & _ & _ & Hrun).
    fold sta in Hrun. cbv zeta in Hrun.
    destruct validation as [| rule reason message];
      [| rewrite Hrun; cbn; discriminate].
    destruct (append_adds db1 sta) as [db3 |];
      [| rewrite Hrun; cbn; discriminate].
    destruct (env_tx_open e); rewrite Hrun; [reflexivity | cbn; discriminate]. }
  assert (Hget : exists earlier,
             getMessages (w_state w') chat
             = earlier ++ [createMessageProjection sta]).
  { rewrite Hst. unfold getMessages, project, updateScores.
    cbn [set_projections sm_messages].
    change (s_type sta) with type. rewrite Hmsg.
    unfold addToMessagesProjection. cbn [set_projections sm_messages].
    change (jor (m_peer (createMessageProjection sta)) (JStr "default"))
      with (chat_id_of payload).
    replace (chat_key (CallerObject (env_chat_ref e)) (chat_id_of payload))
      with chat.
    2:{ subst chat. unfold chat_key. unfold plain_chat in Hplain.
        destruct (chat_id_of payload); try discriminate Hplain; reflexivity. }
    destruct (messages_get_push_object (CallerObject (env_chat_ref e))
                (chat_id_of payload) (createMessageProjection sta)
                (sm_messages (w_state w))) as [earlier Hearlier].
    exists earlier. subst chat. rewrite Hearlier. reflexivity. }
  assert (Hnone : getMessages rebuilt chat = [])
    by apply rebuild_no_caller_object.
  split; [exact Hget |]. split; [exact Hnone |].
  intros Heq. rewrite Heq in Hnone. destruct Hget as [earlier Hearlier].
  rewrite Hearlier in Hnone. destruct earlier; discriminate Hnone.
Qed.

(** Two messages of one chat whose id is the object {room: "a"}: the
    commits file both under the caller's object, and a rebuild files each
    under a key of its own. *)
Lemma object_chat_ids_do_not_survive_a_rebuild_witness :
  let room := JObj [("room"%string, JStr "a")] in
  let payload := JObj [("chatId"%string, room); ("text"%string, JStr "hello");
                       ("role"%string, JStr "user")] in
  let e1 := with_chat_ref (Fixture.env Fixture.t0 Fixture.nonce1) 7 in
  let e2 := with_chat_ref (Fixture.env (Fixture.t0 + 3000) Fixture.nonce2) 7 in
  let w1 := snd (commitAction e1 Fixture.fresh CHAT_USER payload None) in
  let w2 := snd (commitAction e2 w1 CHAT_USER payload None) in
  let rebuilt := rebuildProjections (w_state w2) (w_db w2) in
  getChainLen (w_db w2) = 2
  /\ map (fun kv => (fst kv, map m_seq (snd kv))) (sm_messages (w_state w2))
     = [(KeyObject (CallerObject 7) room, [1; 2])]
  /\ map (fun kv => (fst kv, map m_seq (snd kv))) (sm_messages rebuilt)
     = [(KeyObject (StoredObject 0) room, [1]);
        (KeyObject (StoredObject 1) room, [2])]
  /\ getMessages rebuilt (KeyObject (CallerObject 7) room) = []
  /\ rebuilt <> w_state w2.
Proof.
  intros room payload e1 e2 w1 w2 rebuilt.
  assert (Hok : ok (fst (commitAction e2 w1 CHAT_USER payload None)) = true)
    by (vm_compute; reflexivity).
  destruct (object_chat_ids_do_not_survive_a_rebuild e2 w1 CHAT_USER payload
              None Fixture.alice eq_refl Hok eq_refl eq_refl)
    as (_ & Hnone & Hne).
  split; [vm_compute; reflexivity |].
  split; [vm_compute; reflexivity |].
  split; [vm_compute; reflexivity |].
  split; [exact Hnone | exact Hne].
Defined.
(** ** More on caps *)

Lemma applyResets_fresh (c : CapsRecord) (now : Z) :
  needsReset (fst (applyResets c now)) now = false.
Proof.
  unfold applyResets, needsReset.
  cbn [fst dailyReset monthlyReset yearlyReset].
  pose proof (next_daily_boundary now) as (_ & Hd & _).
  pose proof (next_monthly_boundary now) as (_ & Hm & _).
  pose proof (next_yearly_boundary now) as (_ & Hy & _).
  destruct (Z.leb_spec (dailyReset c) now),
    (Z.leb_spec (monthlyReset c) now), (Z.leb_spec (yearlyReset c) now);
    repeat match goal with
           | |- context [?a <=? ?b] => destruct (Z.leb_spec a b); try lia
           end; reflexivity.
Qed.

(** What a read returns is the formatted record that it leaves in the
    cache, and that record is not due for a reset. *)
Lemma getCurrentCaps_cached (now : Z) (db : DB)
    (cache : gmap string CapsRecord) (hid : string) :
  exists c,
    fst (fst (getCurrentCaps now db cache hid)) = formatCaps c
    /\ snd (getCurrentCaps now db cache hid) !! hid = Some c
    /\ needsReset c now = false.
Proof.
  unfold getCurrentCaps.
  assert (Hreload : exists c,
    fst (fst (let '(c, reset) := applyResets (loadCaps db hid) now in
              (formatCaps c, if reset then saveCaps db hid c else db,
               <[hid := c]> cache))) = formatCaps c
    /\ snd (let '(c, reset) := applyResets (loadCaps db hid) now in
            (formatCaps c, if reset then saveCaps db hid c else db,
             <[hid := c]> cache)) !! hid = Some c
    /\ needsReset c now = false).
  { pose proof (applyResets_fresh (loadCaps db hid) now) as Hf.
    destruct (applyResets (loadCaps db hid) now) as [c reset].
    exists c. cbn [fst snd] in *. rewrite lookup_insert_eq. auto. }
  destruct (cache !! hid) as [cached |] eqn:E; [| exact Hreload].
  destruct (needsReset cached now) eqn:En; cbn [negb]; [exact Hreload |].
  exists cached. cbn [fst snd]. auto.
Qed.

Lemma validateCaps_is_increment_by_one (now : Z) (db : DB)
    (cache : gmap string CapsRecord) (segment : Segment) :
  v_ok (fst (fst (validateCaps now db (Some cache) segment)))
  = inc_ok (fst (fst (incrementCaps now db cache (s_current_owner segment) 1))).
Proof.
  unfold incrementCaps, validateCaps.
  destruct (getCurrentCaps_cached now db cache (s_current_owner segment))
    as (c & Hview & _).
  destruct (getCurrentCaps now db cache (s_current_owner segment))
    as [[view db1] cache1].
  cbn [fst snd] in Hview. rewrite Hview.
  cbn [formatCaps cv_daily cv_monthly cv_yearly fst].
  destruct (Z.leb_spec DAILY_CAP (daily c)),
    (Z.ltb_spec DAILY_CAP (daily c + 1)); try lia; [reflexivity |].
  destruct (Z.leb_spec MONTHLY_CAP (monthly c)),
    (Z.ltb_spec MONTHLY_CAP (monthly c + 1)); try lia; [reflexivity |].
  destruct (Z.leb_spec YEARLY_CAP (yearly c)),
    (Z.ltb_spec YEARLY_CAP (yearly c + 1)); try lia; reflexivity.
Qed.

(** X15: canUnlock, incrementCaps and rule 2 decide alike: at the same
    time and on the same tracker, canUnlock(hid, amount) says ok exactly
    when incrementCaps(hid, amount) accepts, they refuse for the same
    period, a refused increment leaves the database and the cache as
    canUnlock leaves them, and rule 2 passes a segment exactly when an
    increment by one for its owner would be accepted. *)
Theorem canUnlock_agrees_with_incrementCaps (now : Z) (db : DB)
    (cache : gmap string CapsRecord) (hid : string) (amount : Z) :
  let can := canUnlock now db cache hid amount in
  let inc := incrementCaps now db cache hid amount in
  fst (fst (fst can)) = inc_ok (fst (fst inc))
  /\ increment_reason (snd (fst (fst can))) = inc_reason (fst (fst inc))
  /\ (fst (fst (fst can)) = false ->
      snd (fst inc) = snd (fst can) /\ snd inc = snd can)
  /\ (forall segment,
        v_ok (fst (fst (validateCaps now db (Some cache) segment)))
        = inc_ok (fst (fst (incrementCaps now db cache
                              (s_current_owner segment) 1)))).
Proof.
  cbv zeta.
  split; [| split; [| split; [| apply validateCaps_is_increment_by_one]]];
    unfold canUnlock, incrementCaps;
    destruct (getCurrentCaps_cached now db cache hid) as (c & Hview & _);
    destruct (getCurrentCaps now db cache hid) as [[view db1] cache1];
    cbn [fst snd] in Hview; rewrite Hview;
    cbn [formatCaps cv_available_daily cv_available_monthly
         cv_available_yearly cv_daily cv_monthly cv_yearly].
  - destruct (Z.ltb_spec (DAILY_CAP - daily c) amount),
      (Z.ltb_spec DAILY_CAP (daily c + amount)); try lia; [reflexivity |].
    destruct (Z.ltb_spec (MONTHLY_CAP - monthly c) amount),
      (Z.ltb_spec MONTHLY_CAP (monthly c + amount)); try lia; [reflexivity |].
    destruct (Z.ltb_spec (YEARLY_CAP - yearly c) amount),
      (Z.ltb_spec YEARLY_CAP (yearly c + amount)); try lia; reflexivity.
  - destruct (Z.ltb_spec (DAILY_CAP - daily c) amount),
      (Z.ltb_spec DAILY_CAP (daily c + amount)); try lia; [reflexivity |].
    destruct (Z.ltb_spec (MONTHLY_CAP - monthly c) amount),
      (Z.ltb_spec MONTHLY_CAP (monthly c + amount)); try lia; [reflexivity |].
    destruct (Z.ltb_spec (YEARLY_CAP - yearly c) amount),
      (Z.ltb_spec YEARLY_CAP (yearly c + amount)); try lia; reflexivity.
  - destruct (Z.ltb_spec (DAILY_CAP - daily c) amount),
      (Z.ltb_spec DAILY_CAP (daily c + amount)); try lia; [auto |].
    destruct (Z.ltb_spec (MONTHLY_CAP - monthly c) amount),
      (Z.ltb_spec MONTHLY_CAP (monthly c + amount)); try lia; [auto |].
    destruct (Z.ltb_spec (YEARLY_CAP - yearly c) amount),
      (Z.ltb_spec YEARLY_CAP (yearly c + amount)); try lia; [auto |].
    discriminate.
Qed.

(** X16: the time until the daily reset is more than nothing and at most
    a day: the hours are between 0 and 24, the minutes and the seconds
    between 0 and 59; the three add up to the whole seconds left until the
    next UTC midnight; and at a UTC midnight, to the millisecond, the
    answer is 24 hours, not 0. *)
Theorem time_until_daily_reset_is_a_clock_time (now : Z) :
  let t := getTimeUntilDailyReset now in
  let diff := getNextDailyReset now - now in
  0 < diff <= 86400000
  /\ (now + diff) mod 86400000 = 0
  /\ 0 <= hours t <= 24
  /\ 0 <= minutes t <= 59
  /\ 0 <= seconds t <= 59
  /\ hours t * 3600 + minutes t * 60 + seconds t = diff / 1000
  /\ (hours t = 24 <-> now mod 86400000 = 0)
  /\ (hours t = 24 -> minutes t = 0 /\ seconds t = 0).
Proof.
  cbv zeta. unfold getTimeUntilDailyReset.
  fold (getNextDailyReset now). rewrite getNextDailyReset_eq.
  unfold EcmaDate.Day, EcmaDate.msPerDay. cbn [hours minutes seconds].
  set (diff := 86400000 * (now / 86400000 + 1) - now).
  assert (Hdiff : 0 < diff <= 86400000) by (subst diff; lia).
  assert (Hrem1 : Z.rem diff (1000 * 60 * 60) = diff mod 3600000).
  { rewrite Z.rem_mod_nonneg by lia. reflexivity. }
  assert (Hrem2 : Z.rem diff (1000 * 60) = diff mod 60000).
  { rewrite Z.rem_mod_nonneg by lia. reflexivity. }
  rewrite Hrem1, Hrem2.
  change (1000 * 60 * 60) with 3600000. change (1000 * 60) with 60000.
  split; [exact Hdiff |].
  split; [subst diff; lia |].
  repeat split; try lia.
  all: subst diff; lia.
Qed.

(** X17: reading the caps twice at the same time changes nothing the
    second time: the second read returns the same counters and leaves the
    database and the cache as the first read left them, whatever the
    database and the cache held before. *)
Theorem caps_read_is_idempotent (now : Z) (db : DB)
    (cache : gmap string CapsRecord) (hid : string) :
  let first := getCurrentCaps now db cache hid in
  getCurrentCaps now (snd (fst first)) (snd first) hid = first.
Proof.
  cbv zeta.
  destruct (getCurrentCaps_cached now db cache hid) as (c & Hview & Hc & Hn).
  destruct (getCurrentCaps now db cache hid) as [[view db1] cache1].
  cbn [fst snd] in *. subst view.
  unfold getCurrentCaps. rewrite Hc, Hn. reflexivity.
Qed.

Lemma getCurrentCaps_cache_other (now : Z) (db : DB)
    (cache : gmap string CapsRecord) (hid hid' : string) :
  hid <> hid' ->
  snd (getCurrentCaps now db cache hid) !! hid' = cache !! hid'.
Proof.
  intros Hne. unfold getCurrentCaps.
  destruct (applyResets (loadCaps db hid) now) as [c reset].
  destruct (cache !! hid) as [cached |].
  - destruct (negb (needsReset cached now)); cbn [snd]; [reflexivity |].
    apply lookup_insert_ne. exact Hne.
  - cbn [snd]. apply lookup_insert_ne. exact Hne.
Qed.

Lemma getCurrentCaps_ext (now : Z) (db db' : DB)
    (cache cache' : gmap string CapsRecord) (hid : string) :
  loadCaps db' hid = loadCaps db hid ->
  cache' !! hid = cache !! hid ->
  fst (fst (getCurrentCaps now db' cache' hid))
  = fst (fst (getCurrentCaps now db cache hid)).
Proof.
  intros Hl Hc. unfold getCurrentCaps. rewrite Hl, Hc.
  destruct (applyResets (loadCaps db hid) now) as [c reset].
  destruct (cache !! hid) as [cached |]; [| reflexivity].
  destruct (negb (needsReset cached now)); reflexivity.
Qed.

Lemma incrementCaps_other (now : Z) (db : DB)
    (cache : gmap string CapsRecord) (hid hid' : string) (amount : Z) :
  hid <> hid' ->
  loadCaps (snd (fst (incrementCaps now db cache hid amount))) hid'
  = loadCaps db hid'
  /\ snd (incrementCaps now db cache hid amount) !! hid' = cache !! hid'.
Proof.
  intros Hne. unfold incrementCaps.
  pose proof (getCurrentCaps_stored now db cache hid) as [_ Hs].
  pose proof (getCurrentCaps_cache_other now db cache hid hid' Hne) as Hc.
  destruct (getCurrentCaps now db cache hid) as [[view db1] cache1].
  cbn [fst snd] in Hs, Hc.
  assert (Hne' : hid' <> hid) by congruence.
  specialize (Hs hid' Hne').
  destruct (DAILY_CAP <? cv_daily view + amount); [cbn; auto |].
  destruct (MONTHLY_CAP <? cv_monthly view + amount); [cbn; auto |].
  destruct (YEARLY_CAP <? cv_yearly view + amount); [cbn; auto |].
  cbn [fst snd]. split.
  - rewrite loadCaps_saveCaps_other by exact Hne. exact Hs.
  - rewrite lookup_insert_ne by exact Hne. exact Hc.
Qed.

(** X18: the caps of one identity are out of reach of the others: a read,
    an increment or a canUnlock for one identity leaves the stored
    counters and reset times of every other identity, and what the other
    identity reads next, exactly as they were. *)
Theorem caps_of_identities_are_separate (now now' : Z) (db : DB)
    (cache : gmap string CapsRecord) (hid hid' : string) (amount : Z) :
  hid <> hid' ->
  let read := getCurrentCaps now db cache hid in
  let inc := incrementCaps now db cache hid amount in
  let can := canUnlock now db cache hid amount in
  let before := fst (fst (getCurrentCaps now' db cache hid')) in
  loadCaps (snd (fst read)) hid' = loadCaps db hid'
  /\ loadCaps (snd (fst inc)) hid' = loadCaps db hid'
  /\ loadCaps (snd (fst can)) hid' = loadCaps db hid'
  /\ fst (fst (getCurrentCaps now' (snd (fst read)) (snd read) hid')) = before
  /\ fst (fst (getCurrentCaps now' (snd (fst inc)) (snd inc) hid')) = before
  /\ fst (fst (getCurrentCaps now' (snd (fst can)) (snd can) hid')) = before.
Proof.
  intros Hne. cbv zeta.
  assert (Hne' : hid' <> hid) by congruence.
  pose proof (getCurrentCaps_stored now db cache hid) as [_ Hs].
  specialize (Hs hid' Hne'). cbv zeta in Hs.
  pose proof (getCurrentCaps_cache_other now db cache hid hid' Hne) as Hc.
  destruct (incrementCaps_other now db cache hid hid' amount Hne) as [Hi Hic].
  assert (Hcan : snd (fst (canUnlock now db cache hid amount))
                 = snd (fst (getCurrentCaps now db cache hid))
                 /\ snd (canUnlock now db cache hid amount)
                    = snd (getCurrentCaps now db cache hid)).
  { unfold canUnlock.
    destruct (getCurrentCaps now db cache hid) as [[view db1] cache1].
    destruct (cv_available_daily view <? amount); [cbn; auto |].
    destruct (cv_available_monthly view <? amount); [cbn; auto |].
    destruct (cv_available_yearly view <? amount); cbn; auto. }
  destruct Hcan as [-> ->].
  split; [exact Hs |]. split; [exact Hi |]. split; [exact Hs |].
  split; [| split]; apply getCurrentCaps_ext; assumption.
Qed.

(** An increment for alice, and what bob reads *)
Lemma caps_of_identities_are_separate_witness :
  fst (fst (getCurrentCaps (Fixture.t0 + 1)
              (snd (fst (incrementCaps Fixture.t0 emptyDB ∅ "HID-A1B2C3D4" 5)))
              (snd (incrementCaps Fixture.t0 emptyDB ∅ "HID-A1B2C3D4" 5))
              "HID-0B0B0B0B"))
  = fst (fst (getCurrentCaps (Fixture.t0 + 1) emptyDB ∅ "HID-0B0B0B0B")).
Proof.
  assert (Hne : "HID-A1B2C3D4"%string <> "HID-0B0B0B0B"%string)
    by discriminate.
  destruct (caps_of_identities_are_separate Fixture.t0 (Fixture.t0 + 1)
              emptyDB ∅ "HID-A1B2C3D4" "HID-0B0B0B0B" 5 Hne)
    as (_ & _ & _ & _ & H & _).
  exact H.
Defined.

(** ** Hexadecimal text *)

Lemma hex_digit_cases (d : Z) :
  0 <= d < 16 ->
  hex_value (Sha256.hex_digit d) = Some d
  /\ is_lower_hex (Sha256.hex_digit d) = true.
Proof.
  intros Hd.
  assert (H : d = 0 \/ d = 1 \/ d = 2 \/ d = 3 \/ d = 4 \/ d = 5 \/ d = 6
              \/ d = 7 \/ d = 8 \/ d = 9 \/ d = 10 \/ d = 11 \/ d = 12
              \/ d = 13 \/ d = 14 \/ d = 15) by lia.
  repeat (destruct H as [-> | H]; [split; reflexivity |]).
  subst d. split; reflexivity.
Qed.

Lemma padStart0_two (b : Z) :
  0 <= b < 256 -> padStart0 2 (toString16 b) = Sha256.hex_of_byte b.
Proof.
  intros Hb. unfold padStart0, toString16, Sha256.hex_of_byte.
  destruct (Z.ltb_spec b 16) as [Hlt | Hge]; cbn.
  - replace (b / 16) with 0 by lia. replace (b mod 16) with b by lia.
    reflexivity.
  - reflexivity.
Qed.

Lemma arrayToHex_cons (b : Z) (arr : list Z) :
  0 <= b < 256 ->
  arrayToHex (b :: arr)
  = String (Sha256.hex_digit (b / 16))
      (String (Sha256.hex_digit (b mod 16)) (arrayToHex arr)).
Proof.
  intros Hb. unfold arrayToHex, join. cbn [map].
  rewrite (padStart0_two b Hb). unfold Sha256.hex_of_byte.
  destruct (map _ arr) as [| s l]; cbn; reflexivity.
Qed.

Lemma parse_byte (b : Z) :
  0 <= b < 256 ->
  toUint8 (parseInt16 (String (Sha256.hex_digit (b / 16))
                         (String (Sha256.hex_digit (b mod 16)) EmptyString)))
  = b.
Proof.
  intros Hb.
  assert (H : exists h l, 0 <= h < 16 /\ 0 <= l < 16 /\ b = 16 * h + l).
  { exists (b / 16), (b mod 16). lia. }
  destruct H as (h & l & Hh & Hl & ->).
  replace ((16 * h + l) / 16) with h by lia.
  replace ((16 * h + l) mod 16) with l by lia.
  assert (Eh : h = 0 \/ h = 1 \/ h = 2 \/ h = 3 \/ h = 4 \/ h = 5 \/ h = 6
               \/ h = 7 \/ h = 8 \/ h = 9 \/ h = 10 \/ h = 11 \/ h = 12
               \/ h = 13 \/ h = 14 \/ h = 15) by lia.
  assert (El : l = 0 \/ l = 1 \/ l = 2 \/ l = 3 \/ l = 4 \/ l = 5 \/ l = 6
               \/ l = 7 \/ l = 8 \/ l = 9 \/ l = 10 \/ l = 11 \/ l = 12
               \/ l = 13 \/ l = 14 \/ l = 15) by lia.
  clear Hh Hl.
  repeat (destruct Eh as [-> | Eh]);
    repeat (destruct El as [-> | El]); try subst h; try subst l;
    vm_compute; reflexivity.
Qed.

Lemma hexToArray_two (h l : ascii) (rest : string) :
  hexToArray (String h (String l rest))
  = toUint8 (parseInt16 (String h (String l EmptyString))) :: hexToArray rest.
Proof.
  unfold hexToArray. cbn [String.length].
  replace (Nat.div (S (S (String.length rest))) 2)
    with (S (Nat.div (String.length rest) 2)).
  2:{ change (S (S (String.length rest))) with (2 + String.length rest)%nat.
      pose proof (Nat.div_add_l 1 2 (String.length rest)) as H.
      rewrite Nat.mul_1_l in H. rewrite H by lia. reflexivity. }
  cbn [seq map]. f_equal.
  - cbn. destruct rest; reflexivity.
  - rewrite <- seq_shift, map_map. apply map_ext. intros i.
    replace (2 * S i)%nat with (S (S (2 * i))) by lia. reflexivity.
Qed.

Lemma arrayToHex_length (arr : list Z) :
  Forall (fun b => 0 <= b < 256) arr ->
  String.length (arrayToHex arr) = (2 * length arr)%nat
  /\ string_forallb is_lower_hex (arrayToHex arr) = true.
Proof.
  induction 1 as [| b arr Hb _ [IHl IHf]]; [split; reflexivity |].
  rewrite (arrayToHex_cons b arr Hb). cbn [String.length string_forallb length].
  rewrite IHl, IHf.
  rewrite (proj2 (hex_digit_cases (b / 16) ltac:(lia))).
  rewrite (proj2 (hex_digit_cases (b mod 16) ltac:(lia))).
  split; [lia | reflexivity].
Qed.

(** X19: what arrayToHex writes, hexToArray reads back: for every array
    of bytes, hexToArray(arrayToHex(arr)) is arr; the text has two
    characters for each byte, all of them digits or the letters a to f. *)
Theorem hex_round_trip (arr : list Z) :
  Forall (fun b => 0 <= b < 256) arr ->
  hexToArray (arrayToHex arr) = arr
  /\ String.length (arrayToHex arr) = (2 * length arr)%nat
  /\ string_forallb is_lower_hex (arrayToHex arr) = true.
Proof.
  intros Hall. split; [| apply arrayToHex_length; exact Hall].
  induction Hall as [| b arr Hb _ IH]; [reflexivity |].
  rewrite (arrayToHex_cons b arr Hb), hexToArray_two, IH, (parse_byte b Hb).
  reflexivity.
Qed.

(** Four bytes, among them 0 and 255 *)
Lemma hex_round_trip_witness :
  hexToArray (arrayToHex [0; 10; 171; 255]) = [0; 10; 171; 255]
  /\ arrayToHex [0; 10; 171; 255] = "000aabff"%string.
Proof.
  assert (Hall : Forall (fun b => 0 <= b < 256) [0; 10; 171; 255])
    by (repeat constructor; lia).
  destruct (hex_round_trip [0; 10; 171; 255] Hall) as [H _].
  split; [exact H | reflexivity].
Defined.

Lemma lower_hex_digit (c : ascii) :
  is_lower_hex c = true ->
  exists d, 0 <= d < 16 /\ c = Sha256.hex_digit d /\ hex_value c = Some d.
Proof.
  unfold is_lower_hex. intros H.
  assert (Hn : (48 <= nat_of_ascii c <= 57 \/ 97 <= nat_of_ascii c <= 102)%nat).
  { apply orb_true_iff in H.
    destruct H as [H | H]; apply andb_true_iff in H as [H1 H2];
      apply Nat.leb_le in H1, H2; lia. }
  assert (Hc : c = ascii_of_nat (nat_of_ascii c))
    by (symmetry; apply ascii_nat_embedding).
  set (n := nat_of_ascii c) in *.
  assert (E : (n = 48 \/ n = 49 \/ n = 50 \/ n = 51 \/ n = 52 \/ n = 53
               \/ n = 54 \/ n = 55 \/ n = 56 \/ n = 57 \/ n = 97 \/ n = 98
               \/ n = 99 \/ n = 100 \/ n = 101 \/ n = 102)%nat) by lia.
  clear H Hn.
  repeat (destruct E as [E | E]); rewrite E in Hc; subst c;
    match goal with
    | |- context [ascii_of_nat ?k] =>
        let d := eval vm_compute in
                   (if Nat.ltb k 58 then Z.of_nat (k - 48)
                    else Z.of_nat (k - 87)) in
        exists d; split; [lia | split; reflexivity]
    end.
Qed.

Lemma hex_pair_byte (h l : Z) :
  0 <= h < 16 -> 0 <= l < 16 ->
  toUint8 (parseInt16 (String (Sha256.hex_digit h)
                         (String (Sha256.hex_digit l) EmptyString)))
  = 16 * h + l.
Proof.
  intros Hh Hl.
  pose proof (parse_byte (16 * h + l) ltac:(lia)) as H.
  replace ((16 * h + l) / 16) with h in H by lia.
  replace ((16 * h + l) mod 16) with l in H by lia.
  exact H.
Qed.

(** X20: a text of lowercase hex digits of even length is what arrayToHex
    writes for the bytes that hexToArray reads from it; hexToArray gives
    one byte, from 0 to 255, for every two characters of any text, and
    drops the last character of a text of odd length. *)
Theorem hex_text_round_trip (hex : string) :
  (Forall (fun b => 0 <= b < 256) (hexToArray hex)
   /\ length (hexToArray hex) = Nat.div (String.length hex) 2)
  /\ (string_forallb is_lower_hex hex = true ->
      Nat.even (String.length hex) = true ->
      arrayToHex (hexToArray hex) = hex).
Proof.
  split.
  - unfold hexToArray. split.
    + apply List.Forall_forall. intros b Hin. apply in_map_iff in Hin.
      destruct Hin as (i & <- & _). unfold toUint8.
      destruct (parseInt16 _); lia.
    + rewrite length_map, length_seq. reflexivity.
  - remember (String.length hex) as n eqn:Hn.
    revert hex Hn. induction n as [n IH] using lt_wf_ind.
    intros hex Hn Hall Heven.
    destruct hex as [| h [| l rest]].
    + reflexivity.
    + cbn in Hn. subst n. discriminate Heven.
    + cbn [string_forallb] in Hall.
      apply andb_true_iff in Hall as [Hh Hall].
      apply andb_true_iff in Hall as [Hl Hall].
      destruct (lower_hex_digit h Hh) as (dh & Hdh & -> & _).
      destruct (lower_hex_digit l Hl) as (dl & Hdl & -> & _).
      rewrite hexToArray_two, (hex_pair_byte dh dl Hdh Hdl).
      rewrite arrayToHex_cons by lia.
      replace ((16 * dh + dl) / 16) with dh by lia.
      replace ((16 * dh + dl) mod 16) with dl by lia.
      f_equal. f_equal.
      cbn [String.length] in Hn. subst n.
      apply (IH (String.length rest)); [lia | reflexivity | exact Hall |].
      exact Heven.
Qed.

(** A text of six digits, and one of five *)
Lemma hex_text_round_trip_witness :
  arrayToHex (hexToArray "00ff7a") = "00ff7a"%string
  /\ hexToArray "00ff7" = [0; 255].
Proof.
  split; [| reflexivity].
  apply (proj2 (hex_text_round_trip "00ff7a")); reflexivity.
Defined.

(** Text that is not hex digits: an uppercase digit is read, a character
    that is no digit ends the number, and no digit at all gives 0. *)
Example hexToArray_edge_cases :
  hexToArray "FF" = [255]
  /\ hexToArray "1g" = [1]
  /\ hexToArray "zz" = [0]
  /\ hexToArray "0x" = [0]
  /\ hexToArray "-1" = [255]
  /\ hexToArray " 7" = [7]
  /\ hexToArray EmptyString = [].
Proof. vm_compute. repeat split. Qed.

(** ** Digests and human ids *)

Lemma fold_compress_length (bs : list (list Z)) (h : list Z) :
  length h = 8%nat -> length (fold_left Sha256.compress bs h) = 8%nat.
Proof.
  revert h. induction bs as [| b bs IH]; intros h Hh; [exact Hh |].
  cbn [fold_left]. apply IH. reflexivity.
Qed.

Lemma hex_of_byte_format (b : Z) :
  0 <= b < 256 ->
  String.length (Sha256.hex_of_byte b) = 2%nat
  /\ string_forallb is_lower_hex (Sha256.hex_of_byte b) = true.
Proof.
  intros Hb. unfold Sha256.hex_of_byte. cbn [String.length string_forallb].
  rewrite (proj2 (hex_digit_cases (b / 16) ltac:(lia))).
  rewrite (proj2 (hex_digit_cases (b mod 16) ltac:(lia))).
  split; reflexivity.
Qed.

Lemma string_forallb_app (f : ascii -> bool) (s t : string) :
  string_forallb f (s +:+ t) = string_forallb f s && string_forallb f t.
Proof.
  induction s as [| c s IH]; [reflexivity |].
  change (String c s +:+ t) with (String c (s +:+ t)).
  cbn [string_forallb]. rewrite IH. apply andb_assoc.
Qed.

Lemma length_app_string (s t : string) :
  String.length (s +:+ t) = (String.length s + String.length t)%nat.
Proof.
  induction s as [| c s IH]; [reflexivity |].
  change (String c s +:+ t) with (String c (s +:+ t)).
  cbn [String.length]. rewrite IH. reflexivity.
Qed.

Lemma concat_format (f : ascii -> bool) (n : nat) (l : list string) :
  Forall (fun s => String.length s = n /\ string_forallb f s = true) l ->
  String.length (String.concat EmptyString l) = (n * length l)%nat
  /\ string_forallb f (String.concat EmptyString l) = true.
Proof.
  induction 1 as [| s l [Hn Hf] _ [IHn IHf]]; [split; [cbn; lia | reflexivity] |].
  assert (E : String.concat EmptyString (s :: l)
              = s +:+ String.concat EmptyString l).
  { destruct l as [| s' l']; cbn [String.concat]; [| reflexivity].
    clear. induction s as [| c s IH]; [reflexivity |].
    change (String c s +:+ EmptyString) with (String c (s +:+ EmptyString)).
    rewrite <- IH. reflexivity. }
  rewrite E, length_app_string, string_forallb_app, Hn, Hf, IHn, IHf.
  cbn [length]. split; [lia | reflexivity].
Qed.

Lemma hex_of_word_format (w : Z) :
  String.length (Sha256.hex_of_word w) = 8%nat
  /\ string_forallb is_lower_hex (Sha256.hex_of_word w) = true.
Proof.
  unfold Sha256.hex_of_word.
  apply (concat_format is_lower_hex 2
           (map Sha256.hex_of_byte (Sha256.be_bytes 4 w))).
  unfold Sha256.be_bytes. cbn [seq rev app map].
  repeat constructor; apply hex_of_byte_format; lia.
Qed.

(** The digest text has 64 characters, all lowercase hex digits. *)
Lemma sha256Hex_format (str : string) :
  String.length (sha256Hex str) = 64%nat
  /\ string_forallb is_lower_hex (sha256Hex str) = true.
Proof.
  unfold sha256Hex.
  set (d := Sha256.digest (Sha256.bytes_of_string str)).
  assert (Hd : length d = 8%nat).
  { subst d. unfold Sha256.digest. apply fold_compress_length. reflexivity. }
  pose proof (concat_format is_lower_hex 8 (map Sha256.hex_of_word d)) as H.
  rewrite length_map, Hd in H. apply H.
  apply List.Forall_forall. intros s Hin. apply in_map_iff in Hin.
  destruct Hin as (w & <- & _). apply hex_of_word_format.
Qed.

Lemma toUpperCase_hex (s : string) :
  string_forallb is_lower_hex s = true ->
  string_forallb is_upper_hex (toUpperCase s) = true
  /\ String.length (toUpperCase s) = String.length s.
Proof.
  induction s as [| c s IH]; [split; reflexivity |].
  cbn [string_forallb toUpperCase String.length].
  intros H. apply andb_true_iff in H as [Hc Hs].
  destruct (IH Hs) as [IHf IHl]. rewrite IHf, IHl.
  split; [| reflexivity]. rewrite andb_true_r.
  destruct (lower_hex_digit c Hc) as (d & Hd & -> & _).
  assert (E : d = 0 \/ d = 1 \/ d = 2 \/ d = 3 \/ d = 4 \/ d = 5 \/ d = 6
              \/ d = 7 \/ d = 8 \/ d = 9 \/ d = 10 \/ d = 11 \/ d = 12
              \/ d = 13 \/ d = 14 \/ d = 15) by lia.
  repeat (destruct E as [-> | E]; [reflexivity |]). subst d. reflexivity.
Qed.

Lemma substring_prefix_format (f : ascii -> bool) (n : nat) (s : string) :
  string_forallb f s = true -> (n <= String.length s)%nat ->
  string_forallb f (String.substring 0 n s) = true
  /\ String.length (String.substring 0 n s) = n.
Proof.
  revert s. induction n as [| n IH]; intros s Hf Hn.
  - destruct s; split; reflexivity.
  - destruct s as [| c s]; [cbn in Hn; lia |].
    cbn [string_forallb] in Hf. apply andb_true_iff in Hf as [Hc Hs].
    cbn [String.length] in Hn.
    destruct (IH s Hs ltac:(lia)) as [IHf IHl].
    cbn [String.substring string_forallb String.length].
    rewrite Hc, IHf, IHl. split; reflexivity.
Qed.

Lemma substring_from_4 (t : string) :
  String.substring 4 (String.length ("HID-" +:+ t)) ("HID-" +:+ t) = t.
Proof.
  change ("HID-" +:+ t)
    with (String "H" (String "I" (String "D" (String "-" t)))).
  cbn [String.length String.substring].
  assert (H : forall s n, (String.length s <= n)%nat ->
                          String.substring 0 n s = s).
  { induction s as [| c s IH]; intros [| n] Hn; cbn in *; try reflexivity;
      try lia. rewrite IH by lia. reflexivity. }
  apply H. lia.
Qed.

(** X21: every human id that generateHumanId derives from a public key
    has the form that isValidHid asks for: HID- followed by exactly eight
    characters from 0-9 and A-F, twelve characters in all; so it passes
    the owner check of validateSegmentStructure, and formatHid shows it as
    HID-... followed by its last four characters. The digest it is cut
    from has 64 lowercase hex characters. *)
Theorem generated_human_id_is_valid (publicKeyJwk : JVal) :
  let hid := generateHumanId publicKeyJwk in
  isValidHid (JStr hid) = true
  /\ String.length hid = 12%nat
  /\ startsWith hid "HID-" = true
  /\ formatHid hid = "HID-..." +:+ slice_last 4 hid
  /\ String.length (sha256Hex (canonicalize publicKeyJwk)) = 64%nat
  /\ string_forallb is_lower_hex (sha256Hex (canonicalize publicKeyJwk)) = true.
Proof.
  cbv zeta. unfold generateHumanId.
  destruct (sha256Hex_format (canonicalize publicKeyJwk)) as [Hlen Hhex].
  destruct (substring_prefix_format is_lower_hex 8 _ Hhex ltac:(lia))
    as [Hpf Hpl].
  destruct (toUpperCase_hex _ Hpf) as [Huf Hul]. rewrite Hpl in Hul.
  set (t := toUpperCase (String.substring 0 8
                           (sha256Hex (canonicalize publicKeyJwk)))) in *.
  clearbody t.
  assert (Hlen12 : String.length ("HID-" +:+ t) = 12%nat).
  { rewrite length_app_string, Hul. reflexivity. }
  assert (Hprefix : String.substring 0 4 ("HID-" +:+ t) = "HID-"%string)
    by (destruct t; reflexivity).
  assert (Hstart : startsWith ("HID-" +:+ t) "HID-" = true).
  { unfold startsWith. cbn [String.length]. rewrite Hprefix. reflexivity. }
  split; [| split; [exact Hlen12 | split; [exact Hstart | split; [| auto]]]].
  - unfold isValidHid. rewrite Hstart, Hprefix.
    rewrite substring_from_4, Hlen12, Hul, Huf. reflexivity.
  - unfold formatHid. rewrite Hstart, Hprefix.
    destruct (String.eqb_spec ("HID-" +:+ t) EmptyString) as [E | _];
      [destruct t; discriminate E |].
    reflexivity.
Qed.

(** The id of the fixture's key *)
Example human_id_of_a_key :
  generateHumanId (id_pubJwk Fixture.alice) = "HID-E0546A94"%string
  /\ formatHid "HID-E0546A94" = "HID-...6A94"%string
  /\ isValidHid (JStr "HID-e0546a94") = false
  /\ isValidHid (JStr "HID-E0546A9") = false
  /\ isValidHid (JNum 123) = false
  /\ formatHid "INVALID" = "INVALID"%string.
Proof. vm_compute. repeat split. Qed.

(** ** Canonical text *)

Lemma code_unit_rank_inj (a b : ascii) :
  code_unit_rank a = code_unit_rank b -> a = b.
Proof.
  intros H. rewrite <- (ascii_N_embedding a), <- (ascii_N_embedding b).
  f_equal. revert H. unfold code_unit_rank.
  pose proof (N_ascii_bounded a). pose proof (N_ascii_bounded b).
  destruct (N.eqb_spec (N_of_ascii a) 238), (N.eqb_spec (N_of_ascii a) 239),
    (N.eqb_spec (N_of_ascii b) 238), (N.eqb_spec (N_of_ascii b) 239);
    cbn [orb];
    destruct (N.leb_spec 240 (N_of_ascii a)),
      (N.leb_spec 240 (N_of_ascii b)); lia.
Qed.

Lemma code_unit_leb_trans (a b c : string) :
  code_unit_leb a b = true -> code_unit_leb b c = true ->
  code_unit_leb a c = true.
Proof.
  revert b c.
  induction a as [| x a IH]; intros [| y b] [| z c]; cbn [code_unit_leb];
    try reflexivity; try discriminate.
  destruct (N.compare_spec (code_unit_rank x) (code_unit_rank y))
    as [Exy | Lxy | Gxy];
    destruct (N.compare_spec (code_unit_rank y) (code_unit_rank z))
      as [Eyz | Lyz | Gyz];
    try discriminate.
  - rewrite Exy, Eyz, N.compare_refl. apply IH.
  - intros _ _. rewrite Exy.
    destruct (N.compare_spec (code_unit_rank y) (code_unit_rank z)); try lia;
      reflexivity.
  - intros _ _. rewrite <- Eyz.
    destruct (N.compare_spec (code_unit_rank x) (code_unit_rank y)); try lia;
      reflexivity.
  - intros _ _.
    destruct (N.compare_spec (code_unit_rank x) (code_unit_rank z)); try lia;
      reflexivity.
Qed.

Lemma code_unit_leb_antisym (a b : string) :
  code_unit_leb a b = true -> code_unit_leb b a = true -> a = b.
Proof.
  revert b. induction a as [| x a IH]; intros [| y b]; cbn [code_unit_leb];
    try reflexivity; try discriminate.
  rewrite (N.compare_antisym (code_unit_rank x) (code_unit_rank y)).
  destruct (N.compare_spec (code_unit_rank x) (code_unit_rank y))
    as [E | L | G]; cbn [CompOpp]; try discriminate.
  intros H1 H2. apply code_unit_rank_inj in E. subst y.
  f_equal. apply IH; assumption.
Qed.

Lemma code_unit_leb_total (a b : string) :
  code_unit_leb a b = true \/ code_unit_leb b a = true.
Proof.
  revert b. induction a as [| x a IH]; intros [| y b]; cbn [code_unit_leb];
    auto.
  rewrite (N.compare_antisym (code_unit_rank x) (code_unit_rank y)).
  destruct (N.compare_spec (code_unit_rank x) (code_unit_rank y));
    cbn [CompOpp]; auto.
Qed.

Lemma insert_sorted_perm {A} (kv : string * A) (l : list (string * A)) :
  Permutation (insert_sorted kv l) (kv :: l).
Proof.
  induction l as [| kv' l IH]; cbn [insert_sorted]; [reflexivity |].
  destruct (code_unit_leb (fst kv) (fst kv')); [reflexivity |].
  rewrite IH. apply perm_swap.
Qed.

Lemma sort_props_perm {A} (l : list (string * A)) :
  Permutation (sort_props l) l.
Proof.
  unfold sort_props. induction l as [| kv l IH]; [reflexivity |].
  cbn [fold_right]. rewrite insert_sorted_perm, IH. reflexivity.
Qed.

Lemma insert_sorted_sorted {A} (kv : string * A) (l : list (string * A)) :
  key_sorted l -> key_sorted (insert_sorted kv l).
Proof.
  unfold key_sorted. induction 1 as [| kv' l Hs IH Hall];
    cbn [insert_sorted]; [repeat constructor |].
  destruct (code_unit_leb (fst kv) (fst kv')) eqn:E.
  - constructor; [constructor; assumption |].
    constructor; [exact E |].
    eapply List.Forall_impl; [| exact Hall].
    intros q Hq. cbn beta in *. eapply code_unit_leb_trans; eauto.
  - constructor; [exact IH |].
    assert (Hle : code_unit_leb (fst kv') (fst kv) = true).
    { destruct (code_unit_leb_total (fst kv) (fst kv')); congruence. }
    apply List.Forall_forall. intros q Hq.
    apply (Permutation_in _ (insert_sorted_perm kv l)) in Hq.
    destruct Hq as [<- | Hq]; [exact Hle |].
    rewrite List.Forall_forall in Hall. apply Hall. exact Hq.
Qed.

Lemma sort_props_sorted {A} (l : list (string * A)) :
  key_sorted (sort_props l).
Proof.
  unfold sort_props. induction l as [| kv l IH]; [constructor |].
  cbn [fold_right]. apply insert_sorted_sorted. exact IH.
Qed.

(** A list of properties with distinct keys has one arrangement in
    ascending order of the keys. *)
Lemma key_sorted_unique {A} (l1 l2 : list (string * A)) :
  key_sorted l1 -> key_sorted l2 -> Permutation l1 l2 ->
  NoDup (map fst l1) -> l1 = l2.
Proof.
  unfold key_sorted. intros Hs1. revert l2.
  induction Hs1 as [| p l1 Hs1 IH Hall1]; intros l2 Hs2 Hperm Hnd.
  - apply Permutation_nil in Hperm. subst. reflexivity.
  - destruct Hs2 as [| q l2 Hs2 Hall2].
    + apply Permutation_sym, Permutation_nil in Hperm. discriminate.
    + assert (Hpq : p = q).
      { assert (Hp : In p (q :: l2))
          by (apply (Permutation_in _ Hperm); left; reflexivity).
        assert (Hq : In q (p :: l1))
          by (apply (Permutation_in _ (Permutation_sym Hperm)); left;
              reflexivity).
        destruct Hp as [-> | Hp]; [reflexivity |].
        destruct Hq as [-> | Hq]; [reflexivity |].
        rewrite List.Forall_forall in Hall1, Hall2.
        pose proof (Hall1 q Hq) as H1. pose proof (Hall2 p Hp) as H2.
        pose proof (code_unit_leb_antisym _ _ H1 H2) as Ek.
        exfalso. cbn [map] in Hnd. apply NoDup_cons_1_1 in Hnd.
        apply Hnd. rewrite Ek. apply list_elem_of_In.
        apply in_map. exact Hq. }
      subst q. f_equal. apply IH.
      * exact Hs2.
      * eapply Permutation_cons_inv. exact Hperm.
      * cbn [map] in Hnd. apply NoDup_cons_1_2 in Hnd. exact Hnd.
Qed.

Lemma sort_props_permutation {A} (l1 l2 : list (string * A)) :
  Permutation l1 l2 -> NoDup (map fst l1) -> sort_props l1 = sort_props l2.
Proof.
  intros Hperm Hnd. apply key_sorted_unique.
  - apply sort_props_sorted.
  - apply sort_props_sorted.
  - rewrite !sort_props_perm. exact Hperm.
  - eapply NoDup_Permutation_proper; [| exact Hnd].
    apply Permutation_map. apply sort_props_perm.
Qed.

(** Induction on the derivation of [reordered], with the hypothesis on
    the items of an array and on the values of an object *)
Lemma reordered_induction (P : JVal -> JVal -> Prop) :
  (forall v, P v v) ->
  (forall xs ys, Forall2 P xs ys -> P (JArr xs) (JArr ys)) ->
  (forall ps qs qs',
     Forall2 (fun p q => fst p = fst q /\ P (snd p) (snd q)) ps qs ->
     Permutation qs qs' -> NoDup (map fst ps) -> P (JObj ps) (JObj qs')) ->
  forall a b, reordered a b -> P a b.
Proof.
  intros Hsame Harr Hobj.
  fix IH 3. intros a b H. destruct H as [v | xs ys H | ps qs qs' H Hp Hn].
  - apply Hsame.
  - apply Harr. revert xs ys H.
    fix IHl 3. intros xs ys H. destruct H as [| x y xs ys Hxy H].
    + constructor.
    + constructor; [apply IH; exact Hxy | apply IHl; exact H].
  - apply (Hobj ps qs qs'); [| exact Hp | exact Hn]. clear Hn Hp.
    revert ps qs H. fix IHl 3. intros ps qs H. destruct H as [| p q ps qs [Hk Hv] H].
    + constructor.
    + constructor; [split; [exact Hk | apply IH; exact Hv] | apply IHl; exact H].
Qed.

(** X22: the canonical text does not depend on the order in which
    objects list their properties: two values that differ only in that
    order, at any depth and also inside arrays, have the same canonical
    text, hence the same digest and the same signable content. *)
Theorem canonical_text_ignores_key_order (a b : JVal) :
  reordered a b ->
  canonicalize a = canonicalize b
  /\ sha256Hex (canonicalize a) = sha256Hex (canonicalize b).
Proof.
  intros H.
  assert (E : canonicalize a = canonicalize b);
    [| split; [exact E | rewrite E; reflexivity]].
  revert a b H. apply reordered_induction.
  - reflexivity.
  - intros xs ys H. cbn [canonicalize]. do 3 f_equal.
    induction H as [| x y xs ys Hxy _ IH]; [reflexivity |].
    cbn [map]. rewrite Hxy, IH. reflexivity.
  - intros ps qs qs' H Hperm Hnd. cbn [canonicalize]. do 4 f_equal.
    set (render := fun kv : string * JVal =>
                     match kv with (k, v) => (k, canonicalize v) end).
    assert (E : map render ps = map render qs).
    { clear Hperm Hnd. induction H as [| [k v] [k' v'] ps qs [Hk Hv] _ IH];
        [reflexivity |].
      cbn [map render fst snd] in *. rewrite Hk, Hv, IH. reflexivity. }
    rewrite E. apply sort_props_permutation.
    + apply Permutation_map. exact Hperm.
    + rewrite <- E, map_map.
      replace (map (fun x => fst (render x)) ps) with (map fst ps); [exact Hnd |].
      apply map_ext. intros [k v]. reflexivity.
Qed.

(** A key in another order, with a nested object in another order *)
Lemma canonical_text_ignores_key_order_witness :
  canonicalize
    (JObj [("b"%string, JNum 2);
           ("a"%string, JObj [("y"%string, JNull); ("x"%string, JBool true)])])
  = canonicalize
      (JObj [("a"%string, JObj [("x"%string, JBool true); ("y"%string, JNull)]);
             ("b"%string, JNum 2)]).
Proof.
  assert (Hnested :
    reordered (JObj [("y"%string, JNull); ("x"%string, JBool true)])
              (JObj [("x"%string, JBool true); ("y"%string, JNull)])).
  { apply (reordered_object _ [("y"%string, JNull); ("x"%string, JBool true)]).
    - repeat (apply List.Forall2_cons;
              [split; [reflexivity | apply reordered_same] |]).
      apply List.Forall2_nil.
    - apply perm_swap.
    - repeat (apply NoDup_cons_2;
              [intros Hx; apply list_elem_of_In in Hx; cbn in Hx;
               intuition discriminate |]).
      apply NoDup_nil_2. }
  assert (H :
    reordered
      (JObj [("b"%string, JNum 2);
             ("a"%string,
              JObj [("y"%string, JNull); ("x"%string, JBool true)])])
      (JObj [("a"%string,
              JObj [("x"%string, JBool true); ("y"%string, JNull)]);
             ("b"%string, JNum 2)])).
  { apply (reordered_object _
             [("b"%string, JNum 2);
              ("a"%string,
               JObj [("x"%string, JBool true); ("y"%string, JNull)])]).
    - apply List.Forall2_cons; [split; [reflexivity | apply reordered_same] |].
      apply List.Forall2_cons; [split; [reflexivity | exact Hnested] |].
      apply List.Forall2_nil.
    - apply perm_swap.
    - repeat (apply NoDup_cons_2;
              [intros Hx; apply list_elem_of_In in Hx; cbn in Hx;
               intuition discriminate |]).
      apply NoDup_nil_2. }
  destruct (canonical_text_ignores_key_order _ _ H) as [E _]. exact E.
Defined.
